(** * Dominator analysis (libyul/backends/evm/Dominator.h)

    A shallow embedding of the [Dominator] class template: the Lengauer-Tarjan
    construction ([lengauerTarjanDominator], [compressPath]), the dominator
    tree ([buildDominatorTree]) and the two queries ([dominates],
    [dominatorsOf]), followed by the properties of the specification that
    were checked against it. *)

From stdpp Require Import gmap list.
From Stdlib Require Import NArith Lia.

Local Open Scope N_scope.

(** ** Machine integers and failures *)

(** [size_t] is a 64-bit unsigned integer; it is embedded in [N] and the only
    arithmetic the class performs on it, [dfIdx++], wraps explicitly. *)
Definition size_modulus : N := 18446744073709551616.

(** [std::numeric_limits<size_t>::max()], the "undefined" index. *)
Definition size_max : N := 18446744073709551615.

Definition size_incr (x : N) : N := (x + 1) mod size_modulus.

(** The class is a template over [Vertex], but the reverse loop of the
    construction binds [Vertex const& w = m_vertexIndex[*it]] and then indexes
    the vectors with [w]: a vertex is an index-like value that converts from
    and to [size_t].  Vertices are therefore [size_t] values, and the
    value-initialised vertex that [std::vector<Vertex>(n)] stores is [0]. *)
Abbreviation Vertex := N (only parsing).
Definition default_vertex : Vertex := 0.

(** Outcomes of a call: a value, a failed [solAssert], an access past the
    end of a [std::vector] (undefined behaviour in the source, a fault here),
    or an exhausted recursion/iteration budget. *)
Inductive res (A : Type) : Type :=
| Ok (a : A)
| AssertFail
| OutOfBounds
| OutOfFuel.
Arguments Ok {A} a.
Arguments AssertFail {A}.
Arguments OutOfBounds {A}.
Arguments OutOfFuel {A}.

Definition bind {A B} (r : res A) (k : A → res B) : res B :=
  match r with
  | Ok a => k a
  | AssertFail => AssertFail
  | OutOfBounds => OutOfBounds
  | OutOfFuel => OutOfFuel
  end.

Notation "'let*' x ':=' r 'in' k" := (bind r (fun x => k))
  (at level 10, x name, r at level 100, k at level 200).
Notation "'let*' ' p ':=' r 'in' k" := (bind r (fun x => let 'p := x in k))
  (at level 10, p pattern, r at level 100, k at level 200).

(** ** Containers *)

Definition vsize {A} (l : list A) : N := N.of_nat (length l).

(** [v[i]] as an rvalue. *)
Definition vget {A} (l : list A) (i : N) : res A :=
  if i <? vsize l then
    match l !! N.to_nat i with
    | Some x => Ok x
    | None => OutOfBounds
    end
  else OutOfBounds.

(** [v[i] = x]. *)
Definition vset {A} (l : list A) (i : N) (x : A) : res (list A) :=
  if i <? vsize l then Ok (<[N.to_nat i := x]> l) else OutOfBounds.

(** [std::map<Vertex, size_t>::operator[]]: an absent key is inserted with
    the value-initialised mapped value [0], and that value is returned. *)
Definition map_index (m : gmap N N) (k : N) : gmap N N * N :=
  match m !! k with
  | Some i => (m, i)
  | None => (<[k := 0]> m, 0)
  end.

(** [std::set<size_t>::insert]; the set is kept as its ascending iteration
    order. *)
Fixpoint set_insert (x : N) (s : list N) : list N :=
  match s with
  | [] => [x]
  | y :: s' =>
      if x <? y then x :: s
      else if x =? y then s
      else y :: set_insert x s'
  end.

(** A loop over a sequence whose body may fail. *)
Fixpoint foreach {A S} (body : A → S → res S) (l : list A) (st : S) : res S :=
  match l with
  | [] => Ok st
  | x :: l' => let* st' := body x st in foreach body l' st'
  end.

(** ** Path compression *)

(** [compressPath(_ancestor, _label, _semi, _v)]; [_semi] is only read. *)
Fixpoint compressPath (fuel : nat) (anc lab sem : list N) (v : N)
  : res (list N * list N) :=
  match fuel with
  | O => OutOfFuel
  | S f =>
      let* av := vget anc v in
      if av =? size_max then AssertFail else
      let u := av in
      let* au := vget anc u in
      if au =? size_max then Ok (anc, lab) else
      let* '(anc1, lab1) := compressPath f anc lab sem u in
      let* lu := vget lab1 u in
      let* slu := vget sem lu in
      let* lv := vget lab1 v in
      let* slv := vget sem lv in
      let* lab2 := (if slu <? slv then vset lab1 v lu else Ok lab1) in
      let* au' := vget anc1 u in
      let* anc2 := vset anc1 v au' in
      Ok (anc2, lab2)
  end.

(** ** Construction state *)

(** The two members the construction fills ([m_vertex], [m_vertexIndex]) and
    the locals of [lengauerTarjanDominator]. *)
Record LT : Type := mkLT {
  m_vertex : list N;
  m_vertexIndex : gmap N N;
  semi : list N;
  parent : list N;
  ancestor : list N;
  label : list N;
  visited : gset N;
  predecessors : list (list N);
  bucket : list (list N);
  idom : list N;
  dfIdx : N
}.

Definition set_m_vertex (st : LT) (x : list N) : LT :=
  mkLT x (m_vertexIndex st) (semi st) (parent st) (ancestor st) (label st)
       (visited st) (predecessors st) (bucket st) (idom st) (dfIdx st).
Definition set_m_vertexIndex (st : LT) (x : gmap N N) : LT :=
  mkLT (m_vertex st) x (semi st) (parent st) (ancestor st) (label st)
       (visited st) (predecessors st) (bucket st) (idom st) (dfIdx st).
Definition set_semi (st : LT) (x : list N) : LT :=
  mkLT (m_vertex st) (m_vertexIndex st) x (parent st) (ancestor st) (label st)
       (visited st) (predecessors st) (bucket st) (idom st) (dfIdx st).
Definition set_parent (st : LT) (x : list N) : LT :=
  mkLT (m_vertex st) (m_vertexIndex st) (semi st) x (ancestor st) (label st)
       (visited st) (predecessors st) (bucket st) (idom st) (dfIdx st).
Definition set_ancestor (st : LT) (x : list N) : LT :=
  mkLT (m_vertex st) (m_vertexIndex st) (semi st) (parent st) x (label st)
       (visited st) (predecessors st) (bucket st) (idom st) (dfIdx st).
Definition set_label (st : LT) (x : list N) : LT :=
  mkLT (m_vertex st) (m_vertexIndex st) (semi st) (parent st) (ancestor st) x
       (visited st) (predecessors st) (bucket st) (idom st) (dfIdx st).
Definition set_visited (st : LT) (x : gset N) : LT :=
  mkLT (m_vertex st) (m_vertexIndex st) (semi st) (parent st) (ancestor st)
       (label st) x (predecessors st) (bucket st) (idom st) (dfIdx st).
Definition set_predecessors (st : LT) (x : list (list N)) : LT :=
  mkLT (m_vertex st) (m_vertexIndex st) (semi st) (parent st) (ancestor st)
       (label st) (visited st) x (bucket st) (idom st) (dfIdx st).
Definition set_bucket (st : LT) (x : list (list N)) : LT :=
  mkLT (m_vertex st) (m_vertexIndex st) (semi st) (parent st) (ancestor st)
       (label st) (visited st) (predecessors st) x (idom st) (dfIdx st).
Definition set_idom (st : LT) (x : list N) : LT :=
  mkLT (m_vertex st) (m_vertexIndex st) (semi st) (parent st) (ancestor st)
       (label st) (visited st) (predecessors st) (bucket st) x (dfIdx st).
Definition set_dfIdx (st : LT) (x : N) : LT :=
  mkLT (m_vertex st) (m_vertexIndex st) (semi st) (parent st) (ancestor st)
       (label st) (visited st) (predecessors st) (bucket st) (idom st) x.

(** [m_vertexIndex[k]] inside the construction. *)
Definition index_of (k : Vertex) (st : LT) : LT * N :=
  let '(m, i) := map_index (m_vertexIndex st) k in (set_m_vertexIndex st m, i).

(** The state right after the local declarations of
    [lengauerTarjanDominator], with [m_vertex(_numVertices)] already built by
    the constructor's initialiser list. *)
Definition init_state (numVertices : N) : LT :=
  let n := N.to_nat numVertices in
  {| m_vertex := replicate n default_vertex;
     m_vertexIndex := ∅;
     semi := replicate n size_max;
     parent := replicate n size_max;
     ancestor := replicate n size_max;
     label := replicate n 0;
     visited := ∅;
     predecessors := replicate n [];
     bucket := replicate n [];
     idom := replicate n size_max;
     dfIdx := 0 |}.

(** The [link] lambda. *)
Definition link (p w : N) (st : LT) : res LT :=
  let* anc := vset (ancestor st) w p in Ok (set_ancestor st anc).

(** The [eval] lambda. *)
Definition eval (fuel : nat) (v : N) (st : LT) : res (LT * N) :=
  let* av := vget (ancestor st) v in
  if av =? size_max then Ok (st, v) else
  let* '(anc, lab) := compressPath fuel (ancestor st) (label st) (semi st) v in
  let* lv := vget lab v in
  Ok (set_label (set_ancestor st anc) lab, lv).

(** ** The Lengauer-Tarjan construction *)

Section Construction.

(** [ForEachSuccessor{}(v, visit)] calls [visit] on the successors of [v] in
    a stable order: the graph is a function to successor sequences. *)
Variable successors : Vertex → list Vertex.

(** The visitor that [dfs] hands to [ForEachSuccessor]; [rec] is [_dfs]. *)
Definition visit_successor (rec : Vertex → LT → res LT) (v w : Vertex)
    (st : LT) : res LT :=
  let* s := vget (semi st) (dfIdx st) in
  let* st1 :=
    (if s =? size_max then
       let '(st', iv) := index_of v st in
       let* par := vset (parent st') (dfIdx st') iv in
       rec w (set_parent st' par)
     else Ok st) in
  let '(st2, iw) := index_of w st1 in
  let '(st3, iv) := index_of v st2 in
  let* ps := vget (predecessors st3) iw in
  let* preds := vset (predecessors st3) iw (set_insert iv ps) in
  Ok (set_predecessors st3 preds).

(** Step 1, the [dfs] lambda.  [fuel] bounds the recursion depth. *)
Fixpoint dfs (fuel : nat) (v : Vertex) (st : LT) : res LT :=
  match fuel with
  | O => OutOfFuel
  | S f =>
      if decide (v ∈ visited st) then Ok st else
      let st := set_visited st ({[v]} ∪ visited st) in
      let* mv := vset (m_vertex st) (dfIdx st) v in
      let st := set_m_vertex st mv in
      let st := set_m_vertexIndex st (<[v := dfIdx st]> (m_vertexIndex st)) in
      let* sm := vset (semi st) (dfIdx st) (dfIdx st) in
      let st := set_semi st sm in
      let* lb := vset (label st) (dfIdx st) (dfIdx st) in
      let st := set_label st lb in
      let st := set_dfIdx st (size_incr (dfIdx st)) in
      foreach (visit_successor (dfs f) v) (successors v) st
  end.

(** Step 3 for one member [v] of [bucket[w]]. *)
Definition bucket_step (fuel : nat) (w v : N) (st : LT) : res LT :=
  let* '(st1, u) := eval fuel v st in
  let* su := vget (semi st1) u in
  let* sv := vget (semi st1) v in
  let* id := vset (idom st1) v (if su <? sv then u else w) in
  Ok (set_idom st1 id).

(** Step 2 for one predecessor [v] of [w]. *)
Definition semi_step (fuel : nat) (w v : N) (st : LT) : res LT :=
  let* '(st1, u) := eval fuel v st in
  let* su := vget (semi st1) u in
  let* sw := vget (semi st1) w in
  if su <? sw then
    let* sm := vset (semi st1) w su in Ok (set_semi st1 sm)
  else Ok st1.

(** The four steps the reverse loop performs for the index [w]. *)
Definition process_index (fuel : nat) (w : N) (st : LT) : res LT :=
  let* bw := vget (bucket st) w in
  let* st1 := foreach (bucket_step fuel w) bw st in
  let* pw := vget (predecessors st1) w in
  let* st2 := foreach (semi_step fuel w) pw st1 in
  let* sw := vget (semi st2) w in
  let* bs := vget (bucket st2) sw in
  let* bk := vset (bucket st2) sw (bs ++ [w]) in
  let st3 := set_bucket st2 bk in
  let* p := vget (parent st3) w in
  link p w st3.

(** The body of the reverse loop for the slot [*it] of [m_vertex]. *)
Definition process_vertex (fuel : nat) (it : Vertex) (st : LT) : res LT :=
  let '(st0, w) := index_of it st in process_index fuel w st0.

(** The loop [for (it = m_vertex.rbegin(); it != m_vertex.rend(); ++it)]. *)
Definition semi_pass (fuel : nat) (st : LT) : res LT :=
  foreach (process_vertex fuel) (rev (m_vertex st)) st.

(** The body of the step-4 loop. *)
Definition fixup_vertex (it : Vertex) (st : LT) : res LT :=
  let '(st0, w) := index_of it st in
  let* iw := vget (idom st0) w in
  let* sw := vget (semi st0) w in
  if iw =? sw then Ok st0 else
  let* iiw := vget (idom st0) iw in
  let* id := vset (idom st0) w iiw in
  Ok (set_idom st0 id).

(** Step 4. *)
Definition fixup_pass (st : LT) : res LT :=
  let* id := vset (idom st) 0 0 in
  let st1 := set_idom st id in
  foreach fixup_vertex (drop 1 (m_vertex st1)) st1.

(** [lengauerTarjanDominator(_entry, numVertices)]; the returned state holds
    the returned vector in [idom] and the two members it has filled. *)
Definition lengauerTarjanDominator (fuel : nat) (entry : Vertex)
    (numVertices : N) : res LT :=
  if numVertices =? 0 then AssertFail else
  let* st1 := dfs fuel entry (init_state numVertices) in
  let* st2 := semi_pass fuel st1 in
  fixup_pass st2.

End Construction.

(** ** The analyzer object *)

(** The members of a constructed [Dominator], named after their accessors:
    [m_vertex], [m_vertexIndex], [m_immediateDominator], [m_dominatorTree]. *)
Record Dominator : Type := mkDominator {
  vertices : list Vertex;
  vertexIndices : gmap Vertex N;
  immediateDominators : list N;
  dominatorTree : gmap N (list N)
}.

(** [m_dominatorTree[k].emplace_back(i)]. *)
Definition tree_append (k i : N) (t : gmap N (list N)) : gmap N (list N) :=
  <[k := default [] (t !! k) ++ [i]]> t.

(** [buildDominatorTree()] on an object whose members [m_vertex],
    [m_immediateDominator] and [m_dominatorTree] are [mv], [idomv] and
    [tree]; the result is the new [m_dominatorTree].  The method appends to
    the lists that the member already holds. *)
Definition buildDominatorTree (mv : list Vertex) (idomv : list N)
    (tree : gmap N (list N)) : res (gmap N (list N)) :=
  if decide (mv = []) then AssertFail else
  if decide (idomv = []) then AssertFail else
  foreach (fun i t => let* k := vget idomv (N.of_nat i) in
                      Ok (tree_append k (N.of_nat i) t))
          (seq 1 (length idomv - 1)) tree.

(** The constructor; [m_dominatorTree] is default-constructed, so
    [buildDominatorTree] starts from the empty map. *)
Definition construct (successors : Vertex → list Vertex) (fuel : nat)
    (entry : Vertex) (numVertices : N) : res Dominator :=
  let* st := lengauerTarjanDominator successors fuel entry numVertices in
  let* t := buildDominatorTree (m_vertex st) (idom st) ∅ in
  Ok (mkDominator (m_vertex st) (m_vertexIndex st) (idom st) t).

(** ** Queries *)

(** [m_vertexIndex[k]] on the finished object. *)
Definition lookup_index (k : Vertex) (d : Dominator) : Dominator * N :=
  let '(m, i) := map_index (vertexIndices d) k in
  (mkDominator (vertices d) m (immediateDominators d) (dominatorTree d), i).

(** The [while (idomIdx != 0)] loop of [dominates] with its final return. *)
Fixpoint dominates_walk (fuel : nat) (idomv : list N) (aIdx idomIdx : N)
  : res bool :=
  match fuel with
  | O => OutOfFuel
  | S f =>
      if idomIdx =? 0 then Ok (idomIdx =? aIdx)
      else if idomIdx =? aIdx then Ok true
      else let* next := vget idomv idomIdx in
           dominates_walk f idomv aIdx next
  end.

(** [dominates(_a, _b)]: the object after the call and the answer. *)
Definition dominates (fuel : nat) (a b : Vertex) (d : Dominator)
  : res (Dominator * bool) :=
  let '(d1, aIdx) := lookup_index a d in
  let '(d2, bIdx) := lookup_index b d1 in
  if aIdx =? bIdx then Ok (d2, true) else
  let* idomIdx := vget (immediateDominators d2) bIdx in
  let* r := dominates_walk fuel (immediateDominators d2) aIdx idomIdx in
  Ok (d2, r).

(** The [while (idomIdx != 0)] loop of [dominatorsOf]. *)
Fixpoint dominators_walk (fuel : nat) (mv : list Vertex) (idomv : list N)
    (idomIdx : N) (dominators : list Vertex) : res (list Vertex) :=
  match fuel with
  | O => OutOfFuel
  | S f =>
      if idomIdx =? 0 then Ok dominators
      else let* x := vget mv idomIdx in
           let* next := vget idomv idomIdx in
           dominators_walk f mv idomv next (dominators ++ [x])
  end.

(** [dominatorsOf(_v)]: the object after the call and the sequence. *)
Definition dominatorsOf (fuel : nat) (v : Vertex) (d : Dominator)
  : res (Dominator * list Vertex) :=
  if decide (vertices d = []) then AssertFail else
  let* e := vget (vertices d) 0 in
  let '(d1, vIdx) := lookup_index v d in
  let* idomIdx := vget (immediateDominators d1) vIdx in
  if idomIdx =? 0 then Ok (d1, [e]) else
  let* r := dominators_walk fuel (vertices d1) (immediateDominators d1)
              idomIdx [e] in
  Ok (d1, r).

(** ** The graphs of the end-to-end scenarios *)

Definition vA : Vertex := 65.
Definition vB : Vertex := 66.
Definition vC : Vertex := 67.
Definition vD : Vertex := 68.

(** A graph given by adjacency lists; a vertex without a list has no
    successor. *)
Fixpoint graph_of (adj : list (Vertex * list Vertex)) (v : Vertex)
  : list Vertex :=
  match adj with
  | [] => []
  | (x, ws) :: adj' => if x =? v then ws else graph_of adj' v
  end.

(** Linear chain [A→B, B→C, C→D]. *)
Definition chain : Vertex → list Vertex :=
  graph_of [(vA, [vB]); (vB, [vC]); (vC, [vD])].

(** Diamond [A→B, A→C, B→D, C→D]. *)
Definition diamond : Vertex → list Vertex :=
  graph_of [(vA, [vB; vC]); (vB, [vD]); (vC, [vD])].

Definition out {A B} (f : A → B) (r : res A) : res B :=
  let* a := r in Ok (f a).

(** The analyzer of the linear chain. *)
Definition chain_dominator : Dominator :=
  mkDominator [vA; vB; vC; vD]
    (list_to_map [(vA, 0); (vB, 1); (vC, 2); (vD, 3)])
    [0; 0; 1; 2]
    (list_to_map [(0, [1]); (1, [2]); (2, [3])]).

(** A vertex that is not in either graph. *)
Definition vX : Vertex := 99.

(** ** Query sequences *)

Inductive query : Type :=
| Qdominates (a b : Vertex)
| QdominatorsOf (v : Vertex).

Definition query_args (q : query) : list Vertex :=
  match q with
  | Qdominates a b => [a; b]
  | QdominatorsOf v => [v]
  end.

(** The object left behind by one query. *)
Definition run_query (fuel : nat) (q : query) (d : Dominator) : res Dominator :=
  match q with
  | Qdominates a b => out fst (dominates fuel a b d)
  | QdominatorsOf v => out fst (dominatorsOf fuel v d)
  end.

Definition run_queries (fuel : nat) (qs : list query) (d : Dominator)
  : res Dominator :=
  foreach (run_query fuel) qs d.

(** ** The reverse loop as the specification words it *)

(** The indices [n-1, ..., lo]. *)
Definition indices_down_to (lo n : nat) : list N :=
  rev (N.of_nat <$> seq lo (n - lo)).

(** "Process vertices in decreasing DFS order (from n-1 down to 1; index 0,
    the entry, is skipped)". *)
Definition semi_pass_skipping_entry (fuel : nat) (st : LT) : res LT :=
  foreach (process_index fuel) (indices_down_to 1 (length (m_vertex st))) st.

(** The state of the construction on the linear chain when the search has
    returned. *)
Definition chain_searched : LT :=
  mkLT [vA; vB; vC; vD]
    (list_to_map [(vA, 0); (vB, 1); (vC, 2); (vD, 3)])
    [0; 1; 2; 3] [size_max; 0; 1; 2] (replicate 4 size_max) [0; 1; 2; 3]
    (list_to_set [vA; vB; vC; vD]) [[]; [0]; [1]; [2]]
    (replicate 4 []) (replicate 4 size_max) 4.

(** * Invariants *)

(** ** Invariants of the depth-first search *)

(** Index [i] has a parent that is recorded among its predecessors. *)
Definition linked (st : LT) (i : N) : Prop :=
  ∃ p ps, parent st !! N.to_nat i = Some p ∧ p < i
          ∧ predecessors st !! N.to_nat i = Some ps ∧ p ∈ ps.

Record dfs_inv (st : LT) : Prop := {
  di_bound : dfIdx st ≤ vsize (m_vertex st);
  di_size : vsize (m_vertex st) ≤ size_max;
  di_semi_lo : ∀ i x,
    i < dfIdx st → semi st !! N.to_nat i = Some x → x = i;
  di_semi_hi : ∀ i x,
    dfIdx st ≤ i → semi st !! N.to_nat i = Some x → x = size_max;
  di_label : ∀ i x,
    i < dfIdx st → label st !! N.to_nat i = Some x → x = i;
  di_index : ∀ v i,
    m_vertexIndex st !! v = Some i →
    i < dfIdx st ∧ m_vertex st !! N.to_nat i = Some v;
  di_table : ∀ i v,
    i < dfIdx st → m_vertex st !! N.to_nat i = Some v →
    m_vertexIndex st !! v = Some i;
  di_visited : ∀ v, v ∈ visited st ↔ is_Some (m_vertexIndex st !! v);
  di_preds : ∀ i ps p,
    predecessors st !! N.to_nat i = Some ps → p ∈ ps → p < dfIdx st;
  di_root : ∀ p, parent st !! 0%nat = Some p → p = size_max;
  di_parent : ∀ i p,
    0 < i < dfIdx st → parent st !! N.to_nat i = Some p → p < i
}.

(** What a step of the search may change. *)
Record dfs_ext (st st' : LT) : Prop := {
  de_dfIdx : dfIdx st ≤ dfIdx st';
  de_length : length (m_vertex st') = length (m_vertex st);
  de_parent : ∀ i,
    i < dfIdx st → parent st' !! N.to_nat i = parent st !! N.to_nat i;
  de_preds : ∀ i ps,
    predecessors st !! N.to_nat i = Some ps →
    ∃ ps', predecessors st' !! N.to_nat i = Some ps' ∧ ps ⊆ ps';
  de_index : m_vertexIndex st ⊆ m_vertexIndex st';
  de_visited : visited st ⊆ visited st';
  de_ancestor : ancestor st' = ancestor st;
  de_bucket : bucket st' = bucket st;
  de_idom : idom st' = idom st
}.

(** The slot about to be handed out already names a parent, except at the
    root. *)
Definition pre_parent (st : LT) : Prop :=
  dfIdx st ≠ 0 →
  ∀ p, parent st !! N.to_nat (dfIdx st) = Some p → p < dfIdx st.

(** What a call of [dfs] on [v] establishes. *)
Record dfs_post (succ : N → list N) (v : N) (st st' : LT) : Prop := {
  dp_inv : dfs_inv st';
  dp_ext : dfs_ext st st';
  dp_slot :
    parent st' !! N.to_nat (dfIdx st) = parent st !! N.to_nat (dfIdx st);
  dp_linked : ∀ i, dfIdx st < i < dfIdx st' → linked st' i;
  dp_visited : v ∈ visited st';
  dp_old : v ∈ visited st → st' = st;
  dp_new : v ∉ visited st → m_vertexIndex st' !! v = Some (dfIdx st);
  dp_closed : ∀ x y,
    x ∈ visited st' → x ∉ visited st → y ∈ succ x → y ∈ visited st'
}.

(** What one call of the visitor on the successor [w] establishes. *)
Record visit_post (succ : N → list N) (w : N) (st st' : LT) : Prop := {
  vp_inv : dfs_inv st';
  vp_ext : dfs_ext st st';
  vp_linked : ∀ i, dfIdx st ≤ i < dfIdx st' → linked st' i;
  vp_visited : w ∈ visited st';
  vp_closed : ∀ x y,
    x ∈ visited st' → x ∉ visited st → y ∈ succ x → y ∈ visited st'
}.

(** The state in which [dfs] starts to enumerate the successors of the
    newly numbered [v]; [mv], [sm] and [lb] are the updated [m_vertex],
    [semi] and [label]. *)
Definition dfs_enter (v : Vertex) (mv sm lb : list N) (st : LT) : LT :=
  set_dfIdx
    (set_label
       (set_semi
          (set_m_vertexIndex
             (set_m_vertex (set_visited st ({[v]} ∪ visited st)) mv)
             (<[v := dfIdx st]> (m_vertexIndex st)))
          sm)
       lb)
    (size_incr (dfIdx st)).

(** ** Invariants of the reverse loop and of step 4 *)

(** Entries below [n] do not exceed their index. *)
Definition array_le (n : N) (l : list N) : Prop :=
  ∀ i x, i < n → l !! N.to_nat i = Some x → x ≤ i.

(** Below [n], an [ancestor] entry is undefined or a smaller index. *)
Definition forest (n : N) (anc : list N) : Prop :=
  ∀ i x, i < n → anc !! N.to_nat i = Some x → x = size_max ∨ x < i.

(** [idom[v]] is set, to a smaller index. *)
Definition idom_done (idomv : list N) (v : N) : Prop :=
  ∃ j, idomv !! N.to_nat v = Some j ∧ j < v.

Record pass_inv (n : N) (st : LT) : Prop := {
  pi_pos : 0 < n;
  pi_semi : array_le n (semi st);
  pi_label : array_le n (label st);
  pi_ancestor : forest n (ancestor st);
  pi_bucket : ∀ w b v,
    bucket st !! N.to_nat w = Some b → v ∈ b →
    v < n ∧ w ≤ v ∧ (v ≠ 0 → w < v);
  pi_root : ∀ p, parent st !! 0%nat = Some p → p = size_max;
  pi_linked : ∀ i, 0 < i < n → linked st i;
  pi_preds : ∀ i ps p,
    predecessors st !! N.to_nat i = Some ps → p ∈ ps → p < n;
  pi_index : ∀ v i, m_vertexIndex st !! v = Some i → i < n;
  pi_table : ∀ i,
    i < n →
    ∃ v, m_vertex st !! N.to_nat i = Some v ∧ m_vertexIndex st !! v = Some i
}.

(** What the two passes may change. *)
Record pass_ext (st st' : LT) : Prop := {
  pe_vertex : m_vertex st' = m_vertex st;
  pe_dfIdx : dfIdx st' = dfIdx st;
  pe_index : m_vertexIndex st ⊆ m_vertexIndex st';
  pe_idom : ∀ v, v ≠ 0 → idom_done (idom st) v → idom_done (idom st') v;
  pe_idom_length : length (idom st') = length (idom st);
  pe_bucket : ∀ j b,
    bucket st !! N.to_nat j = Some b →
    ∃ b', bucket st' !! N.to_nat j = Some b' ∧ b ⊆ b'
}.

(** Every index from [k] up has its [idom] set or waits in a bucket that
    the loop has yet to drain. *)
Definition progress (n k : N) (st : LT) : Prop :=
  ∀ v, k ≤ v < n → v ≠ 0 →
       idom_done (idom st) v
       ∨ ∃ j b, j < k ∧ bucket st !! N.to_nat j = Some b ∧ v ∈ b.

(** The immediate-dominator array once step 4 has begun. *)
Definition idom_final (n : N) (idomv : list N) : Prop :=
  idomv !! 0%nat = Some 0 ∧ ∀ i, 0 < i < n → idom_done idomv i.

(** ** What the construction guarantees *)

(** Reachability from the entry along successor edges. *)
Inductive reachable (succ : N → list N) (entry : N) : N → Prop :=
| reach_entry : reachable succ entry entry
| reach_step x y :
    reachable succ entry x → y ∈ succ x → reachable succ entry y.

(** The state returned by [lengauerTarjanDominator]; [dfIdx] is the number
    of vertices the search has reached. *)
Record lt_post (succ : N → list N) (entry : N) (numVertices : N) (st : LT)
  : Prop := {
  lp_pass : pass_inv (dfIdx st) st;
  lp_idom : idom_final (dfIdx st) (idom st);
  lp_entry : m_vertexIndex st !! entry = Some 0;
  lp_reach : ∀ v, reachable succ entry v → is_Some (m_vertexIndex st !! v);
  lp_first : m_vertex st !! 0%nat = Some entry;
  lp_size : vsize (m_vertex st) = numVertices;
  lp_idom_size : vsize (idom st) = numVertices;
  lp_bound : dfIdx st ≤ numVertices
}.

(** A constructed analyzer; [n] is the number of vertices the search has
    reached, which the object itself does not store. *)
Record analysed (succ : N → list N) (entry numVertices n : N)
    (d : Dominator) : Prop := {
  an_pos : 0 < n;
  an_bound : n ≤ numVertices;
  an_size : vsize (vertices d) = numVertices;
  an_idom_size : vsize (immediateDominators d) = numVertices;
  an_first : vertices d !! 0%nat = Some entry;
  an_entry : vertexIndices d !! entry = Some 0;
  an_index : ∀ v i, vertexIndices d !! v = Some i → i < n;
  an_table : ∀ i,
    i < n →
    ∃ v, vertices d !! N.to_nat i = Some v ∧ vertexIndices d !! v = Some i;
  an_idom : idom_final n (immediateDominators d);
  an_reach : ∀ v, reachable succ entry v → is_Some (vertexIndices d !! v)
}.

(** The analyzer after [operator[]] has inserted the unknown vertex [k]. *)
Definition with_index (k : Vertex) (d : Dominator) : Dominator :=
  mkDominator (vertices d) (<[k := 0]> (vertexIndices d))
    (immediateDominators d) (dominatorTree d).

(** The indices met when walking the [idom] array upwards from [j] until
    index [0], which is left out; the start comes first. *)
Inductive idom_walk (idomv : list N) : N → list N → Prop :=
| walk_entry : idom_walk idomv 0 []
| walk_step j k l :
    j ≠ 0 → idomv !! N.to_nat j = Some k → k < j → idom_walk idomv k l →
    idom_walk idomv j (j :: l).

(** The vertices stored at a list of indices. *)
Definition vertices_at (mv : list Vertex) (l : list N) (vs : list Vertex)
  : Prop :=
  Forall2 (fun k x => mv !! N.to_nat k = Some x) l vs.

(** ** The dominator tree, read off the array *)

(** The indices [i] in [[1, size)] with [idomv[i] = k], in increasing
    order. *)
Definition children_of (idomv : list N) (k : N) : list N :=
  N.of_nat <$>
    filter (fun i => idomv !! i = Some k) (seq 1 (length idomv - 1)).

(** ** The last slot of the vertex table *)

(** The vertex in the last slot of the table, if numbered between [st] and
    [st'], has no successor. *)
Definition last_is_leaf (succ : N → list N) (st st' : LT) : Prop :=
  ∀ i x, dfIdx st ≤ i < dfIdx st' → i + 1 = vsize (m_vertex st') →
         m_vertex st' !! N.to_nat i = Some x → succ x = [].

(** ** The predecessor sets *)

(** A [std::set<size_t>] is read in strictly increasing order. *)
Fixpoint ascending (l : list N) : Prop :=
  match l with
  | [] => True
  | x :: l' => Forall (N.lt x) l' ∧ ascending l'
  end.

(** Every recorded predecessor stands for an edge between two numbered
    vertices, and every set is kept in strictly increasing order. *)
Definition preds_sound (succ : N → list N) (st : LT) : Prop :=
  ∀ i ps, predecessors st !! N.to_nat i = Some ps →
    ascending ps
    ∧ ∀ p, p ∈ ps →
           p < dfIdx st ∧ i < dfIdx st
           ∧ ∃ x y, m_vertex st !! N.to_nat p = Some x
                    ∧ m_vertex st !! N.to_nat i = Some y ∧ y ∈ succ x.

(** The edge from [x] to [y] is recorded. *)
Definition edge_recorded (st : LT) (x y : Vertex) : Prop :=
  ∃ ix iy ps, m_vertexIndex st !! x = Some ix
              ∧ m_vertexIndex st !! y = Some iy
              ∧ predecessors st !! N.to_nat iy = Some ps ∧ ix ∈ ps.

(** The edges out of the vertices visited between [st] and [st'] are
    recorded. *)
Definition preds_complete (succ : N → list N) (st st' : LT) : Prop :=
  ∀ x y, x ∈ visited st' → x ∉ visited st → y ∈ succ x →
         edge_recorded st' x y.

(** ** Sizes *)

(** All the vectors of the construction have [n] elements. *)
Record sized (n : N) (st : LT) : Prop := {
  sz_vertex : vsize (m_vertex st) = n;
  sz_semi : vsize (semi st) = n;
  sz_parent : vsize (parent st) = n;
  sz_ancestor : vsize (ancestor st) = n;
  sz_label : vsize (label st) = n;
  sz_preds : vsize (predecessors st) = n;
  sz_bucket : vsize (bucket st) = n;
  sz_idom : vsize (idom st) = n
}.

(** ** The virtual forest *)

(** The chain of [ancestor] links from [v] up to the root [r] of its tree;
    [l] lists the vertices below the root, [v] first. *)
Inductive anc_path (anc : list N) : N → list N → N → Prop :=
| ap_root r : anc !! N.to_nat r = Some size_max → anc_path anc r [] r
| ap_step v u l r :
    anc !! N.to_nat v = Some u → u ≠ size_max → anc_path anc u l r →
    anc_path anc v (v :: l) r.

(** [b] is the label of a vertex of [l], and no label of a vertex of [l]
    has a smaller [semi] value. *)
Definition min_label (sem lab : list N) (l : list N) (b : N) : Prop :=
  (∃ y, y ∈ l ∧ lab !! N.to_nat y = Some b)
  ∧ ∀ y ly sy sb,
      y ∈ l → lab !! N.to_nat y = Some ly → sem !! N.to_nat ly = Some sy →
      sem !! N.to_nat b = Some sb → sb ≤ sy.

(** ** Slots that the search does not hand out *)

(** The slots from [n] on hold [x]. *)
Definition tail_is {A} (x : A) (n : N) (l : list A) : Prop :=
  ∀ i y, n ≤ i → l !! N.to_nat i = Some y → y = x.

(** The slots of [idom] from [n] on are in [st'] as they are in [st]. *)
Definition idom_tail (n : N) (st st' : LT) : Prop :=
  ∀ i, n ≤ i → idom st' !! N.to_nat i = idom st !! N.to_nat i.

(** Inside the two loops, [m_vertexIndex[*it]] inserts nothing but the
    value-initialised vertex of a slot that was never handed out. *)
Definition keys_inv (n m : N) (K : N → Prop) (st : LT) : Prop :=
  pass_inv n st
  ∧ tail_is default_vertex n (m_vertex st)
  ∧ vsize (m_vertex st) = m
  ∧ ∀ v i, m_vertexIndex st !! v = Some i →
           K v ∨ v = default_vertex ∧ i = 0 ∧ n < m.

(** The analyzer of the linear chain built with five slots, one more than
    the chain has vertices. *)
Definition chain_spare_dominator : Dominator :=
  mkDominator [vA; vB; vC; vD; default_vertex]
    (list_to_map [(vA, 0); (vB, 1); (vC, 2); (vD, 3); (default_vertex, 0)])
    [0; 0; 1; 2; size_max]
    (list_to_map [(0, [1]); (1, [2]); (2, [3]); (size_max, [4])]).

(** The state of the search on the chain with the virtual forest
    [3 → 2 → 1 → 0]. *)
Definition chain_linked : LT :=
  set_ancestor chain_searched [size_max; 0; 1; 2].

(** ** Dominance in the graph *)

(** [path succ a p b]: [p] lists the vertices of a path from [a] to [b],
    both ends included. *)
Inductive path (succ : N → list N) : N → list N → N → Prop :=
| path_end a : path succ a [a] a
| path_step a y p b :
    y ∈ succ a → path succ y p b → path succ a (a :: p) b.

(** [a] lies on every path from the entry to [b]. *)
Definition graph_dominates (succ : N → list N) (entry a b : N) : Prop :=
  ∀ p, path succ entry p b → a ∈ p.

(** A graph in which the value-initialised vertex is an inner vertex:
    [A→0, 0→B, 0→C, C→B, C→D]. *)
Definition fork : Vertex → list Vertex :=
  graph_of [(vA, [default_vertex]); (default_vertex, [vB; vC]);
            (vC, [vB; vD])].

(** The state of the construction on [fork] with six slots when the search
    has returned. *)
Definition fork_searched : LT :=
  mkLT [vA; default_vertex; vB; vC; vD; default_vertex]
    (list_to_map [(vA, 0); (default_vertex, 1); (vB, 2); (vC, 3); (vD, 4)])
    [0; 1; 2; 3; 4; size_max] [size_max; 0; 1; 1; 3; size_max]
    (replicate 6 size_max) [0; 1; 2; 3; 4; 0]
    (list_to_set [vA; default_vertex; vB; vC; vD])
    [[]; [0]; [1; 3]; [1]; [3]; []]
    (replicate 6 []) (replicate 6 size_max) 5.

(** * Properties *)

(** ** Reasoning about outcomes *)

Lemma bind_Ok {A B} (r : res A) (k : A → res B) (b : B) :
  bind r k = Ok b → ∃ a, r = Ok a ∧ k a = Ok b.
Proof. destruct r; simpl; try discriminate. eauto. Qed.

Tactic Notation "inv_bind" hyp(H) :=
  let a := fresh "x" in
  let E := fresh "E" in
  apply bind_Ok in H; destruct H as (a & E & H).

Tactic Notation "inv_bind" hyp(H) "as" ident(a) ident(E) :=
  apply bind_Ok in H; destruct H as (a & E & H).

Ltac inv_ok H := inversion H; subst; clear H.

Lemma foreach_cons {A S} (body : A → S → res S) x l st :
  foreach body (x :: l) st = (let* st' := body x st in foreach body l st').
Proof. reflexivity. Qed.

Lemma foreach_app {A S} (body : A → S → res S) l1 l2 st :
  foreach body (l1 ++ l2) st
  = (let* st' := foreach body l1 st in foreach body l2 st').
Proof.
  revert st. induction l1 as [|x l1 IH]; intros st; simpl; [reflexivity|].
  destruct (body x st); simpl; auto.
Qed.

(** A loop invariant for [foreach]. *)
Lemma foreach_inv {A S} (body : A → S → res S) (I : S → Prop) l :
  (∀ x st st', x ∈ l → I st → body x st = Ok st' → I st') →
  ∀ st st', I st → foreach body l st = Ok st' → I st'.
Proof.
  induction l as [|x l IH]; intros Hb st st' HI H; simpl in H.
  - inv_ok H. done.
  - inv_bind H. eapply IH; [|eapply Hb; [left|exact HI|eassumption]|exact H].
    intros y s s' Hy. apply Hb. by right.
Qed.

Lemma vget_Ok {A} (l : list A) i x :
  vget l i = Ok x ↔ l !! N.to_nat i = Some x.
Proof.
  unfold vget, vsize. split.
  - destruct (N.ltb_spec i (N.of_nat (length l))); [|discriminate].
    destruct (l !! N.to_nat i); [|discriminate]. by intros [= ->].
  - intros E. pose proof (lookup_lt_Some _ _ _ E) as Hlt.
    destruct (N.ltb_spec i (N.of_nat (length l))); [|lia]. by rewrite E.
Qed.

Lemma vset_Ok {A} (l l' : list A) i x :
  vset l i x = Ok l' ↔ i < vsize l ∧ l' = <[N.to_nat i := x]> l.
Proof.
  unfold vset. destruct (N.ltb_spec i (vsize l)); split.
  - by intros [= <-].
  - by intros [_ ->].
  - discriminate.
  - intros [? _]. lia.
Qed.

Lemma vset_lookup {A} (l l' : list A) i x j :
  vset l i x = Ok l' →
  l' !! N.to_nat j = if decide (j = i) then Some x else l !! N.to_nat j.
Proof.
  intros [Hi ->]%vset_Ok. unfold vsize in Hi. case_decide as Hj.
  - subst j. apply list_lookup_insert_eq. lia.
  - apply list_lookup_insert_ne. lia.
Qed.

Lemma vset_length {A} (l l' : list A) i x :
  vset l i x = Ok l' → length l' = length l.
Proof. intros [_ ->]%vset_Ok. apply length_insert. Qed.

(** ** The depth-first search *)

Lemma index_of_present k st i :
  m_vertexIndex st !! k = Some i → index_of k st = (st, i).
Proof.
  intros E. unfold index_of, map_index. rewrite E. by destruct st.
Qed.

Lemma set_insert_elem x y s : x ∈ set_insert y s ↔ x = y ∨ x ∈ s.
Proof.
  induction s as [|z s IH]; simpl.
  - set_solver.
  - destruct (N.ltb_spec y z); [set_solver|].
    destruct (N.eqb_spec y z); [set_solver|].
    rewrite elem_of_cons, IH. set_solver.
Qed.

Lemma dfs_ext_refl st : dfs_ext st st.
Proof. split; try done. intros i ps H. exists ps. done. Qed.

Lemma dfs_ext_trans st1 st2 st3 :
  dfs_ext st1 st2 → dfs_ext st2 st3 → dfs_ext st1 st3.
Proof.
  intros H12 H23. pose proof (de_dfIdx _ _ H12). pose proof (de_dfIdx _ _ H23).
  split.
  - lia.
  - rewrite (de_length _ _ H23). apply H12.
  - intros i Hi. rewrite (de_parent _ _ H23) by lia. by apply H12.
  - intros i ps Hps. destruct (de_preds _ _ H12 _ _ Hps) as (ps' & H1 & H2).
    destruct (de_preds _ _ H23 _ _ H1) as (ps'' & H3 & H4).
    exists ps''. split; [done|]. set_solver.
  - etrans; [apply H12|apply H23].
  - etrans; [apply H12|apply H23].
  - rewrite (de_ancestor _ _ H23). apply H12.
  - rewrite (de_bucket _ _ H23). apply H12.
  - rewrite (de_idom _ _ H23). apply H12.
Qed.

Lemma linked_ext st st' i :
  dfs_ext st st' → i < dfIdx st → linked st i → linked st' i.
Proof.
  intros Hext Hi (p & ps & H1 & H2 & H3 & H4).
  destruct (de_preds _ _ Hext _ _ H3) as (ps' & H5 & H6).
  exists p, ps'. rewrite (de_parent _ _ Hext) by done. set_solver.
Qed.

Lemma size_incr_small x : x < size_max → size_incr x = x + 1.
Proof.
  unfold size_incr, size_max, size_modulus. intros H. apply N.mod_small. lia.
Qed.

Lemma dfs_enter_spec v mv sm lb st :
  dfs_inv st → pre_parent st → v ∉ visited st →
  vset (m_vertex st) (dfIdx st) v = Ok mv →
  vset (semi st) (dfIdx st) (dfIdx st) = Ok sm →
  vset (label st) (dfIdx st) (dfIdx st) = Ok lb →
  dfs_inv (dfs_enter v mv sm lb st)
  ∧ dfs_ext st (dfs_enter v mv sm lb st)
  ∧ m_vertexIndex (dfs_enter v mv sm lb st) !! v = Some (dfIdx st)
  ∧ dfIdx (dfs_enter v mv sm lb st) = dfIdx st + 1.
Proof.
  intros Hinv Hpre Hv E E0 E1.
  pose proof E as [Hlt _]%vset_Ok.
  pose proof (di_size _ Hinv) as Hsz.
  assert (size_incr (dfIdx st) = dfIdx st + 1) as Hincr
    by (apply size_incr_small; lia).
  assert (m_vertexIndex st !! v = None) as Hnone.
  { destruct (m_vertexIndex st !! v) eqn:Ev; [|done].
    exfalso. apply Hv, (di_visited _ Hinv). eauto. }
  split; [|split; [|split]].
  - destruct Hinv as [Hb Hsz' Hslo Hshi Hlab Hidx Htab Hvis Hpr Hroot Hpar].
    split; simpl; rewrite ?Hincr.
    + unfold vsize in *. rewrite (vset_length _ _ _ _ E). lia.
    + unfold vsize in *. rewrite (vset_length _ _ _ _ E). lia.
    + intros i x Hi. rewrite (vset_lookup _ _ _ _ _ E0). case_decide.
      * by intros [= <-].
      * apply Hslo. lia.
    + intros i x Hi. rewrite (vset_lookup _ _ _ _ _ E0). case_decide; [lia|].
      apply Hshi. lia.
    + intros i x Hi. rewrite (vset_lookup _ _ _ _ _ E1). case_decide.
      * by intros [= <-].
      * apply Hlab. lia.
    + intros v' i. rewrite lookup_insert. case_decide.
      * intros [= <-]. split; [lia|]. rewrite (vset_lookup _ _ _ _ _ E).
        case_decide; congruence.
      * intros Hl. destruct (Hidx _ _ Hl) as [H1 H2]. split; [lia|].
        rewrite (vset_lookup _ _ _ _ _ E). case_decide; [lia|done].
    + intros i x Hi. rewrite (vset_lookup _ _ _ _ _ E). case_decide.
      * intros [= <-]. subst i. apply lookup_insert_eq.
      * intros Hl. assert (i < dfIdx st) as Hi' by lia.
        pose proof (Htab _ _ Hi' Hl) as Hx.
        rewrite lookup_insert_ne; [done|]. congruence.
    + intros v'. rewrite elem_of_union, elem_of_singleton, Hvis.
      rewrite lookup_insert. case_decide; naive_solver.
    + intros i ps p Hps Hp. pose proof (Hpr _ _ _ Hps Hp). lia.
    + done.
    + intros i p Hi. destruct (decide (i = dfIdx st)) as [->|Hne].
      * apply Hpre. lia.
      * apply Hpar. lia.
  - split; simpl; rewrite ?Hincr; try done.
    + lia.
    + apply (vset_length _ _ _ _ E).
    + intros i ps Hps. by exists ps.
    + by apply insert_subseteq.
    + set_solver.
  - simpl. apply lookup_insert_eq.
  - simpl. done.
Qed.

Lemma visit_parent_inv st par iv :
  dfs_inv st → iv < dfIdx st →
  vset (parent st) (dfIdx st) iv = Ok par →
  dfs_inv (set_parent st par) ∧ pre_parent (set_parent st par)
  ∧ dfs_ext st (set_parent st par).
Proof.
  intros Hinv Hiv E1. split; [|split].
  - destruct Hinv as [Hb Hsz Hslo Hshi Hlab Hidx Htab Hvis Hpr Hroot Hpar].
    split; simpl; try done.
    + intros p. rewrite <- (Nat2N.id 0), (vset_lookup _ _ _ _ _ E1).
      case_decide; [lia|]. apply Hroot.
    + intros i p Hi. rewrite (vset_lookup _ _ _ _ _ E1).
      case_decide; [lia|]. by apply Hpar.
  - intros _ p. simpl. rewrite (vset_lookup _ _ _ _ _ E1).
    case_decide; [|done]. by intros [= <-].
  - split; simpl; try done.
    + intros i Hi. rewrite (vset_lookup _ _ _ _ _ E1). case_decide; [lia|done].
    + intros i ps Hps. by exists ps.
Qed.

Section Search.
Variable successors : N → list N.

Lemma visit_successor_spec (rec : N → LT → res LT) :
  (∀ w st st', dfs_inv st → pre_parent st → rec w st = Ok st' →
               dfs_post successors w st st') →
  ∀ v w st st' iv,
    dfs_inv st → m_vertexIndex st !! v = Some iv →
    visit_successor rec v w st = Ok st' →
    visit_post successors w st st'.
Proof.
  intros Hrec v w st st' iv Hinv Hv H. unfold visit_successor in H.
  inv_bind H. rename x into s. apply vget_Ok in E.
  assert (s = size_max) as -> by (eapply (di_semi_hi _ Hinv); [|done]; lia).
  rewrite N.eqb_refl in H. inv_bind H. rename x into st1.
  rewrite (index_of_present _ _ _ Hv) in E0. inv_bind E0. rename x into par.
  pose proof (di_index _ Hinv _ _ Hv) as [Hiv _].
  set (stp := set_parent st par) in *.
  destruct (visit_parent_inv _ _ _ Hinv Hiv E1) as (Hinvp & Hprep & Hextp).
  pose proof (Hrec _ _ _ Hinvp Hprep E0) as Hpost.
  pose proof (dp_inv _ _ _ _ Hpost) as Hinv1.
  pose proof (dp_ext _ _ _ _ Hpost) as Hext1.
  pose proof (dp_visited _ _ _ _ Hpost) as Hw1.
  apply (di_visited _ Hinv1) in Hw1 as [iw Hiw].
  assert (m_vertexIndex st1 !! v = Some iv) as Hv1.
  { eapply lookup_weaken; [exact Hv|].
    etrans; [apply Hextp|apply Hext1]. }
  rewrite (index_of_present _ _ _ Hiw), (index_of_present _ _ _ Hv1) in H.
  inv_bind H. rename x into ps. inv_bind H. rename x into preds'. inv_ok H.
  apply vget_Ok in E2.
  set (st' := set_predecessors st1 preds') in *.
  assert (dfs_ext st1 st') as Hext'.
  { split; simpl; try done.
    intros i qs Hqs. rewrite (vset_lookup _ _ _ _ _ E3). case_decide.
    - subst i. exists (set_insert iv ps). split; [done|].
      intros q Hq. apply set_insert_elem. right. congruence.
    - by exists qs. }
  pose proof (de_dfIdx _ _ Hext1) as Hd1. simpl in Hd1.
  split.
  - destruct Hinv1 as [Hb Hsz Hslo Hshi Hlab Hidx Htab Hvis Hpr Hroot Hpar].
    split; simpl; try done.
    intros i qs p. rewrite (vset_lookup _ _ _ _ _ E3). case_decide.
    + intros [= <-] [->|Hp]%set_insert_elem; [lia|]. eapply Hpr; eauto.
    + apply Hpr.
  - eapply dfs_ext_trans; [exact Hextp|]. eapply dfs_ext_trans; eauto.
  - intros i Hi. simpl in Hi.
    destruct (decide (w ∈ visited stp)) as [Hold|Hnew].
    { rewrite (dp_old _ _ _ _ Hpost Hold) in Hi. simpl in Hi. lia. }
    pose proof (dp_new _ _ _ _ Hpost Hnew) as Hiw'. simpl in Hiw'.
    assert (iw = dfIdx st) as -> by congruence.
    destruct (decide (i = dfIdx st)) as [->|Hne].
    + exists iv, (set_insert iv ps). simpl.
      pose proof (dp_slot _ _ _ _ Hpost) as Hs. simpl in Hs. rewrite Hs.
      rewrite (vset_lookup _ _ _ _ _ E1), (vset_lookup _ _ _ _ _ E3).
      rewrite !decide_True by done. repeat split; try done.
      apply set_insert_elem. by left.
    + eapply linked_ext; [exact Hext'| |].
      * lia.
      * apply (dp_linked _ _ _ _ Hpost). simpl. lia.
  - simpl. apply (di_visited _ Hinv1). eauto.
  - simpl. intros x y Hx Hnx Hy. eapply (dp_closed _ _ _ _ Hpost); eauto.
Qed.

Lemma visit_loop_spec (rec : N → LT → res LT) v iv :
  (∀ w st st', dfs_inv st → pre_parent st → rec w st = Ok st' →
               dfs_post successors w st st') →
  ∀ ws st st',
    dfs_inv st → m_vertexIndex st !! v = Some iv →
    foreach (visit_successor rec v) ws st = Ok st' →
    dfs_inv st' ∧ dfs_ext st st'
    ∧ (∀ i, dfIdx st ≤ i < dfIdx st' → linked st' i)
    ∧ (∀ w, w ∈ ws → w ∈ visited st')
    ∧ (∀ x y, x ∈ visited st' → x ∉ visited st → y ∈ successors x →
              y ∈ visited st').
Proof.
  intros Hrec ws. induction ws as [|w ws IH]; intros st st' Hinv Hv H.
  - simpl in H. inv_ok H. split; [done|]. split; [apply dfs_ext_refl|].
    split; [intros; lia|]. split; [intros w Hw; inversion Hw|]. done.
  - simpl in H. inv_bind H. rename x into st1.
    pose proof (visit_successor_spec rec Hrec _ _ _ _ _ Hinv Hv E) as Hp.
    pose proof (vp_ext _ _ _ _ Hp) as Hext1.
    assert (m_vertexIndex st1 !! v = Some iv) as Hv1.
    { eapply lookup_weaken; [exact Hv|apply Hext1]. }
    destruct (IH _ _ (vp_inv _ _ _ _ Hp) Hv1 H) as (Hi' & He' & Hl' & Hw' & Hc').
    split; [done|]. split; [by eapply dfs_ext_trans|].
    split; [|split].
    + intros i Hi. destruct (decide (i < dfIdx st1)).
      * eapply linked_ext; [exact He'|done|].
        apply (vp_linked _ _ _ _ Hp). lia.
      * apply Hl'. lia.
    + intros w' [->|Hin]%elem_of_cons; [|by apply Hw'].
      apply (de_visited _ _ He'), (vp_visited _ _ _ _ Hp).
    + intros x y Hx Hnx Hy. destruct (decide (x ∈ visited st1)).
      * apply (de_visited _ _ He'). eapply (vp_closed _ _ _ _ Hp); eauto.
      * eapply Hc'; eauto.
Qed.

Lemma dfs_spec fuel :
  ∀ v st st', dfs_inv st → pre_parent st →
              dfs successors fuel v st = Ok st' →
              dfs_post successors v st st'.
Proof.
  induction fuel as [|f IH]; intros v st st' Hinv Hpre H; [discriminate|].
  simpl in H. destruct (decide (v ∈ visited st)) as [Hv|Hv].
  { inv_ok H. split; try done.
    - apply dfs_ext_refl.
    - intros; lia. }
  inv_bind H as mv Emv. inv_bind H as sm Esm. inv_bind H as lb Elb.
  simpl in *.
  match type of H with
  | foreach _ _ ?s = _ => change s with (dfs_enter v mv sm lb st) in H
  end.
  destruct (dfs_enter_spec _ _ _ _ _ Hinv Hpre Hv Emv Esm Elb)
    as (Hinvb & Hextb & Hvb & Hdfb).
  destruct (visit_loop_spec _ v _ (IH) _ _ _ Hinvb Hvb H)
    as (Hi' & He' & Hl' & Hw' & Hc').
  split.
  - done.
  - by eapply dfs_ext_trans.
  - rewrite (de_parent _ _ He'); [done|]. lia.
  - intros i Hi. apply Hl'. lia.
  - apply (de_visited _ _ He'). simpl. set_solver.
  - done.
  - intros _. eapply lookup_weaken; [exact Hvb|apply He'].
  - intros x y Hx Hnx Hy. destruct (decide (x = v)) as [->|Hne].
    + by apply Hw'.
    + eapply Hc'; eauto. simpl. set_solver.
Qed.

End Search.

(** ** The reverse loop and step 4 *)

Lemma array_le_vset n l l' i x :
  array_le n l → vset l i x = Ok l' → x ≤ i → array_le n l'.
Proof.
  intros Hl E Hx j y Hj. rewrite (vset_lookup _ _ _ _ _ E).
  case_decide; [intros [= <-]; lia|by apply Hl].
Qed.

Lemma forest_vset n l l' i x :
  forest n l → vset l i x = Ok l' → x = size_max ∨ x < i → forest n l'.
Proof.
  intros Hl E Hx j y Hj. rewrite (vset_lookup _ _ _ _ _ E).
  case_decide; [intros [= <-]; by subst|by apply Hl].
Qed.

Lemma compressPath_spec n sem fuel :
  ∀ v anc lab anc' lab',
    forest n anc → array_le n lab → v < n →
    compressPath fuel anc lab sem v = Ok (anc', lab') →
    forest n anc' ∧ array_le n lab'.
Proof.
  induction fuel as [|f IH]; intros v anc lab anc' lab' Ha Hl Hv H;
    [discriminate|].
  simpl in H. inv_bind H as av Eav. apply vget_Ok in Eav.
  destruct (N.eqb_spec av size_max) as [|Hav]; [discriminate|].
  destruct (Ha _ _ Hv Eav) as [|Hlt]; [done|].
  inv_bind H as au Eau.
  destruct (N.eqb_spec au size_max) as [|Hau]; [by inv_ok H|].
  inv_bind H as r Er. destruct r as [anc1 lab1].
  assert (av < n) as Hav' by lia.
  destruct (IH _ _ _ _ _ Ha Hl Hav' Er) as [Ha1 Hl1].
  inv_bind H as lu Elu. inv_bind H as slu Eslu.
  inv_bind H as lv Elv. inv_bind H as slv Eslv.
  inv_bind H as lab2 Elab2. inv_bind H as au' Eau'.
  inv_bind H as anc2 Eanc2. inv_ok H.
  apply vget_Ok in Elu, Eau'.
  pose proof (Hl1 _ _ Hav' Elu).
  split.
  - eapply forest_vset; [exact Ha1|exact Eanc2|].
    destruct (Ha1 av au' Hav' Eau'); [by left|right; lia].
  - destruct (slu <? slv); [|by inv_ok Elab2].
    eapply array_le_vset; [exact Hl1|exact Elab2|lia].
Qed.

Lemma eval_spec n fuel v st st' u :
  forest n (ancestor st) → array_le n (label st) → v < n →
  eval fuel v st = Ok (st', u) →
  ∃ anc lab, st' = set_label (set_ancestor st anc) lab
             ∧ forest n anc ∧ array_le n lab ∧ u ≤ v.
Proof.
  intros Ha Hl Hv H. unfold eval in H. inv_bind H as av Eav.
  destruct (N.eqb_spec av size_max) as [|Hav].
  - inv_ok H. exists (ancestor st'), (label st'). destruct st'. simpl.
    repeat split; try done; lia.
  - inv_bind H as r Er. destruct r as [anc lab]. inv_bind H as lv Elv.
    inv_ok H. exists anc, lab.
    destruct (compressPath_spec _ _ _ _ _ _ _ _ Ha Hl Hv Er) as [Ha' Hl'].
    repeat split; try done. apply vget_Ok in Elv. by apply (Hl' v).
Qed.

Lemma foreach_each {A S} (body : A → S → res S) (I : S → Prop)
    (Q : A → S → Prop) l :
  (∀ x st st', x ∈ l → I st → body x st = Ok st' → I st' ∧ Q x st') →
  (∀ x y st st', y ∈ l → I st → Q x st → body y st = Ok st' → Q x st') →
  ∀ st st', I st → foreach body l st = Ok st' →
            I st' ∧ ∀ x, x ∈ l → Q x st'.
Proof.
  induction l as [|y l IH]; intros Hstep Hkeep st st' HI H; simpl in H.
  - inv_ok H. split; [done|]. intros x Hx. inversion Hx.
  - inv_bind H as st1 E1.
    destruct (Hstep y st st1 ltac:(left) HI E1) as [HI1 HQ1].
    assert (∀ s s', I s → foreach body l s = Ok s' →
                    I s' ∧ (∀ x, x ∈ l → Q x s')
                    ∧ ∀ x, Q x s → Q x s') as Hgen.
    { clear -Hstep Hkeep. induction l as [|z l IHl]; intros s s' Hs Hf; simpl in Hf.
      - inv_ok Hf. repeat split; try done. intros x Hx. inversion Hx.
      - inv_bind Hf as s1 Es1.
        destruct (Hstep z s s1 ltac:(right; left) Hs Es1) as [Hs1 Hq1].
        destruct (IHl) with (s := s1) (s' := s') as (G1 & G2 & G3); try done.
        + intros x t t' Hx. apply Hstep.
          apply elem_of_cons in Hx as [->|Hx]; [left|right; by right].
        + intros x y' t t' Hy. apply Hkeep.
          apply elem_of_cons in Hy as [->|Hy]; [left|right; by right].
        + split; [done|]. split.
          * intros x [->|Hx]%elem_of_cons; [by apply G3|by apply G2].
          * intros x Hx. apply G3. eapply Hkeep; [|exact Hs|exact Hx|exact Es1].
            right; left. }
    destruct (Hgen _ _ HI1 H) as (G1 & G2 & G3).
    split; [done|]. intros x [->|Hx]%elem_of_cons; [by apply G3|by apply G2].
Qed.

Lemma pass_ext_refl st : pass_ext st st.
Proof. split; try done. intros j b H. by exists b. Qed.

Lemma pass_ext_trans st1 st2 st3 :
  pass_ext st1 st2 → pass_ext st2 st3 → pass_ext st1 st3.
Proof.
  intros H12 H23. split.
  - rewrite (pe_vertex _ _ H23). apply H12.
  - rewrite (pe_dfIdx _ _ H23). apply H12.
  - etrans; [apply H12|apply H23].
  - intros v Hv Hd. by apply (pe_idom _ _ H23), (pe_idom _ _ H12).
  - rewrite (pe_idom_length _ _ H23). apply H12.
  - intros j b Hb. destruct (pe_bucket _ _ H12 _ _ Hb) as (b' & H1 & H2).
    destruct (pe_bucket _ _ H23 _ _ H1) as (b'' & H3 & H4).
    exists b''. split; [done|]. set_solver.
Qed.

Lemma pass_inv_forest n st anc lab :
  pass_inv n st → forest n anc → array_le n lab →
  pass_inv n (set_label (set_ancestor st anc) lab).
Proof. intros [] Ha Hl. split; try done. Qed.

Lemma pass_inv_semi n st sm :
  pass_inv n st → array_le n sm → pass_inv n (set_semi st sm).
Proof. intros [] Hs. split; try done. Qed.

Lemma bucket_step_spec n fuel w v st st' :
  pass_inv n st → v < n → w ≤ v → (v ≠ 0 → w < v) →
  bucket_step fuel w v st = Ok st' →
  pass_inv n st' ∧ pass_ext st st' ∧ bucket st' = bucket st
  ∧ (v ≠ 0 → idom_done (idom st') v).
Proof.
  intros Hinv Hv Hwv Hwv' H. unfold bucket_step in H.
  inv_bind H as r Er. destruct r as [st1 u].
  destruct (eval_spec n _ _ _ _ _ (pi_ancestor _ _ Hinv) (pi_label _ _ Hinv)
              Hv Er) as (anc & lab & -> & Ha & Hl & Hu).
  simpl in H. inv_bind H as su Esu. inv_bind H as sv Esv.
  inv_bind H as id Eid. inv_ok H. apply vget_Ok in Esu, Esv.
  assert (v ≠ 0 → (if su <? sv then u else w) < v) as Hval.
  { intros Hv0. destruct (N.ltb_spec su sv); [|by apply Hwv'].
    destruct (decide (u = v)) as [->|]; [|lia].
    rewrite Esu in Esv. inv_ok Esv. lia. }
  assert (v ≠ 0 → idom_done id v) as Hdone.
  { intros Hv0. eexists. rewrite (vset_lookup _ _ _ _ _ Eid).
    rewrite decide_True by done. split; [done|]. by apply Hval. }
  split; [|split; [|split]]; simpl; try done.
  - destruct (pass_inv_forest _ _ _ _ Hinv Ha Hl). split; done.
  - split; simpl; try done.
    + intros x Hx (j & Hj & Hlt). destruct (decide (x = v)) as [->|Hne].
      * by apply Hdone.
      * exists j. rewrite (vset_lookup _ _ _ _ _ Eid).
        by rewrite decide_False.
    + apply (vset_length _ _ _ _ Eid).
    + intros j b Hb. by exists b.
Qed.

Lemma semi_step_spec n fuel w v st st' :
  pass_inv n st → v < n → w < n →
  semi_step fuel w v st = Ok st' →
  pass_inv n st' ∧ pass_ext st st' ∧ bucket st' = bucket st
  ∧ (∀ x, semi st !! N.to_nat w = Some x →
          ∃ x', semi st' !! N.to_nat w = Some x' ∧ x' ≤ x)
  ∧ (∃ x', semi st' !! N.to_nat w = Some x' ∧ x' ≤ v).
Proof.
  intros Hinv Hv Hw H. unfold semi_step in H.
  inv_bind H as r Er. destruct r as [st1 u].
  destruct (eval_spec n _ _ _ _ _ (pi_ancestor _ _ Hinv) (pi_label _ _ Hinv)
              Hv Er) as (anc & lab & -> & Ha & Hl & Hu).
  simpl in H. inv_bind H as su Esu. inv_bind H as sw Esw.
  apply vget_Ok in Esu, Esw.
  assert (su ≤ u) as Hsu by (apply (pi_semi _ _ Hinv u); [lia|done]).
  assert (sw ≤ w) as Hsw by (by apply (pi_semi _ _ Hinv w)).
  pose proof (pass_inv_forest _ _ _ _ Hinv Ha Hl) as Hinv1.
  assert (pass_ext st (set_label (set_ancestor st anc) lab)) as Hext1.
  { split; simpl; try done. intros j b Hb. by exists b. }
  destruct (N.ltb_spec su sw).
  - inv_bind H as sm Esm. inv_ok H. simpl.
    split; [|split; [|split; [|split]]]; try done.
    + apply pass_inv_semi; [done|].
      eapply array_le_vset; [exact (pi_semi _ _ Hinv)|exact Esm|lia].
    + split; simpl; try done. intros j b Hb. by exists b.
    + intros x Hx. exists su. rewrite (vset_lookup _ _ _ _ _ Esm).
      rewrite decide_True by done. split; [done|]. rewrite Esw in Hx.
      inv_ok Hx. lia.
    + exists su. rewrite (vset_lookup _ _ _ _ _ Esm).
      rewrite decide_True by done. split; [done|lia].
  - inv_ok H. simpl. split; [|split; [|split; [|split]]]; try done.
    + intros x Hx. exists x. split; [done|lia].
    + exists sw. split; [done|lia].
Qed.

Lemma bucket_loop_spec n fuel w bw st st' :
  pass_inv n st →
  (∀ v, v ∈ bw → v < n ∧ w ≤ v ∧ (v ≠ 0 → w < v)) →
  foreach (bucket_step fuel w) bw st = Ok st' →
  pass_inv n st' ∧ pass_ext st st' ∧ bucket st' = bucket st
  ∧ ∀ v, v ∈ bw → v ≠ 0 → idom_done (idom st') v.
Proof.
  intros Hinv Hbw H.
  destruct (foreach_each (bucket_step fuel w)
              (fun s => pass_inv n s ∧ pass_ext st s ∧ bucket s = bucket st)
              (fun v s => v ≠ 0 → idom_done (idom s) v) bw) with st st'
    as ((G1 & G2 & G3) & G4); try done.
  - intros x s s' Hx (I1 & I2 & I3) E. destruct (Hbw _ Hx) as (B1 & B2 & B3).
    destruct (bucket_step_spec _ _ _ _ _ _ I1 B1 B2 B3 E) as (S1 & S2 & S3 & S4).
    split; [|done]. split; [done|]. split; [by eapply pass_ext_trans|congruence].
  - intros x y s s' Hy (I1 & I2 & I3) HQ E Hx0.
    destruct (Hbw _ Hy) as (B1 & B2 & B3).
    destruct (bucket_step_spec _ _ _ _ _ _ I1 B1 B2 B3 E) as (S1 & S2 & S3 & S4).
    apply (pe_idom _ _ S2); auto.
  - split; [done|]. split; [apply pass_ext_refl|done].
Qed.

Lemma semi_loop_spec n fuel w pw st st' :
  pass_inv n st → w < n → (∀ v, v ∈ pw → v < n) →
  foreach (semi_step fuel w) pw st = Ok st' →
  pass_inv n st' ∧ pass_ext st st' ∧ bucket st' = bucket st
  ∧ ∀ v, v ∈ pw → ∃ x, semi st' !! N.to_nat w = Some x ∧ x ≤ v.
Proof.
  intros Hinv Hw Hpw H.
  destruct (foreach_each (semi_step fuel w)
              (fun s => pass_inv n s ∧ pass_ext st s ∧ bucket s = bucket st)
              (fun v s => ∃ x, semi s !! N.to_nat w = Some x ∧ x ≤ v) pw)
    with st st' as ((G1 & G2 & G3) & G4); try done.
  - intros x s s' Hx (I1 & I2 & I3) E.
    destruct (semi_step_spec _ _ _ _ _ _ I1 (Hpw _ Hx) Hw E)
      as (S1 & S2 & S3 & S4 & S5).
    split; [|done]. split; [done|]. split; [by eapply pass_ext_trans|congruence].
  - intros x y s s' Hy (I1 & I2 & I3) (x0 & HQ & Hle) E.
    destruct (semi_step_spec _ _ _ _ _ _ I1 (Hpw _ Hy) Hw E)
      as (S1 & S2 & S3 & S4 & S5).
    destruct (S4 _ HQ) as (x' & Hx' & Hle'). exists x'. split; [done|lia].
  - split; [done|]. split; [apply pass_ext_refl|done].
Qed.

Lemma process_index_spec n fuel w st st' :
  pass_inv n st → w < n →
  process_index fuel w st = Ok st' →
  pass_inv n st' ∧ pass_ext st st'
  ∧ (∀ b v, bucket st !! N.to_nat w = Some b → v ∈ b → v ≠ 0 →
            idom_done (idom st') v)
  ∧ (w ≠ 0 → ∃ j b, j < w ∧ bucket st' !! N.to_nat j = Some b ∧ w ∈ b).
Proof.
  intros Hinv Hw H. unfold process_index in H.
  inv_bind H as bw Ebw. apply vget_Ok in Ebw.
  inv_bind H as st1 Est1.
  destruct (bucket_loop_spec n _ _ _ _ _ Hinv
              (fun v => pi_bucket _ _ Hinv w bw v Ebw) Est1)
    as (Hinv1 & Hext1 & Hb1 & Hdone1).
  inv_bind H as pw Epw. apply vget_Ok in Epw.
  inv_bind H as st2 Est2.
  destruct (semi_loop_spec n _ _ _ _ _ Hinv1 Hw
              (fun v => pi_preds _ _ Hinv1 w pw v Epw) Est2)
    as (Hinv2 & Hext2 & Hb2 & Hsemi2).
  inv_bind H as sw Esw. apply vget_Ok in Esw.
  inv_bind H as bs Ebs. apply vget_Ok in Ebs.
  inv_bind H as bk Ebk. simpl in H.
  inv_bind H as p Ep. apply vget_Ok in Ep. simpl in Ep.
  unfold link in H. inv_bind H as anc Eanc. inv_ok H. simpl in Eanc.
  assert (sw ≤ w) as Hsw by (by apply (pi_semi _ _ Hinv2 w)).
  assert (w ≠ 0 → sw < w) as Hsw'.
  { intros Hw0. destruct (pi_linked _ _ Hinv1 w) as (q & ps & Q1 & Q2 & Q3 & Q4);
      [lia|]. rewrite Epw in Q3. inv_ok Q3.
    destruct (Hsemi2 _ Q4) as (x & Hx & Hle). rewrite Esw in Hx. inv_ok Hx. lia. }
  assert (p = size_max ∨ p < w) as Hp.
  { destruct (decide (w = 0)) as [->|Hw0].
    - left. by apply (pi_root _ _ Hinv2).
    - right. destruct (pi_linked _ _ Hinv2 w) as (q & ps & Q1 & Q2 & _); [lia|].
      rewrite Ep in Q1. by inv_ok Q1. }
  assert (pass_ext st2 (set_ancestor (set_bucket st2 bk) anc)) as Hext3.
  { split; simpl; try done. intros j b Hb.
    rewrite (vset_lookup _ _ _ _ _ Ebk). case_decide.
    - subst j. rewrite Ebs in Hb. inv_ok Hb. exists (b ++ [w]).
      split; [done|]. set_solver.
    - by exists b. }
  split; [|split; [|split]].
  - destruct Hinv2 as [P1 P2 P3 P4 P5 P6 P7 P8 P9 P10].
    split; simpl; try done.
    + eapply forest_vset; [exact P4|exact Eanc|done].
    + intros j b v. rewrite (vset_lookup _ _ _ _ _ Ebk). case_decide.
      * subst j. intros [= <-] [Hv|Hv]%elem_of_app; [by eapply P5|].
        apply list_elem_of_singleton in Hv as ->. done.
      * apply P5.
  - eapply pass_ext_trans; [exact Hext1|]. by eapply pass_ext_trans.
  - intros b v Hb Hv Hv0. rewrite Ebw in Hb. inv_ok Hb.
    apply (pe_idom _ _ Hext3), (pe_idom _ _ Hext2); auto.
  - intros Hw0. exists sw, (bs ++ [w]). simpl.
    rewrite (vset_lookup _ _ _ _ _ Ebk), decide_True by done.
    split; [by apply Hsw'|]. split; [done|]. set_solver.
Qed.

Lemma progress_step n fuel w st st' :
  pass_inv n st → w < n → progress n (w + 1) st →
  process_index fuel w st = Ok st' →
  pass_inv n st' ∧ pass_ext st st' ∧ progress n w st'.
Proof.
  intros Hinv Hw Hprog H.
  destruct (process_index_spec _ _ _ _ _ Hinv Hw H) as (G1 & G2 & G3 & G4).
  split; [done|]. split; [done|]. intros v Hv Hv0.
  destruct (decide (v = w)) as [->|Hne]; [right; by apply G4|].
  destruct (Hprog v) as [Hd|(j & b & Hj & Hb & Hin)]; [lia|done| |].
  - left. by apply (pe_idom _ _ G2).
  - destruct (decide (j = w)) as [->|Hjw].
    + left. eapply G3; eauto.
    + right. destruct (pe_bucket _ _ G2 _ _ Hb) as (b' & Hb' & Hsub).
      exists j, b'. split; [lia|]. split; [done|]. set_solver.
Qed.

Lemma index_of_spec n it st st0 w :
  pass_inv n st → index_of it st = (st0, w) →
  pass_inv n st0 ∧ pass_ext st st0 ∧ w < n
  ∧ m_vertexIndex st0 !! it = Some w ∧ idom st0 = idom st.
Proof.
  intros Hinv. unfold index_of, map_index.
  destruct (m_vertexIndex st !! it) as [i|] eqn:E; intros [= <- <-].
  - replace (set_m_vertexIndex st (m_vertexIndex st)) with st by by destruct st.
    split; [done|]. split; [apply pass_ext_refl|].
    split; [by eapply (pi_index _ _ Hinv)|done].
  - pose proof (pi_pos _ _ Hinv).
    split; [|split; [|split; [|split]]]; simpl.
    + destruct Hinv as [P1 P2 P3 P4 P5 P6 P7 P8 P9 P10].
      split; simpl; try done.
      * intros v i. rewrite lookup_insert. case_decide.
        -- by intros [= <-].
        -- apply P9.
      * intros i Hi. destruct (P10 _ Hi) as (v & Hv1 & Hv2). exists v.
        split; [done|]. rewrite lookup_insert_ne; [done|]. congruence.
    + split; simpl; try done.
      * by apply insert_subseteq.
      * intros j b Hb. by exists b.
    + done.
    + apply lookup_insert_eq.
    + done.
Qed.

Lemma process_vertex_spec n fuel it st st' :
  pass_inv n st → process_vertex fuel it st = Ok st' →
  pass_inv n st' ∧ pass_ext st st'.
Proof.
  intros Hinv H. unfold process_vertex in H.
  destruct (index_of it st) as [st0 w] eqn:E.
  destruct (index_of_spec _ _ _ _ _ Hinv E) as (G1 & G2 & G3 & _).
  destruct (process_index_spec _ _ _ _ _ G1 G3 H) as (G4 & G5 & _).
  split; [done|]. by eapply pass_ext_trans.
Qed.

Lemma process_vertex_assigned n fuel i it st st' :
  pass_inv n st → i < n → m_vertex st !! N.to_nat i = Some it →
  progress n (i + 1) st →
  process_vertex fuel it st = Ok st' →
  pass_inv n st' ∧ pass_ext st st' ∧ progress n i st'.
Proof.
  intros Hinv Hi Hit Hprog H. unfold process_vertex in H.
  destruct (pi_table _ _ Hinv _ Hi) as (v & Hv1 & Hv2).
  rewrite Hit in Hv1. inv_ok Hv1.
  rewrite (index_of_present _ _ _ Hv2) in H.
  by eapply progress_step.
Qed.

Lemma pass_assigned n fuel k :
  (k ≤ N.to_nat n)%nat →
  ∀ st st',
    pass_inv n st → progress n (N.of_nat k) st →
    foreach (process_vertex fuel) (rev (take k (m_vertex st))) st = Ok st' →
    pass_inv n st' ∧ pass_ext st st' ∧ progress n 0 st'.
Proof.
  induction k as [|k IH]; intros Hk st st' Hinv Hprog H.
  - rewrite take_0 in H. simpl in H. inv_ok H.
    split; [done|]. split; [apply pass_ext_refl|done].
  - destruct (pi_table _ _ Hinv (N.of_nat k)) as (v & Hv1 & Hv2); [lia|].
    rewrite Nat2N.id in Hv1.
    rewrite (take_S_r _ _ _ Hv1), rev_unit, foreach_cons in H.
    inv_bind H as st1 E1.
    destruct (process_vertex_assigned n fuel (N.of_nat k) v st st1)
      as (G1 & G2 & G3); try done.
    + lia.
    + by rewrite Nat2N.id.
    + by replace (N.of_nat k + 1) with (N.of_nat (S k)) by lia.
    + rewrite <- (pe_vertex _ _ G2) in H.
      destruct (IH ltac:(lia) _ _ G1 G3 H) as (G4 & G5 & G6).
      split; [done|]. split; [by eapply pass_ext_trans|done].
Qed.

Lemma semi_pass_spec n fuel st st' :
  pass_inv n st → semi_pass fuel st = Ok st' →
  pass_inv n st' ∧ pass_ext st st' ∧ progress n 0 st'.
Proof.
  intros Hinv H. unfold semi_pass in H.
  rewrite <- (take_drop (N.to_nat n) (m_vertex st)) in H.
  rewrite rev_app_distr, foreach_app in H. inv_bind H as st1 E1.
  assert (pass_inv n st1 ∧ pass_ext st st1) as [Hinv1 Hext1].
  { eapply (foreach_inv (process_vertex fuel)
              (fun s => pass_inv n s ∧ pass_ext st s)); [| |exact E1].
    - intros x s s' _ [I1 I2] E.
      destruct (process_vertex_spec _ _ _ _ _ I1 E) as [G1 G2].
      split; [done|]. by eapply pass_ext_trans.
    - split; [done|apply pass_ext_refl]. }
  rewrite <- (pe_vertex _ _ Hext1) in H.
  destruct (pass_assigned n fuel (N.to_nat n) ltac:(lia) st1 st')
    as (G1 & G2 & G3); try done.
  - intros v Hv. lia.
  - split; [done|]. split; [by eapply pass_ext_trans|done].
Qed.

Lemma fixup_vertex_spec n it st st' :
  pass_inv n st → idom_final n (idom st) →
  fixup_vertex it st = Ok st' →
  pass_inv n st' ∧ pass_ext st st' ∧ idom_final n (idom st').
Proof.
  intros Hinv [Hf0 Hf] H. unfold fixup_vertex in H.
  destruct (index_of it st) as [st0 w] eqn:E.
  destruct (index_of_spec _ _ _ _ _ Hinv E) as (G1 & G2 & G3 & _ & G4).
  rewrite !G4 in H.
  inv_bind H as iw Eiw. inv_bind H as sw Esw.
  apply vget_Ok in Eiw.
  destruct (iw =? sw).
  { inv_ok H. rewrite G4. done. }
  inv_bind H as iiw Eiiw. inv_bind H as id Eid. inv_ok H.
  apply vget_Ok in Eiiw.
  assert (w ≠ 0 → iiw < w) as Hlt.
  { intros Hw0. destruct (Hf w) as (j & Hj & Hjw); [lia|].
    rewrite Eiw in Hj. inv_ok Hj.
    destruct (decide (j = 0)) as [->|Hj0].
    - change (N.to_nat 0) with 0%nat in Eiiw. rewrite Hf0 in Eiiw.
      inv_ok Eiiw. lia.
    - destruct (Hf j) as (j' & Hj' & Hlt'); [lia|].
      rewrite Eiiw in Hj'. inv_ok Hj'. lia. }
  assert (∀ v, v ≠ 0 → idom_done (idom st) v → idom_done id v) as Hkeep.
  { intros v Hv0 (j & Hj & Hjv). destruct (decide (v = w)) as [->|Hne].
    - exists iiw. rewrite (vset_lookup _ _ _ _ _ Eid), decide_True by done.
      split; [done|]. by apply Hlt.
    - exists j. by rewrite (vset_lookup _ _ _ _ _ Eid), decide_False. }
  split; [|split].
  - destruct G1 as [P1 P2 P3 P4 P5 P6 P7 P8 P9 P10]. split; done.
  - eapply pass_ext_trans; [exact G2|]. split; simpl; try done.
    + rewrite G4. done.
    + rewrite G4. apply (vset_length _ _ _ _ Eid).
    + intros j b Hb. by exists b.
  - simpl. split.
    + rewrite <- (Nat2N.id 0), (vset_lookup _ _ _ _ _ Eid). simpl.
      case_decide; [|done]. subst w. change (N.of_nat 0) with 0 in *.
      change (N.to_nat 0) with 0%nat in Eiw. rewrite Hf0 in Eiw.
      inv_ok Eiw. change (N.to_nat 0) with 0%nat in Eiiw.
      by rewrite Hf0 in Eiiw.
    + intros i Hi. apply Hkeep; [lia|]. by apply Hf.
Qed.

Lemma fixup_pass_spec n st st' :
  pass_inv n st → progress n 0 st →
  fixup_pass st = Ok st' →
  pass_inv n st' ∧ pass_ext st st' ∧ idom_final n (idom st').
Proof.
  intros Hinv Hprog H. unfold fixup_pass in H. inv_bind H as id Eid.
  simpl in H.
  set (st1 := set_idom st id) in *.
  assert (pass_inv n st1) as Hinv1.
  { destruct Hinv as [P1 P2 P3 P4 P5 P6 P7 P8 P9 P10]. split; done. }
  assert (∀ v, v ≠ 0 → idom_done (idom st) v → idom_done id v) as Hkeep.
  { intros v Hv0 (j & Hj & Hjv). exists j.
    by rewrite (vset_lookup _ _ _ _ _ Eid), decide_False. }
  assert (pass_ext st st1) as Hext1.
  { split; simpl; try done.
    - apply (vset_length _ _ _ _ Eid).
    - intros j b Hb. by exists b. }
  assert (idom_final n (idom st1)) as Hfin1.
  { simpl. split.
    - rewrite <- (Nat2N.id 0), (vset_lookup _ _ _ _ _ Eid). done.
    - intros i Hi. apply Hkeep; [lia|].
      destruct (Hprog i) as [|(j & _ & Hj & _)]; [lia|lia|done|lia]. }
  assert (pass_inv n st' ∧ pass_ext st1 st' ∧ idom_final n (idom st'))
    as (G1 & G2 & G3).
  { eapply (foreach_inv fixup_vertex
              (fun s => pass_inv n s ∧ pass_ext st1 s ∧ idom_final n (idom s)));
      [| |exact H].
    - intros x s s' _ (I1 & I2 & I3) E.
      destruct (fixup_vertex_spec _ _ _ _ I1 I3 E) as (F1 & F2 & F3).
      split; [done|]. split; [by eapply pass_ext_trans|done].
    - split; [done|]. split; [apply pass_ext_refl|done]. }
  split; [done|]. split; [by eapply pass_ext_trans|done].
Qed.

(** ** The construction as a whole *)

Lemma init_state_inv numVertices :
  numVertices ≤ size_max → dfs_inv (init_state numVertices).
Proof.
  intros Hn. split; simpl.
  - lia.
  - unfold vsize. rewrite length_replicate. lia.
  - intros; lia.
  - by intros i x _ [-> _]%lookup_replicate.
  - intros; lia.
  - intros v i. by rewrite lookup_empty.
  - intros; lia.
  - intros v. rewrite lookup_empty. split; [set_solver|by intros []].
  - intros i ps p [-> _]%lookup_replicate Hp. inversion Hp.
  - by intros p [-> _]%lookup_replicate.
  - intros; lia.
Qed.

Lemma dfs_pass_inv succ fuel entry numVertices st :
  numVertices ≤ size_max →
  dfs succ fuel entry (init_state numVertices) = Ok st →
  pass_inv (dfIdx st) st
  ∧ m_vertexIndex st !! entry = Some 0
  ∧ (∀ v, reachable succ entry v → v ∈ visited st)
  ∧ (∀ v, v ∈ visited st ↔ is_Some (m_vertexIndex st !! v))
  ∧ vsize (m_vertex st) = numVertices
  ∧ dfIdx st ≤ numVertices
  ∧ m_vertex st !! 0%nat = Some entry
  ∧ vsize (idom st) = numVertices.
Proof.
  intros Hn H.
  assert (pre_parent (init_state numVertices)) as Hpre by (by intros []).
  pose proof (dfs_spec succ _ _ _ _ (init_state_inv _ Hn) Hpre H) as Hp.
  pose proof (dp_inv _ _ _ _ Hp) as Hinv.
  pose proof (dp_ext _ _ _ _ Hp) as Hext.
  assert (m_vertexIndex st !! entry = Some 0) as Hentry.
  { apply (dp_new _ _ _ _ Hp). simpl. set_solver. }
  assert (vsize (m_vertex st) = numVertices) as Hsize.
  { unfold vsize. rewrite (de_length _ _ Hext). simpl.
    rewrite length_replicate. lia. }
  split; [|split; [done|split; [|split; [|split; [|split; [|split]]]]]].
  - split.
    + by destruct (di_index _ Hinv _ _ Hentry).
    + intros i x Hi Hx. rewrite (di_semi_lo _ Hinv _ _ Hi Hx). lia.
    + intros i x Hi Hx. rewrite (di_label _ Hinv _ _ Hi Hx). lia.
    + intros i x Hi. rewrite (de_ancestor _ _ Hext). simpl.
      intros [-> _]%lookup_replicate. by left.
    + intros w b v. rewrite (de_bucket _ _ Hext). simpl.
      intros [-> _]%lookup_replicate Hv. inversion Hv.
    + apply (di_root _ Hinv).
    + intros i Hi. apply (dp_linked _ _ _ _ Hp). simpl. lia.
    + apply (di_preds _ Hinv).
    + intros v i Hv. by destruct (di_index _ Hinv _ _ Hv).
    + intros i Hi. pose proof (di_bound _ Hinv) as Hb. unfold vsize in Hb.
      destruct (lookup_lt_is_Some_2 (m_vertex st) (N.to_nat i)) as [v Hv];
        [lia|].
      exists v. split; [done|]. by apply (di_table _ Hinv).
  - intros v Hv. induction Hv as [|x y _ IH Hy].
    + apply (dp_visited _ _ _ _ Hp).
    + eapply (dp_closed _ _ _ _ Hp); [exact IH| |exact Hy]. simpl. set_solver.
  - apply (di_visited _ Hinv).
  - done.
  - rewrite <- Hsize. apply (di_bound _ Hinv).
  - by destruct (di_index _ Hinv _ _ Hentry).
  - unfold vsize. rewrite (de_idom _ _ Hext). simpl.
    rewrite length_replicate. lia.
Qed.

Lemma lengauerTarjanDominator_spec succ fuel entry numVertices st :
  numVertices ≤ size_max →
  lengauerTarjanDominator succ fuel entry numVertices = Ok st →
  lt_post succ entry numVertices st.
Proof.
  intros Hn H. unfold lengauerTarjanDominator in H.
  destruct (numVertices =? 0); [discriminate|].
  inv_bind H as st1 E1. inv_bind H as st2 E2.
  destruct (dfs_pass_inv _ _ _ _ _ Hn E1)
    as (D1 & D2 & D3 & D4 & D5 & D6 & D7 & D8).
  destruct (semi_pass_spec _ _ _ _ D1 E2) as (S1 & S2 & S3).
  destruct (fixup_pass_spec _ _ _ S1 S3 H) as (F1 & F2 & F3).
  pose proof (pass_ext_trans _ _ _ S2 F2) as Hext.
  pose proof (pe_dfIdx _ _ Hext) as Hdf.
  split.
  - by rewrite Hdf.
  - by rewrite Hdf.
  - eapply lookup_weaken; [exact D2|apply Hext].
  - intros v Hv. apply D3, D4 in Hv as [i Hi]. exists i.
    eapply lookup_weaken; [exact Hi|apply Hext].
  - by rewrite (pe_vertex _ _ Hext).
  - by rewrite (pe_vertex _ _ Hext).
  - unfold vsize. by rewrite (pe_idom_length _ _ Hext).
  - by rewrite Hdf.
Qed.

(** ** Constructed analyzers and their queries *)

Lemma buildDominatorTree_Ok mv idomv t0 :
  mv ≠ [] → idomv ≠ [] → ∃ t, buildDominatorTree mv idomv t0 = Ok t.
Proof.
  intros Hmv Hid. unfold buildDominatorTree.
  rewrite decide_False, decide_False by done.
  assert (∀ l t, (∀ i, i ∈ l → (i < length idomv)%nat) →
                 ∃ t', foreach (fun i t => let* k := vget idomv (N.of_nat i) in
                                           Ok (tree_append k (N.of_nat i) t))
                         l t = Ok t') as Hloop.
  { induction l as [|i l IH]; intros t Hl; simpl; [eauto|].
    destruct (lookup_lt_is_Some_2 idomv i) as [k Hk]; [apply Hl; left|].
    assert (vget idomv (N.of_nat i) = Ok k) as -> by
      (apply vget_Ok; by rewrite Nat2N.id).
    simpl. apply IH. intros j Hj. apply Hl. by right. }
  apply Hloop. intros i [_ Hi]%elem_of_seq.
  destruct idomv; [done|]. simpl in *. lia.
Qed.

Lemma construct_analysed succ fuel entry numVertices d :
  numVertices ≤ size_max →
  construct succ fuel entry numVertices = Ok d →
  ∃ n, analysed succ entry numVertices n d.
Proof.
  intros Hn H. unfold construct in H. inv_bind H as st Est.
  inv_bind H as t Et. inv_ok H.
  pose proof (lengauerTarjanDominator_spec _ _ _ _ _ Hn Est) as Hp.
  exists (dfIdx st). split; simpl.
  - apply (pi_pos _ _ (lp_pass _ _ _ _ Hp)).
  - apply (lp_bound _ _ _ _ Hp).
  - apply (lp_size _ _ _ _ Hp).
  - apply (lp_idom_size _ _ _ _ Hp).
  - apply (lp_first _ _ _ _ Hp).
  - apply (lp_entry _ _ _ _ Hp).
  - apply (pi_index _ _ (lp_pass _ _ _ _ Hp)).
  - apply (pi_table _ _ (lp_pass _ _ _ _ Hp)).
  - apply (lp_idom _ _ _ _ Hp).
  - apply (lp_reach _ _ _ _ Hp).
Qed.

(** Once [lengauerTarjanDominator] has returned, [buildDominatorTree]
    cannot fail. *)
Lemma construct_returns succ fuel entry numVertices st :
  numVertices ≤ size_max →
  lengauerTarjanDominator succ fuel entry numVertices = Ok st →
  ∃ d, construct succ fuel entry numVertices = Ok d
       ∧ immediateDominators d = idom st.
Proof.
  intros Hn H. pose proof (lengauerTarjanDominator_spec _ _ _ _ _ Hn H) as Hp.
  pose proof (pi_pos _ _ (lp_pass _ _ _ _ Hp)) as Hpos.
  pose proof (lp_bound _ _ _ _ Hp) as Hb.
  destruct (buildDominatorTree_Ok (m_vertex st) (idom st) ∅) as [t Ht].
  - pose proof (lp_size _ _ _ _ Hp) as Hs. intros E. rewrite E in Hs.
    unfold vsize in Hs. simpl in Hs. lia.
  - pose proof (lp_idom_size _ _ _ _ Hp) as Hs. intros E. rewrite E in Hs.
    unfold vsize in Hs. simpl in Hs. lia.
  - unfold construct. rewrite H. simpl. rewrite Ht. simpl. eauto.
Qed.

Lemma lookup_index_present k d i :
  vertexIndices d !! k = Some i → lookup_index k d = (d, i).
Proof.
  intros E. unfold lookup_index, map_index. rewrite E. by destruct d.
Qed.

Lemma lookup_index_absent k d :
  vertexIndices d !! k = None → lookup_index k d = (with_index k d, 0).
Proof. intros E. unfold lookup_index, map_index. by rewrite E. Qed.

Lemma dominates_walk_entry n idomv fuel :
  idom_final n idomv →
  ∀ j, j < n → (N.to_nat j < fuel)%nat →
       dominates_walk fuel idomv 0 j = Ok true.
Proof.
  intros [H0 Hi]. induction fuel as [|f IH]; intros j Hj Hf; [lia|].
  simpl. destruct (N.eqb_spec j 0) as [->|Hj0]; [done|].
  destruct (Hi j) as (k & Hk & Hlt); [lia|].
  apply vget_Ok in Hk. rewrite Hk. simpl. apply IH; lia.
Qed.

Lemma dominators_walk_spec n mv idomv fuel :
  idom_final n idomv →
  (∀ i, i < n → is_Some (mv !! N.to_nat i)) →
  ∀ j acc, j < n → (N.to_nat j < fuel)%nat →
    ∃ l vs, idom_walk idomv j l ∧ vertices_at mv l vs
            ∧ dominators_walk fuel mv idomv j acc = Ok (acc ++ vs).
Proof.
  intros [H0 Hi] Hmv. induction fuel as [|f IH]; intros j acc Hj Hf; [lia|].
  simpl. destruct (N.eqb_spec j 0) as [->|Hj0].
  { exists [], []. rewrite app_nil_r. repeat split; constructor. }
  destruct (Hmv j Hj) as [x Hx].
  destruct (Hi j) as (k & Hk & Hlt); [lia|].
  rewrite (proj2 (vget_Ok _ _ _) Hx), (proj2 (vget_Ok _ _ _) Hk). simpl.
  destruct (IH k (acc ++ [x])) as (l & vs & W & V & E); [lia|lia|].
  exists (j :: l), (x :: vs). split; [by econstructor|].
  split; [by constructor|]. rewrite E. by rewrite <- app_assoc.
Qed.

Section Queries.
Variables (succ : N → list N) (fuel : nat) (entry numVertices : N).
Variable d : Dominator.
Hypothesis Hsize : numVertices ≤ size_max.
Hypothesis Hd : construct succ fuel entry numVertices = Ok d.

Lemma dominatorsOf_prefix fuel' v d1 i :
  vertices d1 = vertices d →
  immediateDominators d1 = immediateDominators d →
  lookup_index v d = (d1, i) →
  ∀ j, immediateDominators d !! N.to_nat i = Some j →
  dominatorsOf fuel' v d
  = if j =? 0 then Ok (d1, [entry])
    else let* r := dominators_walk fuel' (vertices d) (immediateDominators d)
                     j [entry] in Ok (d1, r).
Proof.
  intros Hv Hi Hl j Hj. destruct (construct_analysed _ _ _ _ _ Hsize Hd) as [n Ha].
  unfold dominatorsOf. pose proof (an_first _ _ _ _ _ Ha) as Hf.
  rewrite decide_False by (intros E; by rewrite E in Hf).
  rewrite (proj2 (vget_Ok _ 0 _) Hf). simpl. rewrite Hl, Hi, Hv.
  by rewrite (proj2 (vget_Ok _ _ _) Hj).
Qed.

Lemma entry_in_own_dominators fuel' :
  dominatorsOf fuel' entry d = Ok (d, [entry]).
Proof.
  destruct (construct_analysed _ _ _ _ _ Hsize Hd) as [n Ha].
  rewrite (dominatorsOf_prefix fuel' entry d 0 eq_refl eq_refl
             (lookup_index_present _ _ _ (an_entry _ _ _ _ _ Ha)) 0); [done|].
  apply (an_idom _ _ _ _ _ Ha).
Qed.

End Queries.

(** ** Termination: the fuel suffices *)

Lemma bind_not_fuel {A B} (r : res A) (k : A → res B) :
  r ≠ OutOfFuel → (∀ a, r = Ok a → k a ≠ OutOfFuel) → bind r k ≠ OutOfFuel.
Proof. destruct r; simpl; auto; discriminate. Qed.

Lemma vget_not_fuel {A} (l : list A) i : vget l i ≠ OutOfFuel.
Proof.
  unfold vget. destruct (_ <? _); [|discriminate].
  destruct (_ !! _); discriminate.
Qed.

Lemma vset_not_fuel {A} (l : list A) i x : vset l i x ≠ OutOfFuel.
Proof. unfold vset. destruct (_ <? _); discriminate. Qed.

Ltac not_fuel :=
  repeat first
    [ apply vget_not_fuel
    | apply vset_not_fuel
    | discriminate
    | apply bind_not_fuel; [|intros ? ?]
    | match goal with
      | |- (if ?b then _ else _) ≠ OutOfFuel => destruct b
      end ].

Lemma foreach_not_fuel {A S} (body : A → S → res S) (I : S → Prop) l :
  (∀ x st, x ∈ l → I st → body x st ≠ OutOfFuel) →
  (∀ x st st', x ∈ l → I st → body x st = Ok st' → I st') →
  ∀ st, I st → foreach body l st ≠ OutOfFuel.
Proof.
  induction l as [|x l IH]; intros Hb Hk st HI; simpl; [discriminate|].
  apply bind_not_fuel.
  - apply Hb; [left|done].
  - intros st' E. apply IH.
    + intros y s Hy. apply Hb. by right.
    + intros y s s' Hy. apply Hk. by right.
    + eapply Hk; [left|exact HI|exact E].
Qed.

Lemma compressPath_fuel n sem fuel :
  ∀ v anc lab,
    forest n anc → v < n → (N.to_nat v < fuel)%nat →
    compressPath fuel anc lab sem v ≠ OutOfFuel.
Proof.
  induction fuel as [|f IH]; intros v anc lab Ha Hv Hf; [lia|].
  simpl. apply bind_not_fuel; [apply vget_not_fuel|]. intros av Eav.
  apply vget_Ok in Eav.
  destruct (N.eqb_spec av size_max) as [|Hav]; [discriminate|].
  destruct (Ha _ _ Hv Eav) as [|Hlt]; [done|].
  apply bind_not_fuel; [apply vget_not_fuel|]. intros au Eau.
  destruct (au =? size_max); [discriminate|].
  apply bind_not_fuel; [apply IH; [done|lia|lia]|].
  intros [anc1 lab1] E1. not_fuel.
Qed.

Lemma eval_fuel n fuel v st :
  forest n (ancestor st) → v < n → (N.to_nat n ≤ fuel)%nat →
  eval fuel v st ≠ OutOfFuel.
Proof.
  intros Ha Hv Hf. unfold eval.
  apply bind_not_fuel; [apply vget_not_fuel|]. intros av Eav.
  destruct (av =? size_max); [discriminate|].
  apply bind_not_fuel; [eapply compressPath_fuel; [exact Ha|done|lia]|].
  intros [anc lab] E. not_fuel.
Qed.

Lemma bucket_step_fuel n fuel w v st :
  pass_inv n st → v < n → (N.to_nat n ≤ fuel)%nat →
  bucket_step fuel w v st ≠ OutOfFuel.
Proof.
  intros Hinv Hv Hf. unfold bucket_step.
  apply bind_not_fuel; [eapply eval_fuel; [apply Hinv|done|done]|].
  intros [st1 u] E. not_fuel.
Qed.

Lemma semi_step_fuel n fuel w v st :
  pass_inv n st → v < n → (N.to_nat n ≤ fuel)%nat →
  semi_step fuel w v st ≠ OutOfFuel.
Proof.
  intros Hinv Hv Hf. unfold semi_step.
  apply bind_not_fuel; [eapply eval_fuel; [apply Hinv|done|done]|].
  intros [st1 u] E. not_fuel.
Qed.

Lemma process_index_fuel n fuel w st :
  pass_inv n st → w < n → (N.to_nat n ≤ fuel)%nat →
  process_index fuel w st ≠ OutOfFuel.
Proof.
  intros Hinv Hw Hf. unfold process_index.
  apply bind_not_fuel; [apply vget_not_fuel|]. intros bw Ebw.
  apply vget_Ok in Ebw.
  assert (∀ v, v ∈ bw → v < n ∧ w ≤ v ∧ (v ≠ 0 → w < v)) as Hbw
    by (intros v; by apply (pi_bucket _ _ Hinv w)).
  apply bind_not_fuel.
  { apply (foreach_not_fuel _ (pass_inv n)); [| |done].
    - intros x s Hx Hs. eapply bucket_step_fuel; [done| |done].
      by destruct (Hbw _ Hx).
    - intros x s s' Hx Hs E. destruct (Hbw _ Hx) as (B1 & B2 & B3).
      by destruct (bucket_step_spec _ _ _ _ _ _ Hs B1 B2 B3 E). }
  intros st1 E1.
  destruct (bucket_loop_spec _ _ _ _ _ _ Hinv Hbw E1) as (Hinv1 & _).
  apply bind_not_fuel; [apply vget_not_fuel|]. intros pw Epw.
  apply vget_Ok in Epw.
  assert (∀ v, v ∈ pw → v < n) as Hpw
    by (intros v; by apply (pi_preds _ _ Hinv1 w)).
  apply bind_not_fuel.
  { apply (foreach_not_fuel _ (pass_inv n)); [| |done].
    - intros x s Hx Hs. eapply semi_step_fuel; [done| |done]. by apply Hpw.
    - intros x s s' Hx Hs E.
      by destruct (semi_step_spec _ _ _ _ _ _ Hs (Hpw _ Hx) Hw E). }
  intros st2 E2. unfold link. not_fuel.
Qed.

Lemma semi_pass_fuel n fuel st :
  pass_inv n st → (N.to_nat n ≤ fuel)%nat → semi_pass fuel st ≠ OutOfFuel.
Proof.
  intros Hinv Hf. unfold semi_pass.
  apply (foreach_not_fuel _ (pass_inv n)); [| |done].
  - intros x s _ Hs. unfold process_vertex.
    destruct (index_of x s) as [s0 w] eqn:E.
    destruct (index_of_spec _ _ _ _ _ Hs E) as (G1 & _ & G3 & _).
    by eapply process_index_fuel.
  - intros x s s' _ Hs E. by destruct (process_vertex_spec _ _ _ _ _ Hs E).
Qed.

Lemma fixup_pass_fuel st : fixup_pass st ≠ OutOfFuel.
Proof.
  unfold fixup_pass. apply bind_not_fuel; [apply vset_not_fuel|].
  intros id _. apply (foreach_not_fuel _ (fun _ => True)); [|done|done].
  intros x s _ _. unfold fixup_vertex. destruct (index_of x s). not_fuel.
Qed.

Lemma dfs_fuel succ fuel :
  ∀ v st,
    dfs_inv st → pre_parent st →
    (length (m_vertex st) < fuel + N.to_nat (dfIdx st))%nat →
    dfs succ fuel v st ≠ OutOfFuel.
Proof.
  induction fuel as [|f IH]; intros v st Hinv Hpre Hf.
  { pose proof (di_bound _ Hinv). unfold vsize in *. lia. }
  simpl. destruct (decide (v ∈ visited st)) as [Hv|Hv]; [discriminate|].
  apply bind_not_fuel; [apply vset_not_fuel|]. intros mv Emv.
  apply bind_not_fuel; [apply vset_not_fuel|]. intros sm Esm.
  apply bind_not_fuel; [apply vset_not_fuel|]. intros lb Elb. simpl in *.
  match goal with
  | |- foreach _ _ ?s ≠ _ => change s with (dfs_enter v mv sm lb st)
  end.
  destruct (dfs_enter_spec _ _ _ _ _ Hinv Hpre Hv Emv Esm Elb)
    as (Hinvb & Hextb & Hvb & Hdfb).
  pose proof (de_length _ _ Hextb) as Hlenb.
  apply (foreach_not_fuel _
           (fun s => dfs_inv s ∧ dfs_ext (dfs_enter v mv sm lb st) s
                     ∧ m_vertexIndex s !! v = Some (dfIdx st))).
  - intros w s _ (I1 & I2 & I3). unfold visit_successor.
    apply bind_not_fuel; [apply vget_not_fuel|]. intros sx Esx.
    apply bind_not_fuel.
    + destruct (sx =? size_max); [|discriminate].
      rewrite (index_of_present _ _ _ I3).
      apply bind_not_fuel; [apply vset_not_fuel|]. intros par Epar.
      pose proof (de_dfIdx _ _ I2) as Hmono.
      pose proof (de_length _ _ I2) as Hlen.
      pose proof (di_index _ I1 _ _ I3) as [Hiv _].
      destruct (visit_parent_inv _ _ _ I1 Hiv Epar) as (P1 & P2 & _).
      apply IH; [done|done|]. simpl. lia.
    + intros s1 E1. destruct (index_of w s1) as [s2 iw].
      destruct (index_of v s2) as [s3 iv]. not_fuel.
  - intros w s s' _ (I1 & I2 & I3) E.
    pose proof (visit_successor_spec succ (dfs succ f)
                  (fun w' s0 s1 => dfs_spec succ f w' s0 s1)
                  _ _ _ _ _ I1 I3 E) as Hp.
    split; [apply Hp|]. split.
    + eapply dfs_ext_trans; [exact I2|apply Hp].
    + eapply lookup_weaken; [exact I3|apply Hp].
  - split; [done|]. split; [apply dfs_ext_refl|done].
Qed.

Lemma lengauerTarjanDominator_fuel succ fuel entry numVertices :
  numVertices ≤ size_max → (N.to_nat numVertices < fuel)%nat →
  lengauerTarjanDominator succ fuel entry numVertices ≠ OutOfFuel.
Proof.
  intros Hn Hf. unfold lengauerTarjanDominator.
  destruct (numVertices =? 0); [discriminate|].
  apply bind_not_fuel.
  { apply dfs_fuel; [by apply init_state_inv|by intros []|].
    simpl. rewrite length_replicate. lia. }
  intros st1 E1.
  destruct (dfs_pass_inv _ _ _ _ _ Hn E1) as (D1 & _ & _ & _ & _ & D6 & _).
  apply bind_not_fuel; [eapply semi_pass_fuel; [exact D1|lia]|].
  intros st2 _. apply fixup_pass_fuel.
Qed.

Lemma construct_fuel succ fuel entry numVertices :
  numVertices ≤ size_max → (N.to_nat numVertices < fuel)%nat →
  construct succ fuel entry numVertices ≠ OutOfFuel.
Proof.
  intros Hn Hf. unfold construct.
  apply bind_not_fuel; [by apply lengauerTarjanDominator_fuel|].
  intros st _. apply bind_not_fuel; [|discriminate].
  unfold buildDominatorTree. destruct (decide _); [discriminate|].
  destruct (decide _); [discriminate|].
  apply (foreach_not_fuel _ (fun _ => True)); [|done|done].
  intros i t _ _. apply bind_not_fuel; [apply vget_not_fuel|discriminate].
Qed.

Lemma indices_down_to_S k :
  indices_down_to 0 (S k) = N.of_nat k :: indices_down_to 0 k.
Proof.
  unfold indices_down_to. rewrite !Nat.sub_0_r, seq_S, fmap_app.
  change (N.of_nat <$> [(0 + k)%nat]) with [N.of_nat k].
  by rewrite rev_unit.
Qed.

Lemma pass_assigned_indices n fuel k :
  (k ≤ N.to_nat n)%nat →
  ∀ st, pass_inv n st →
        foreach (process_vertex fuel) (rev (take k (m_vertex st))) st
        = foreach (process_index fuel) (indices_down_to 0 k) st.
Proof.
  induction k as [|k IH]; intros Hk st Hinv.
  - by rewrite take_0.
  - destruct (pi_table _ _ Hinv (N.of_nat k)) as (v & Hv1 & Hv2); [lia|].
    rewrite Nat2N.id in Hv1.
    rewrite (take_S_r _ _ _ Hv1), rev_unit, indices_down_to_S, !foreach_cons.
    unfold process_vertex at 1. rewrite (index_of_present _ _ _ Hv2).
    destruct (process_index fuel (N.of_nat k) st) as [st1| | |] eqn:E;
      simpl; try done.
    assert (N.of_nat k < n) as Hkn by lia.
    destruct (process_index_spec n _ _ _ _ Hinv Hkn E) as (G1 & G2 & _).
    rewrite <- (pe_vertex _ _ G2). apply IH; [lia|done].
Qed.

(** C4 (amended): when every slot of the vertex table has been numbered,
    the reverse loop runs its body (bucket step, semi-dominator step,
    bucket append and link) for the indices [n-1] down to [0]: index [0],
    the entry, is processed too, and last. *)
Theorem semi_pass_all_indices succ fuel entry numVertices st fuel' :
  numVertices ≤ size_max →
  dfs succ fuel entry (init_state numVertices) = Ok st →
  dfIdx st = numVertices →
  semi_pass fuel' st
  = foreach (process_index fuel')
      (indices_down_to 0 (N.to_nat numVertices)) st
  ∧ last (indices_down_to 0 (N.to_nat numVertices)) = Some 0.
Proof.
  intros Hn Hdfs Hall.
  destruct (dfs_pass_inv _ _ _ _ _ Hn Hdfs) as (D1 & _ & _ & _ & D5 & _).
  rewrite Hall in D1. split.
  - unfold semi_pass.
    rewrite <- (pass_assigned_indices numVertices fuel' (N.to_nat numVertices))
      by done.
    rewrite take_ge; [done|]. unfold vsize in D5. lia.
  - pose proof (pi_pos _ _ D1) as Hpos.
    destruct (N.to_nat numVertices) as [|k] eqn:Ek; [lia|].
    unfold indices_down_to. rewrite Nat.sub_0_r. simpl.
    by rewrite last_snoc.
Qed.

(** ** The analyzer after construction *)

(** C9: after construction [idom[0] = 0] and, for every index [i] in
    [[1, n)], [idom[i] < i], where [n] is the number of vertices the
    depth-first search has reached: the indices below [n] are exactly those
    of the vertices in the index map.  The construction itself never runs
    out of fuel once the fuel exceeds [numVertices]. *)
Theorem idom_before_index succ fuel entry numVertices :
  numVertices ≤ size_max →
  ((N.to_nat numVertices < fuel)%nat →
   construct succ fuel entry numVertices ≠ OutOfFuel)
  ∧ ∀ d,
      construct succ fuel entry numVertices = Ok d →
      ∃ n, 0 < n ≤ numVertices
           ∧ vsize (immediateDominators d) = numVertices
           ∧ (∀ i, i < n ↔ ∃ v, vertexIndices d !! v = Some i)
           ∧ immediateDominators d !! 0%nat = Some 0
           ∧ ∀ i, 1 ≤ i < n →
                  ∃ j, immediateDominators d !! N.to_nat i = Some j ∧ j < i.
Proof.
  intros Hn. split; [by apply construct_fuel|]. intros d Hd.
  destruct (construct_analysed _ _ _ _ _ Hn Hd) as [n Ha].
  exists n. destruct Ha as [A1 A2 A3 A4 A5 A6 A7 A8 [A9 A10] A11].
  split; [lia|]. split; [done|]. split; [|split; [done|]].
  - intros i. split.
    + intros Hi. destruct (A8 _ Hi) as (v & _ & Hv). eauto.
    + intros [v Hv]. eauto.
  - intros i Hi. apply A10. lia.
Qed.

(** C10: [dominates(entry, v)] returns true for every vertex [v] reachable
    from the entry, where the entry is [vertex[0]]; the walk needs no more
    than [numVertices] iterations and the analyzer is left as it was. *)
Theorem entry_dominates succ fuel entry numVertices d v fuel' :
  numVertices ≤ size_max →
  construct succ fuel entry numVertices = Ok d →
  reachable succ entry v →
  (N.to_nat numVertices ≤ fuel')%nat →
  vertices d !! 0%nat = Some entry
  ∧ dominates fuel' entry v d = Ok (d, true).
Proof.
  intros Hn Hd Hv Hf. destruct (construct_analysed _ _ _ _ _ Hn Hd) as [n Ha].
  destruct Ha as [A1 A2 A3 A4 A5 A6 A7 A8 A9 A11]. split; [done|].
  destruct (A11 _ Hv) as [i Hi]. pose proof (A7 _ _ Hi) as Hlt.
  unfold dominates.
  rewrite (lookup_index_present _ _ _ A6), (lookup_index_present _ _ _ Hi).
  destruct (N.eqb_spec 0 i) as [|Hi0]; [done|].
  destruct (proj2 A9 i) as (j & Hj & Hji); [lia|].
  rewrite (proj2 (vget_Ok _ _ _) Hj). simpl.
  rewrite (dominates_walk_entry n); [done|done|lia|lia].
Qed.

(** C3 (amended): for every reachable vertex [v], [dominatorsOf(v)] is the
    entry followed by the vertices met when walking the [idom] array from
    [idom[index(v)]] up to, and without, index [0], in the order of the
    walk: the immediate dominator of [v] right after the entry and the
    dominator nearest the entry last. *)
Theorem dominatorsOf_order succ fuel entry numVertices d v fuel' :
  numVertices ≤ size_max →
  construct succ fuel entry numVertices = Ok d →
  reachable succ entry v →
  (N.to_nat numVertices ≤ fuel')%nat →
  ∃ i j l vs,
    vertexIndices d !! v = Some i
    ∧ immediateDominators d !! N.to_nat i = Some j
    ∧ idom_walk (immediateDominators d) j l
    ∧ vertices_at (vertices d) l vs
    ∧ dominatorsOf fuel' v d = Ok (d, entry :: vs).
Proof.
  intros Hn Hd Hv Hf. destruct (construct_analysed _ _ _ _ _ Hn Hd) as [n Ha].
  destruct Ha as [A1 A2 A3 A4 A5 A6 A7 A8 A9 A11].
  destruct (A11 _ Hv) as [i Hi]. pose proof (A7 _ _ Hi) as Hlt.
  assert (∃ j, immediateDominators d !! N.to_nat i = Some j ∧ j < n)
    as (j & Hj & Hjn).
  { destruct (decide (i = 0)) as [->|Hi0].
    - exists 0. split; [apply A9|done].
    - destruct (proj2 A9 i) as (j & Hj & Hji); [lia|]. exists j.
      split; [done|lia]. }
  rewrite (dominatorsOf_prefix succ fuel entry numVertices d Hn Hd fuel' v d i
             eq_refl eq_refl (lookup_index_present _ _ _ Hi) j Hj).
  exists i, j. destruct (N.eqb_spec j 0) as [->|Hj0].
  { exists [], []. repeat split; try done; constructor. }
  destruct (dominators_walk_spec n (vertices d) (immediateDominators d) fuel'
              A9) with j [entry] as (l & vs & W & V & E); [|done|lia|].
  { intros k Hk. destruct (A8 _ Hk) as (x & Hx & _). eauto. }
  exists l, vs. rewrite E. done.
Qed.

(** C1 (amended): a query about a vertex [x] that has no index signals
    nothing; [operator[]] inserts [x] with index [0] and the query answers
    as it does for the entry: [dominates(x, b)] is true for every indexed
    [b], [dominates(a, x)] is true exactly when [a] has index [0], and
    [dominatorsOf(x)] is the one-element sequence of the entry. *)
Theorem unknown_vertex_as_entry succ fuel entry numVertices d x fuel' :
  numVertices ≤ size_max →
  construct succ fuel entry numVertices = Ok d →
  vertexIndices d !! x = None →
  (N.to_nat numVertices ≤ fuel')%nat →
  (∀ b, is_Some (vertexIndices d !! b) →
        dominates fuel' x b d = Ok (with_index x d, true))
  ∧ (∀ a i, vertexIndices d !! a = Some i →
            dominates fuel' a x d = Ok (with_index x d, i =? 0))
  ∧ dominatorsOf fuel' x d = Ok (with_index x d, [entry]).
Proof.
  intros Hn Hd Hx Hf. destruct (construct_analysed _ _ _ _ _ Hn Hd) as [n Ha].
  destruct Ha as [A1 A2 A3 A4 A5 A6 A7 A8 A9 A11].
  split; [|split].
  - intros b [i Hi]. pose proof (A7 _ _ Hi) as Hlt. unfold dominates.
    rewrite (lookup_index_absent _ _ Hx).
    assert (vertexIndices (with_index x d) !! b = Some i) as Hi'.
    { simpl. rewrite lookup_insert_ne; [done|]. congruence. }
    rewrite (lookup_index_present _ _ _ Hi').
    destruct (N.eqb_spec 0 i) as [|Hi0]; [done|]. simpl.
    destruct (proj2 A9 i) as (j & Hj & Hji); [lia|].
    rewrite (proj2 (vget_Ok _ _ _) Hj). simpl.
    rewrite (dominates_walk_entry n); [done|done|lia|lia].
  - intros a i Hi. pose proof (A7 _ _ Hi) as Hlt. unfold dominates.
    rewrite (lookup_index_present _ _ _ Hi), (lookup_index_absent _ _ Hx).
    destruct (N.eqb_spec i 0) as [->|Hi0]; [done|]. simpl.
    rewrite (proj2 (vget_Ok _ 0 _) (proj1 A9)). simpl.
    destruct fuel' as [|f]; [lia|]. simpl. by destruct i.
  - rewrite (dominatorsOf_prefix succ fuel entry numVertices d Hn Hd fuel' x
               (with_index x d) 0 eq_refl eq_refl
               (lookup_index_absent _ _ Hx) 0); [done|apply A9].
Qed.

(** ** The end-to-end scenarios *)

Lemma construct_chain f : construct chain (4 + f) vA 4 = Ok chain_dominator.
Proof. vm_compute. reflexivity. Qed.

(** C8: on the linear chain [A→B, B→C, C→D] with entry [A] the computed
    immediate-dominator array is [[0; 0; 1; 2]], that is idom(A)=A (the
    sentinel), idom(B)=A, idom(C)=B, idom(D)=C. *)
Theorem chain_immediateDominators f :
  out immediateDominators (construct chain (4 + f) vA 4) = Ok [0; 0; 1; 2]
  ∧ out vertices (construct chain (4 + f) vA 4) = Ok [vA; vB; vC; vD].
Proof. rewrite construct_chain. split; reflexivity. Qed.

(** C2: the diamond has four reachable vertices, yet with [numVertices = 4]
    the depth-first search does not stay in bounds: once [C], the last
    vertex, has been numbered, [dfIdx] is [4] and the visitor reads
    [semi[4]] for the successor [D] of [C].  With enough fuel to get that
    far the search ends in the out-of-range branch. *)
Theorem dfs_diamond_out_of_bounds f :
  dfs diamond (3 + f) vA (init_state 4) = OutOfBounds.
Proof. vm_compute. reflexivity. Qed.

(** Whatever the graph, the visitor faults on its first read as soon as
    every slot has been handed out. *)
Lemma visit_successor_full rec v w st :
  dfIdx st = vsize (semi st) → visit_successor rec v w st = OutOfBounds.
Proof.
  intros E. unfold visit_successor, vget. rewrite E, N.ltb_irrefl. reflexivity.
Qed.

(** With exactly four slots the embedded construction of the diamond
    ends in the out-of-range read of the depth-first search; in the source
    that read is undefined behaviour. *)
Lemma construct_diamond_fails f :
  construct diamond (3 + f) vA 4 = OutOfBounds.
Proof. vm_compute. reflexivity. Qed.

(** C7: on the diamond [A→B, A→C, B→D, C→D] with entry [A], built with a
    vertex table of five slots so that every read of the search is in
    range, the analysis yields idom(B) = idom(C) = idom(D) = A,
    [dominates(B, D)] returns false and [dominates(A, D)] returns true. *)
Theorem diamond_analysis f :
  ∃ d, construct diamond (4 + f) vA 5 = Ok d
       ∧ vertices d !! 0%nat = Some vA
       ∧ (∀ v, v ∈ [vB; vC; vD] →
               ∃ i, vertexIndices d !! v = Some i
                    ∧ immediateDominators d !! N.to_nat i = Some 0)
       ∧ out snd (dominates (4 + f) vB vD d) = Ok false
       ∧ out snd (dominates (4 + f) vA vD d) = Ok true.
Proof.
  eexists. split; [vm_compute; reflexivity|].
  split; [reflexivity|]. split; [|split; reflexivity].
  intros v Hv. repeat (apply elem_of_cons in Hv as [->|Hv]).
  - exists 1. split; reflexivity.
  - exists 3. split; reflexivity.
  - exists 2. split; reflexivity.
  - inversion Hv.
Qed.

(** C6: [dominatorsOf] of the entry contains the entry itself: on the
    linear chain [dominatorsOf(A)] is [[A]].  The sequence is seeded with
    [m_vertex[0]] before the argument is looked at, so the same holds for
    the entry of every graph ([entry_in_own_dominators]). *)
Theorem dominatorsOf_entry_chain f :
  out snd (dominatorsOf f vA chain_dominator) = Ok [vA]
  ∧ construct chain (4 + f) vA 4 = Ok chain_dominator.
Proof. split; [reflexivity|apply construct_chain]. Qed.

(** C3, as stated, fails on the chain: [dominatorsOf(D)] is [[A; C; B]],
    the immediate dominator [C] right after the entry, and not the
    sequence [[A; B; C]] that ends with the immediate dominator. *)
Lemma dominatorsOf_chain_order :
  construct chain 4 vA 4 = Ok chain_dominator
  ∧ out snd (dominatorsOf 4 vD chain_dominator) = Ok [vA; vC; vB]
  ∧ out snd (dominatorsOf 4 vD chain_dominator) ≠ Ok [vA; vB; vC].
Proof.
  split; [vm_compute; reflexivity|]. split; [reflexivity|discriminate].
Qed.

(** C1, as stated, fails: [vX] has no index in the analyzer of the chain,
    and both queries answer for it, with [true] and with the one-element
    sequence of the entry. *)
Lemma unknown_vertex_not_rejected :
  construct chain 4 vA 4 = Ok chain_dominator
  ∧ vertexIndices chain_dominator !! vX = None
  ∧ out snd (dominates 4 vX vD chain_dominator) = Ok true
  ∧ out snd (dominatorsOf 4 vX chain_dominator) = Ok [vA].
Proof. split; [vm_compute; reflexivity|]. repeat split. Qed.

(** C5, as stated, fails: a query about the unknown [vX] leaves an object
    whose index map has one more key. *)
Lemma query_changes_index_map :
  ∃ d', construct chain 4 vA 4 = Ok chain_dominator
        ∧ run_queries 4 [Qdominates vX vD] chain_dominator = Ok d'
        ∧ vertexIndices chain_dominator !! vX = None
        ∧ vertexIndices d' !! vX = Some 0
        ∧ d' ≠ chain_dominator.
Proof.
  eexists. split; [vm_compute; reflexivity|].
  split; [vm_compute; reflexivity|].
  repeat split. intros E. apply (f_equal (fun d => vertexIndices d !! vX)) in E.
  vm_compute in E. discriminate.
Qed.

(** C4, as stated, fails on the chain: the loop of the source also runs
    its body for index [0], which drains [bucket[0]] (giving [idom[1] = 0])
    and appends [0] to [bucket[0]]; a loop that stops at index [1] leaves
    [idom[1]] undefined. *)
Lemma semi_pass_processes_entry :
  ∃ st, dfs chain 4 vA (init_state 4) = Ok st
        ∧ out (fun s => (idom s, bucket s)) (semi_pass 4 st)
          = Ok ([size_max; 0; 1; 2], [[1; 0]; [2]; [3]; []])
        ∧ out (fun s => (idom s, bucket s)) (semi_pass_skipping_entry 4 st)
          = Ok ([size_max; size_max; 1; 2], [[1]; [2]; [3]; []])
        ∧ semi_pass 4 st ≠ semi_pass_skipping_entry 4 st.
Proof.
  eexists. split; [vm_compute; reflexivity|].
  split; [vm_compute; reflexivity|]. split; [vm_compute; reflexivity|].
  intros E. apply (f_equal (out idom)) in E. vm_compute in E. discriminate.
Qed.

(** ** Queries and the state of the analyzer *)

Lemma lookup_index_frame k d d' i :
  lookup_index k d = (d', i) →
  vertices d' = vertices d
  ∧ immediateDominators d' = immediateDominators d
  ∧ dominatorTree d' = dominatorTree d
  ∧ vertexIndices d' !! k = Some i
  ∧ (∀ j, vertexIndices d !! k = Some j → d' = d ∧ i = j)
  ∧ (vertexIndices d !! k = None
     → vertexIndices d' = <[k := 0]> (vertexIndices d) ∧ i = 0).
Proof.
  unfold lookup_index, map_index. destruct d as [mv mi id t]; simpl.
  destruct (mi !! k) as [j|] eqn:E; intros [= <- <-]; simpl.
  - naive_solver.
  - rewrite lookup_insert_eq. naive_solver.
Qed.

Lemma dominates_frame fuel a b d d' r :
  dominates fuel a b d = Ok (d', r) →
  vertices d' = vertices d
  ∧ immediateDominators d' = immediateDominators d
  ∧ dominatorTree d' = dominatorTree d
  ∧ (is_Some (vertexIndices d !! a) → is_Some (vertexIndices d !! b)
     → d' = d).
Proof.
  unfold dominates.
  destruct (lookup_index a d) as [d1 ai] eqn:Ea.
  destruct (lookup_index b d1) as [d2 bi] eqn:Eb.
  apply lookup_index_frame in Ea as (Ea1 & Ea2 & Ea3 & _ & Ea4 & _).
  apply lookup_index_frame in Eb as (Eb1 & Eb2 & Eb3 & _ & Eb4 & _).
  intros H.
  assert (d' = d2) as ->.
  { destruct (ai =? bi); [by inv_ok H|]. inv_bind H. inv_bind H. by inv_ok H. }
  repeat split; try congruence.
  intros [i Hi] [j Hj]. destruct (Ea4 _ Hi) as [-> _].
  by destruct (Eb4 _ Hj) as [-> _].
Qed.

Lemma dominatorsOf_frame fuel v d d' r :
  dominatorsOf fuel v d = Ok (d', r) →
  vertices d' = vertices d
  ∧ immediateDominators d' = immediateDominators d
  ∧ dominatorTree d' = dominatorTree d
  ∧ (is_Some (vertexIndices d !! v) → d' = d).
Proof.
  unfold dominatorsOf. destruct (decide _); [discriminate|]. intros H.
  inv_bind H.
  destruct (lookup_index v d) as [d1 vi] eqn:Ev.
  apply lookup_index_frame in Ev as (Ev1 & Ev2 & Ev3 & _ & Ev4 & _).
  inv_bind H.
  assert (d' = d1) as ->.
  { destruct (_ =? 0); [by inv_ok H|]. inv_bind H. by inv_ok H. }
  repeat split; try congruence. intros [i Hi]. by destruct (Ev4 _ Hi).
Qed.

(** C5 (amended): no sequence of [dominates] and [dominatorsOf] calls
    changes the vertex table, the immediate-dominator array or the
    dominator tree, and the whole analyzer is unchanged when every argument
    vertex has an index in [vertexIndex]. *)
Theorem queries_frame fuel qs d d' :
  run_queries fuel qs d = Ok d' →
  vertices d' = vertices d
  ∧ immediateDominators d' = immediateDominators d
  ∧ dominatorTree d' = dominatorTree d
  ∧ ((∀ q x, q ∈ qs → x ∈ query_args q → is_Some (vertexIndices d !! x))
     → d' = d).
Proof.
  unfold run_queries. revert d.
  induction qs as [|q qs IH]; intros d H; simpl in H.
  - inv_ok H. done.
  - inv_bind H. rename x into d1. apply IH in H as (H1 & H2 & H3 & H4).
    assert (vertices d1 = vertices d
            ∧ immediateDominators d1 = immediateDominators d
            ∧ dominatorTree d1 = dominatorTree d
            ∧ ((∀ x, x ∈ query_args q → is_Some (vertexIndices d !! x))
               → d1 = d)) as (G1 & G2 & G3 & G4).
    { destruct q as [a b|v]; simpl in E; unfold out in E; inv_bind E;
        destruct x as [d0 r]; inv_ok E; simpl.
      - apply dominates_frame in E0 as (? & ? & ? & F).
        repeat split; try done. intros Hx. apply F; apply Hx; set_solver.
      - apply dominatorsOf_frame in E0 as (? & ? & ? & F).
        repeat split; try done. intros Hx. apply F, Hx. set_solver. }
    repeat split; try congruence. intros Hall.
    assert (d1 = d) as ->.
    { apply G4. intros x Hx. eapply Hall; [left|done]. }
    apply H4. intros q' x Hq Hx. eapply Hall; [by right|done].
Qed.

Lemma queries_frame_witness :
  run_queries 4 [Qdominates vA vD; QdominatorsOf vD] chain_dominator
  = Ok chain_dominator
  ∧ vertices chain_dominator = vertices chain_dominator.
Proof.
  split; [vm_compute; reflexivity|].
  apply (queries_frame 4 [Qdominates vA vD; QdominatorsOf vD]
           chain_dominator chain_dominator).
  vm_compute; reflexivity.
Defined.

(** ** The general statements at the linear chain *)

Lemma chain_searched_dfs : dfs chain 4 vA (init_state 4) = Ok chain_searched.
Proof. vm_compute. reflexivity. Qed.

Lemma unknown_vertex_as_entry_witness :
  (∀ b, is_Some (vertexIndices chain_dominator !! b) →
        dominates 4 vX b chain_dominator
        = Ok (with_index vX chain_dominator, true))
  ∧ (∀ a i, vertexIndices chain_dominator !! a = Some i →
            dominates 4 a vX chain_dominator
            = Ok (with_index vX chain_dominator, i =? 0))
  ∧ dominatorsOf 4 vX chain_dominator
    = Ok (with_index vX chain_dominator, [vA]).
Proof.
  apply (unknown_vertex_as_entry chain 4 vA 4 chain_dominator vX 4).
  - unfold size_max. lia.
  - vm_compute. reflexivity.
  - vm_compute. reflexivity.
  - lia.
Defined.

Lemma dominatorsOf_order_witness :
  ∃ i j l vs,
    vertexIndices chain_dominator !! vD = Some i
    ∧ immediateDominators chain_dominator !! N.to_nat i = Some j
    ∧ idom_walk (immediateDominators chain_dominator) j l
    ∧ vertices_at (vertices chain_dominator) l vs
    ∧ dominatorsOf 4 vD chain_dominator = Ok (chain_dominator, vA :: vs).
Proof.
  apply (dominatorsOf_order chain 4 vA 4 chain_dominator vD 4).
  - unfold size_max. lia.
  - vm_compute. reflexivity.
  - apply (reach_step chain vA vC vD); [|vm_compute; left].
    apply (reach_step chain vA vB vC); [|vm_compute; left].
    apply (reach_step chain vA vA vB); [|vm_compute; left].
    apply reach_entry.
  - lia.
Defined.

Lemma semi_pass_all_indices_witness :
  semi_pass 4 chain_searched
  = foreach (process_index 4) (indices_down_to 0 (N.to_nat 4)) chain_searched
  ∧ last (indices_down_to 0 (N.to_nat 4)) = Some 0.
Proof.
  apply (semi_pass_all_indices chain 4 vA 4 chain_searched 4).
  - unfold size_max. lia.
  - vm_compute. reflexivity.
  - reflexivity.
Defined.

Lemma idom_before_index_witness :
  construct chain 5 vA 4 ≠ OutOfFuel
  ∧ ∃ n, 0 < n ≤ 4
         ∧ vsize (immediateDominators chain_dominator) = 4
         ∧ (∀ i, i < n ↔ ∃ v, vertexIndices chain_dominator !! v = Some i)
         ∧ immediateDominators chain_dominator !! 0%nat = Some 0
         ∧ ∀ i, 1 ≤ i < n →
                ∃ j, immediateDominators chain_dominator !! N.to_nat i = Some j
                     ∧ j < i.
Proof.
  destruct (idom_before_index chain 5 vA 4) as [Hfuel Hidom].
  - unfold size_max. lia.
  - split.
    + apply Hfuel. lia.
    + apply (Hidom chain_dominator). vm_compute. reflexivity.
Defined.

Lemma entry_dominates_witness :
  vertices chain_dominator !! 0%nat = Some vA
  ∧ dominates 4 vA vD chain_dominator = Ok (chain_dominator, true).
Proof.
  apply (entry_dominates chain 4 vA 4 chain_dominator vD 4).
  - unfold size_max. lia.
  - vm_compute. reflexivity.
  - apply (reach_step chain vA vC vD); [|vm_compute; left].
    apply (reach_step chain vA vB vC); [|vm_compute; left].
    apply (reach_step chain vA vA vB); [|vm_compute; left].
    apply reach_entry.
  - lia.
Defined.

(** * Further properties of the analyzer *)


(** ** The vertex table holds the reachable vertices *)

Lemma index_of_visited k st st' i :
  index_of k st = (st', i) → visited st' = visited st.
Proof.
  unfold index_of. destruct (map_index _ _) as [m j]. by intros [= <- <-].
Qed.

Lemma visit_successor_visited (R : N → Prop) rec v w st st' :
  (∀ s s', (∀ x, x ∈ visited s → R x) → rec w s = Ok s' →
           ∀ x, x ∈ visited s' → R x) →
  (∀ x, x ∈ visited st → R x) →
  visit_successor rec v w st = Ok st' →
  ∀ x, x ∈ visited st' → R x.
Proof.
  intros Hrec Hst H. unfold visit_successor in H.
  inv_bind H as s Es. inv_bind H as st1 E1.
  assert (∀ x, x ∈ visited st1 → R x) as Hst1.
  { destruct (s =? size_max); [|by inv_ok E1].
    destruct (index_of v st) as [st0 iv] eqn:E0.
    inv_bind E1 as par Epar. eapply Hrec; [|exact E1].
    simpl. by rewrite (index_of_visited _ _ _ _ E0). }
  destruct (index_of w st1) as [st2 iw] eqn:E2.
  destruct (index_of v st2) as [st3 iv] eqn:E3.
  inv_bind H as ps Eps. inv_bind H as preds Epreds. inv_ok H. simpl.
  by rewrite (index_of_visited _ _ _ _ E3), (index_of_visited _ _ _ _ E2).
Qed.

Lemma dfs_visited_sound succ (R : N → Prop) fuel :
  (∀ x y, R x → y ∈ succ x → R y) →
  ∀ v st st',
    R v → (∀ x, x ∈ visited st → R x) →
    dfs succ fuel v st = Ok st' →
    ∀ x, x ∈ visited st' → R x.
Proof.
  intros Hstep. induction fuel as [|f IH]; intros v st st' Hv Hst H;
    [discriminate|].
  simpl in H. destruct (decide (v ∈ visited st)); [by inv_ok H|].
  inv_bind H as mv Emv. inv_bind H as sm Esm. inv_bind H as lb Elb.
  eapply (foreach_inv _ (fun s => ∀ x, x ∈ visited s → R x)); [| |exact H].
  - intros w s s' Hw Hs E. eapply visit_successor_visited; [|exact Hs|exact E].
    intros s0 s1 Hs0. apply IH; [|done]. by eapply Hstep.
  - simpl. intros x [->%elem_of_singleton|Hx]%elem_of_union; auto.
Qed.

Lemma search_exact succ fuel entry numVertices st :
  numVertices ≤ size_max →
  dfs succ fuel entry (init_state numVertices) = Ok st →
  (∀ i, i < dfIdx st →
        ∃ v, m_vertex st !! N.to_nat i = Some v
             ∧ m_vertexIndex st !! v = Some i ∧ reachable succ entry v)
  ∧ (∀ v, reachable succ entry v →
          ∃ i, i < dfIdx st ∧ m_vertexIndex st !! v = Some i
               ∧ m_vertex st !! N.to_nat i = Some v).
Proof.
  intros Hn H.
  destruct (dfs_pass_inv _ _ _ _ _ Hn H) as (D1 & _ & D3 & D4 & _).
  assert (pre_parent (init_state numVertices)) as Hpre by (by intros []).
  pose proof (dp_inv _ _ _ _ (dfs_spec succ _ _ _ _ (init_state_inv _ Hn)
                                Hpre H)) as Hinv.
  assert (∀ x, x ∈ visited st → reachable succ entry x) as Hsound.
  { eapply (dfs_visited_sound succ (reachable succ entry)); [| | |exact H].
    - intros x y Hx Hy. by eapply reach_step.
    - constructor.
    - simpl. set_solver. }
  split.
  - intros i Hi. destruct (pi_table _ _ D1 _ Hi) as (v & Hv1 & Hv2).
    exists v. repeat split; try done. apply Hsound, D4. eauto.
  - intros v Hv. apply D3, D4 in Hv as [i Hi].
    destruct (di_index _ Hinv _ _ Hi). eauto.
Qed.

Lemma construct_inv succ fuel entry numVertices d :
  construct succ fuel entry numVertices = Ok d →
  ∃ st1 st, dfs succ fuel entry (init_state numVertices) = Ok st1
            ∧ lengauerTarjanDominator succ fuel entry numVertices = Ok st
            ∧ (numVertices ≤ size_max → pass_ext st1 st)
            ∧ vertices d = m_vertex st
            ∧ vertexIndices d = m_vertexIndex st
            ∧ immediateDominators d = idom st
            ∧ buildDominatorTree (m_vertex st) (idom st) ∅
              = Ok (dominatorTree d).
Proof.
  intros H. unfold construct in H. inv_bind H as st Est.
  inv_bind H as t Et. inv_ok H. simpl.
  pose proof Est as Hlt. unfold lengauerTarjanDominator in Hlt.
  destruct (numVertices =? 0); [discriminate|].
  inv_bind Hlt as st1 E1. inv_bind Hlt as st2 E2.
  exists st1, st. split; [done|]. split; [done|].
  split; [|repeat split; done]. intros Hn.
  destruct (dfs_pass_inv _ _ _ _ _ Hn E1) as (D1 & _).
  destruct (semi_pass_spec _ _ _ _ D1 E2) as (S1 & S2 & S3).
  destruct (fixup_pass_spec _ _ _ S1 S3 Hlt) as (F1 & F2 & F3).
  by eapply pass_ext_trans.
Qed.

Lemma construct_reachable succ fuel entry numVertices d v :
  numVertices ≤ size_max →
  construct succ fuel entry numVertices = Ok d →
  reachable succ entry v →
  ∃ i, vertexIndices d !! v = Some i ∧ vertices d !! N.to_nat i = Some v.
Proof.
  intros Hn Hd Hv.
  destruct (construct_inv _ _ _ _ _ Hd)
    as (st1 & st & E1 & E & Hext & -> & -> & _ & _).
  specialize (Hext Hn).
  destruct (search_exact _ _ _ _ _ Hn E1) as [_ S2].
  destruct (S2 _ Hv) as (i & _ & I2 & I3). exists i.
  rewrite (pe_vertex _ _ Hext). split; [|done].
  eapply lookup_weaken; [exact I2|apply Hext].
Qed.

(** The numbered slots of the vertex table hold exactly the vertices that
    are reachable from the entry, each at the index the map gives it. *)
Theorem vertex_table_exact succ fuel entry numVertices d :
  numVertices ≤ size_max →
  construct succ fuel entry numVertices = Ok d →
  ∃ n, n ≤ numVertices
       ∧ (∀ i, i < n →
               ∃ v, vertices d !! N.to_nat i = Some v
                    ∧ vertexIndices d !! v = Some i
                    ∧ reachable succ entry v)
       ∧ (∀ v, reachable succ entry v →
               ∃ i, i < n ∧ vertexIndices d !! v = Some i
                    ∧ vertices d !! N.to_nat i = Some v).
Proof.
  intros Hn Hd.
  destruct (construct_inv _ _ _ _ _ Hd)
    as (st1 & st & E1 & E & Hext & -> & -> & _ & _).
  specialize (Hext Hn).
  destruct (search_exact _ _ _ _ _ Hn E1) as [S1 S2].
  destruct (dfs_pass_inv _ _ _ _ _ Hn E1) as (_ & _ & _ & _ & _ & D6 & _).
  exists (dfIdx st1). split; [done|]. rewrite (pe_vertex _ _ Hext). split.
  - intros i Hi. destruct (S1 _ Hi) as (v & V1 & V2 & V3). exists v.
    repeat split; try done. eapply lookup_weaken; [exact V2|apply Hext].
  - intros v Hv. destruct (S2 _ Hv) as (i & I1 & I2 & I3). exists i.
    repeat split; try done. eapply lookup_weaken; [exact I2|apply Hext].
Qed.

Lemma reachable_listed succ fuel entry numVertices d l :
  numVertices ≤ size_max →
  construct succ fuel entry numVertices = Ok d →
  NoDup l → (∀ v, v ∈ l → reachable succ entry v) →
  l ⊆+ vertices d.
Proof.
  intros Hn Hd Hnd Hl. apply NoDup_submseteq; [done|].
  intros v Hv.
  destruct (construct_reachable _ _ _ _ _ _ Hn Hd (Hl _ Hv)) as (i & _ & Hi).
  by eapply list_elem_of_lookup_2.
Qed.

(** A construction that completes with every access in range, the only
    kind the embedded constructor returns from, had a slot for every
    reachable vertex.  (In the source an access out of range is undefined
    behaviour, and a run that makes one may return all the same.) *)
Theorem reachable_within_numVertices succ fuel entry numVertices d l :
  numVertices ≤ size_max →
  construct succ fuel entry numVertices = Ok d →
  NoDup l → (∀ v, v ∈ l → reachable succ entry v) →
  (length l ≤ N.to_nat numVertices)%nat.
Proof.
  intros Hn Hd Hnd Hl.
  destruct (construct_analysed _ _ _ _ _ Hn Hd) as [n Ha].
  pose proof (an_size _ _ _ _ _ Ha) as Hsz. unfold vsize in Hsz.
  transitivity (length (vertices d)); [|lia].
  by eapply submseteq_length, reachable_listed.
Qed.

(** ** The dominator tree *)

Lemma tree_loop idomv l :
  ∀ t0 t,
    foreach (fun i t => let* k := vget idomv (N.of_nat i) in
                        Ok (tree_append k (N.of_nat i) t)) l t0 = Ok t →
    ∀ k,
      t !! k
      = if decide (filter (fun i => idomv !! i = Some k) l = []) then t0 !! k
        else Some (default [] (t0 !! k)
                   ++ (N.of_nat <$> filter (fun i => idomv !! i = Some k) l)).
Proof.
  induction l as [|i l IH]; intros t0 t H k; simpl in H.
  - inv_ok H. by rewrite filter_nil, decide_True.
  - inv_bind H as t1 E1. inv_bind E1 as k0 Ek0. inv_ok E1.
    apply vget_Ok in Ek0. rewrite Nat2N.id in Ek0.
    rewrite (IH _ _ H k). unfold tree_append. rewrite lookup_insert.
    destruct (decide (k0 = k)) as [->|Hk].
    + rewrite filter_cons_True by done.
      rewrite (decide_False (P := _ :: _ = [])) by done. simpl.
      destruct (decide (filter _ l = [])) as [->|_]; [done|].
      by rewrite <- app_assoc.
    + rewrite filter_cons_False; [done|]. congruence.
Qed.

Lemma children_of_nil idomv k :
  children_of idomv k = []
  ↔ filter (fun i => idomv !! i = Some k) (seq 1 (length idomv - 1)) = [].
Proof.
  unfold children_of. split; [apply fmap_nil_inv|by intros ->].
Qed.

Lemma tree_lookup_Some mv idomv t k cs :
  buildDominatorTree mv idomv ∅ = Ok t →
  t !! k = Some cs ↔ cs = children_of idomv k ∧ cs ≠ [].
Proof.
  unfold buildDominatorTree. destruct (decide _); [discriminate|].
  destruct (decide _); [discriminate|]. intros H.
  rewrite (tree_loop _ _ _ _ H k), lookup_empty. simpl.
  fold (children_of idomv k).
  destruct (decide _) as [E|E].
  - apply children_of_nil in E. rewrite E. split; [done|]. by intros [-> ?].
  - split.
    + intros [= <-]. split; [done|]. by intros ?%children_of_nil.
    + by intros [-> _].
Qed.

(** [buildDominatorTree] keys the tree by the values of the array and
    appends to what the tree already holds: the list for [k] is extended,
    in increasing order, by the indices from [1] on whose array value is
    [k], and the entry of a [k] that is the value of none of them is left
    as it was.  Called on the empty tree, as the constructor does, it
    gives [k] exactly these indices, and no entry when there is none. *)
Theorem buildDominatorTree_lookup mv idomv t0 t k :
  buildDominatorTree mv idomv t0 = Ok t →
  t !! k = if decide (children_of idomv k = []) then t0 !! k
           else Some (default [] (t0 !! k) ++ children_of idomv k).
Proof.
  unfold buildDominatorTree. destruct (decide _); [discriminate|].
  destruct (decide _); [discriminate|]. intros H.
  rewrite (tree_loop _ _ _ _ H k). fold (children_of idomv k).
  destruct (decide (filter _ _ = [])) as [E|E].
  - apply children_of_nil in E. by rewrite decide_True.
  - rewrite decide_False; [done|]. by intros ?%children_of_nil.
Qed.

Lemma children_of_elem idomv k i :
  i ∈ children_of idomv k ↔
  1 ≤ i ∧ i < vsize idomv ∧ idomv !! N.to_nat i = Some k.
Proof.
  unfold children_of, vsize. rewrite list_elem_of_fmap. split.
  - intros (j & -> & [Hj Hseq%elem_of_seq]%list_elem_of_filter).
    rewrite Nat2N.id. repeat split; [lia|lia|done].
  - intros (H1 & H2 & H3). exists (N.to_nat i). split; [lia|].
    apply list_elem_of_filter. split; [done|]. apply elem_of_seq. lia.
Qed.

Lemma children_of_NoDup idomv k : NoDup (children_of idomv k).
Proof.
  unfold children_of. apply NoDup_fmap_2; [apply _|].
  apply NoDup_filter, NoDup_seq.
Qed.

(** The dominator tree of a constructed analyzer is a tree rooted at index
    [0]: every numbered index but [0] is a child of exactly one node, its
    immediate dominator, whose index is smaller; index [0] is nobody's
    child; and no list of children is empty or repeats an index. *)
Theorem dominatorTree_rooted succ fuel entry numVertices d :
  numVertices ≤ size_max →
  construct succ fuel entry numVertices = Ok d →
  ∃ n, (∀ i, i < n ↔ ∃ v, vertexIndices d !! v = Some i)
       ∧ (∀ i, 1 ≤ i < n →
               ∃ k cs, k < i ∧ dominatorTree d !! k = Some cs ∧ i ∈ cs)
       ∧ (∀ k cs i, dominatorTree d !! k = Some cs → i ∈ cs →
                    i ≠ 0 ∧ immediateDominators d !! N.to_nat i = Some k)
       ∧ (∀ k cs, dominatorTree d !! k = Some cs → cs ≠ [] ∧ NoDup cs).
Proof.
  intros Hn Hd.
  destruct (construct_inv _ _ _ _ _ Hd)
    as (st1 & st & _ & _ & _ & Ev & _ & Ei & Et).
  rewrite <- Ev, <- Ei in Et.
  destruct (construct_analysed _ _ _ _ _ Hn Hd) as [n Ha].
  destruct Ha as [A1 A2 A3 A4 A5 A6 A7 A8 [A9 A10] A11].
  assert (∀ k cs, dominatorTree d !! k = Some cs →
                  cs = children_of (immediateDominators d) k ∧ cs ≠ [])
    as Hchar.
  { intros k cs Hcs. by apply (tree_lookup_Some _ _ _ _ _ Et). }
  exists n. split; [|split; [|split]].
  - intros i. split.
    + intros Hi. destruct (A8 _ Hi) as (v & _ & Hv). eauto.
    + intros [v Hv]. eauto.
  - intros i Hi. destruct (A10 i) as (k & Hk & Hlt); [lia|].
    assert (i ∈ children_of (immediateDominators d) k) as Hin
      by (apply children_of_elem; repeat split; [lia|lia|done]).
    exists k, (children_of (immediateDominators d) k).
    split; [done|]. split; [|done].
    apply (tree_lookup_Some _ _ _ _ _ Et). split; [done|].
    intros E. rewrite E in Hin. inversion Hin.
  - intros k cs i Hcs Hi. destruct (Hchar _ _ Hcs) as [-> _].
    apply children_of_elem in Hi as (H1 & H2 & H3). split; [lia|done].
  - intros k cs Hcs. destruct (Hchar _ _ Hcs) as [-> Hne].
    split; [done|apply children_of_NoDup].
Qed.

(** ** Dominance as the queries compute it *)

(** [dominates(v, v)] is true for every vertex, known or not, whatever the
    arrays hold: the two lookups give the same index and the array is not
    read. *)
Theorem dominates_reflexive fuel v d :
  dominates fuel v v d = Ok (fst (lookup_index v d), true).
Proof.
  unfold dominates. destruct (vertexIndices d !! v) as [i|] eqn:E.
  - rewrite !(lookup_index_present _ _ _ E). simpl. by rewrite N.eqb_refl.
  - rewrite (lookup_index_absent _ _ E). simpl.
    assert (vertexIndices (with_index v d) !! v = Some 0) as E'
      by apply lookup_insert_eq.
    by rewrite (lookup_index_present _ _ _ E').
Qed.

Lemma idom_walk_exists n idomv :
  idom_final n idomv → ∀ j, j < n → ∃ l, idom_walk idomv j l.
Proof.
  intros [H0 Hi] j. induction j as [j IH] using (well_founded_induction N.lt_wf_0).
  intros Hj.
  destruct (decide (j = 0)) as [->|Hj0]; [exists []; constructor|].
  destruct (Hi j) as (k & Hk & Hlt); [lia|].
  destruct (IH k Hlt) as [l Hl]; [lia|].
  exists (j :: l). by econstructor.
Qed.

Lemma idom_walk_fun idomv j l1 :
  idom_walk idomv j l1 → ∀ l2, idom_walk idomv j l2 → l1 = l2.
Proof.
  induction 1 as [|j k l Hj Hk Hlt Hw IH]; intros l2 H2; inversion H2; subst;
    try done.
  f_equal. apply IH. congruence.
Qed.

Lemma idom_walk_bound idomv j l k :
  idom_walk idomv j l → k ∈ l → 0 < k ≤ j.
Proof.
  induction 1 as [|j k' l Hj Hk Hlt Hw IH]; intros Hin; [inversion Hin|].
  apply elem_of_cons in Hin as [->|Hin]; [lia|]. specialize (IH Hin). lia.
Qed.

Lemma idom_walk_suffix idomv j l k :
  idom_walk idomv j l → k ∈ l → ∃ l', idom_walk idomv k l' ∧ l' ⊆ l.
Proof.
  induction 1 as [|j k' l Hj Hk Hlt Hw IH]; intros Hin; [inversion Hin|].
  apply elem_of_cons in Hin as [->|Hin].
  - exists (j :: l). split; [by econstructor|done].
  - destruct (IH Hin) as (l' & H1 & H2). exists l'. split; [done|set_solver].
Qed.

Lemma dominates_walk_char n idomv a fuel :
  idom_final n idomv →
  ∀ j l, j < n → (N.to_nat j < fuel)%nat → idom_walk idomv j l →
         dominates_walk fuel idomv a j = Ok (bool_decide (a = 0 ∨ a ∈ l)).
Proof.
  intros [H0 Hi]. induction fuel as [|f IH]; intros j l Hj Hf Hw; [lia|].
  simpl. inversion Hw as [|j' k l' Hj0 Hk Hlt Hw']; subst.
  - change (0 =? 0) with true. cbv iota. f_equal. symmetry.
    destruct (N.eqb_spec 0 a) as [<-|Hne].
    + apply bool_decide_eq_true_2. by left.
    + apply bool_decide_eq_false_2. intros [?|Hin]; [done|]. inversion Hin.
  - destruct (N.eqb_spec j 0) as [|_]; [done|].
    destruct (N.eqb_spec j a) as [->|Hne].
    + rewrite bool_decide_eq_true_2; [done|]. right. by left.
    + rewrite (proj2 (vget_Ok _ _ _) Hk). simpl.
      rewrite (IH k l') by (done || lia).
      f_equal. apply bool_decide_ext. rewrite elem_of_cons. naive_solver.
Qed.

Section Dominance.
Variables (succ : N → list N) (fuel : nat) (entry numVertices : N).
Variable d : Dominator.
Hypothesis Hsize : numVertices ≤ size_max.
Hypothesis Hd : construct succ fuel entry numVertices = Ok d.

Lemma dominates_char fuel' a b ai bi :
  vertexIndices d !! a = Some ai → vertexIndices d !! b = Some bi →
  (N.to_nat numVertices ≤ fuel')%nat →
  ∃ l, idom_walk (immediateDominators d) bi l
       ∧ dominates fuel' a b d = Ok (d, bool_decide (ai = 0 ∨ ai ∈ l)).
Proof.
  intros Ha Hb Hf. destruct (construct_analysed _ _ _ _ _ Hsize Hd) as [n Han].
  destruct Han as [A1 A2 A3 A4 A5 A6 A7 A8 A9 A11].
  pose proof (A7 _ _ Hb) as Hbn.
  destruct (idom_walk_exists _ _ A9 bi Hbn) as [l Hl]. exists l.
  split; [done|]. unfold dominates.
  rewrite (lookup_index_present _ _ _ Ha), (lookup_index_present _ _ _ Hb).
  destruct (N.eqb_spec ai bi) as [->|Hne].
  { rewrite bool_decide_eq_true_2; [done|].
    inversion Hl; subst; [by left|right; by left]. }
  inversion Hl as [|j k l' Hj0 Hk Hlt Hw']; subst.
  - change (N.to_nat 0) with 0%nat. rewrite (proj2 (vget_Ok _ 0 _) (proj1 A9)).
    simpl. rewrite (dominates_walk_char n _ ai fuel' A9 0 []);
      [done|done|lia|constructor].
  - rewrite (proj2 (vget_Ok _ _ _) Hk). simpl.
    rewrite (dominates_walk_char n _ ai fuel' A9 k l'); [|lia|lia|done].
    simpl. do 2 f_equal. apply bool_decide_ext. rewrite elem_of_cons.
    naive_solver.
Qed.

Lemma reachable_slot v :
  reachable succ entry v →
  ∃ i, vertexIndices d !! v = Some i ∧ vertices d !! N.to_nat i = Some v.
Proof.
  intros Hv. by eapply construct_reachable.
Qed.

End Dominance.

(** A vertex that dominates another was numbered no later; so two reachable
    vertices that dominate each other are the same vertex. *)
Theorem dominates_antisymmetric succ fuel entry numVertices d a b fuel' :
  numVertices ≤ size_max →
  construct succ fuel entry numVertices = Ok d →
  reachable succ entry a → reachable succ entry b →
  (N.to_nat numVertices ≤ fuel')%nat →
  dominates fuel' a b d = Ok (d, true) →
  (∃ ai bi, vertexIndices d !! a = Some ai ∧ vertexIndices d !! b = Some bi
            ∧ ai ≤ bi)
  ∧ (dominates fuel' b a d = Ok (d, true) → a = b).
Proof.
  intros Hn Hd Ha Hb Hf Hab.
  destruct (reachable_slot _ _ _ _ _ Hn Hd _ Ha) as (ai & Hai & Hva).
  destruct (reachable_slot _ _ _ _ _ Hn Hd _ Hb) as (bi & Hbi & Hvb).
  assert (∀ x y xi yi, vertexIndices d !! x = Some xi →
                       vertexIndices d !! y = Some yi →
                       dominates fuel' x y d = Ok (d, true) → xi ≤ yi) as Hle.
  { intros x y xi yi Hx Hy Hxy.
    destruct (dominates_char _ _ _ _ _ Hn Hd fuel' x y xi yi Hx Hy Hf)
      as (l & Hl & E).
    assert (xi = 0 ∨ xi ∈ l) as [->|Hin]
      by (eapply bool_decide_eq_true_1; rewrite E in Hxy; congruence); [lia|].
    pose proof (idom_walk_bound _ _ _ _ Hl Hin). lia. }
  split.
  - exists ai, bi. repeat split; try done. by eapply Hle.
  - intros Hba. pose proof (Hle _ _ _ _ Hai Hbi Hab).
    pose proof (Hle _ _ _ _ Hbi Hai Hba).
    assert (ai = bi) as -> by lia. congruence.
Qed.

(** [dominates] is transitive on the vertices that have an index. *)
Theorem dominates_transitive succ fuel entry numVertices d a b c fuel' :
  numVertices ≤ size_max →
  construct succ fuel entry numVertices = Ok d →
  is_Some (vertexIndices d !! a) → is_Some (vertexIndices d !! b) →
  is_Some (vertexIndices d !! c) →
  (N.to_nat numVertices ≤ fuel')%nat →
  dominates fuel' a b d = Ok (d, true) →
  dominates fuel' b c d = Ok (d, true) →
  dominates fuel' a c d = Ok (d, true).
Proof.
  intros Hn Hd [ai Ha] [bi Hb] [ci Hc] Hf Hab Hbc.
  destruct (dominates_char _ _ _ _ _ Hn Hd fuel' a b ai bi Ha Hb Hf)
    as (lb & Hlb & Eab).
  destruct (dominates_char _ _ _ _ _ Hn Hd fuel' b c bi ci Hb Hc Hf)
    as (lc & Hlc & Ebc).
  destruct (dominates_char _ _ _ _ _ Hn Hd fuel' a c ai ci Ha Hc Hf)
    as (lc' & Hlc' & Eac).
  rewrite (idom_walk_fun _ _ _ Hlc' _ Hlc) in Eac.
  assert (ai = 0 ∨ ai ∈ lb) as Hab'
    by (eapply bool_decide_eq_true_1; rewrite Eab in Hab; congruence).
  assert (bi = 0 ∨ bi ∈ lc) as Hbc'
    by (eapply bool_decide_eq_true_1; rewrite Ebc in Hbc; congruence).
  rewrite Eac. do 2 f_equal. apply bool_decide_eq_true_2.
  destruct Hab' as [->|Hin]; [by left|]. right.
  destruct Hbc' as [->|Hin'].
  { inversion Hlb; subst; [inversion Hin|done]. }
  destruct (idom_walk_suffix _ _ _ _ Hlc Hin') as (l' & Hl' & Hsub).
  rewrite (idom_walk_fun _ _ _ Hlb _ Hl') in Hin. by apply Hsub.
Qed.

Lemma idom_walk_NoDup idomv j l : idom_walk idomv j l → NoDup l.
Proof.
  induction 1 as [|j k l Hj Hk Hlt Hw IH]; constructor; [|done].
  intros Hin. pose proof (idom_walk_bound _ _ _ _ Hw Hin). lia.
Qed.

Lemma vertices_at_elem mv l vs x :
  vertices_at mv l vs →
  x ∈ vs ↔ ∃ k, k ∈ l ∧ mv !! N.to_nat k = Some x.
Proof.
  induction 1 as [|k y l vs Hk _ IH].
  - split; [intros H; inversion H|intros (k & H & _); inversion H].
  - rewrite elem_of_cons, IH. split.
    + intros [->|(k' & H1 & H2)]; [exists k; split; [left|done]|].
      exists k'. split; [by right|done].
    + intros (k' & [->|H1]%elem_of_cons & H2); [left; congruence|].
      right. eauto.
Qed.

Section Dominators.
Variables (succ : N → list N) (fuel : nat) (entry numVertices : N).
Variable d : Dominator.
Hypothesis Hsize : numVertices ≤ size_max.
Hypothesis Hd : construct succ fuel entry numVertices = Ok d.

Lemma dominatorsOf_char fuel' v i :
  vertexIndices d !! v = Some i →
  (N.to_nat numVertices ≤ fuel')%nat →
  ∃ j l vs,
    immediateDominators d !! N.to_nat i = Some j
    ∧ (i ≠ 0 → j < i)
    ∧ idom_walk (immediateDominators d) j l
    ∧ vertices_at (vertices d) l vs
    ∧ dominatorsOf fuel' v d = Ok (d, entry :: vs).
Proof.
  intros Hi Hf. destruct (construct_analysed _ _ _ _ _ Hsize Hd) as [n Ha].
  destruct Ha as [A1 A2 A3 A4 A5 A6 A7 A8 A9 A11].
  pose proof (A7 _ _ Hi) as Hlt.
  assert (∃ j, immediateDominators d !! N.to_nat i = Some j ∧ j < n
               ∧ (i ≠ 0 → j < i)) as (j & Hj & Hjn & Hji).
  { destruct (decide (i = 0)) as [->|Hi0].
    - exists 0. split; [apply A9|done].
    - destruct (proj2 A9 i) as (j & Hj & Hji); [lia|]. exists j.
      split; [done|]. split; [lia|done]. }
  rewrite (dominatorsOf_prefix succ fuel entry numVertices d Hsize Hd fuel' v
             d i eq_refl eq_refl (lookup_index_present _ _ _ Hi) j Hj).
  exists j. destruct (N.eqb_spec j 0) as [->|Hj0].
  { exists [], []. repeat split; try done; constructor. }
  destruct (dominators_walk_spec n (vertices d) (immediateDominators d) fuel'
              A9) with j [entry] as (l & vs & W & V & E); [|done|lia|].
  { intros k Hk. destruct (A8 _ Hk) as (x & Hx & _). eauto. }
  exists l, vs. rewrite E. done.
Qed.

End Dominators.

(** The two queries agree: for reachable [a] and [b], [dominates(a, b)] is
    true exactly when [a] is [b] or a member of [dominatorsOf(b)]. *)
Theorem dominates_iff_dominatorsOf succ fuel entry numVertices d a b fuel' :
  numVertices ≤ size_max →
  construct succ fuel entry numVertices = Ok d →
  reachable succ entry a → reachable succ entry b →
  (N.to_nat numVertices ≤ fuel')%nat →
  ∃ r ds, dominates fuel' a b d = Ok (d, r)
          ∧ dominatorsOf fuel' b d = Ok (d, ds)
          ∧ (r = true ↔ a = b ∨ a ∈ ds).
Proof.
  intros Hn Hd Ha Hb Hf.
  destruct (reachable_slot _ _ _ _ _ Hn Hd _ Ha) as (ai & Hai & Hva).
  destruct (reachable_slot _ _ _ _ _ Hn Hd _ Hb) as (bi & Hbi & Hvb).
  destruct (dominates_char _ _ _ _ _ Hn Hd fuel' a b ai bi Hai Hbi Hf)
    as (lb & Hlb & Edom).
  destruct (dominatorsOf_char _ _ _ _ _ Hn Hd fuel' b bi Hbi Hf)
    as (j & l & vs & Hj & Hji & Hl & Hvs & Eds).
  destruct (construct_analysed _ _ _ _ _ Hn Hd) as [n Han].
  destruct Han as [A1 A2 A3 A4 A5 A6 A7 A8 A9 A11].
  pose proof (A7 _ _ Hbi) as Hbn.
  assert (lb = if decide (bi = 0) then [] else bi :: l) as Hlb'.
  { inversion Hlb as [|j' k l' Hj0 Hk Hlt Hw']; subst; [done|].
    rewrite decide_False by done. f_equal.
    rewrite Hj in Hk. inv_ok Hk. by eapply idom_walk_fun. }
  assert (bi = 0 → l = []) as Hl0.
  { intros ->. change (N.to_nat 0) with 0%nat in Hj.
    rewrite (proj1 A9) in Hj. inv_ok Hj. by inversion Hl. }
  eexists _, _. split; [exact Edom|]. split; [exact Eds|].
  rewrite bool_decide_eq_true, elem_of_cons, (vertices_at_elem _ _ _ _ Hvs).
  split.
  - intros [->|Hin].
    + right; left. change (N.to_nat 0) with 0%nat in Hva. congruence.
    + rewrite Hlb' in Hin. destruct (decide (bi = 0)); [inversion Hin|].
      apply elem_of_cons in Hin as [->|Hin]; [left; congruence|].
      right; right. eauto.
  - intros [->|[->|(k & Hk & Hvk)]].
    + rewrite Hlb'. assert (ai = bi) as -> by congruence.
      destruct (decide (bi = 0)); [by left|right; by left].
    + left. congruence.
    + destruct (decide (bi = 0)) as [Hb0|Hb0].
      { rewrite (Hl0 Hb0) in Hk. inversion Hk. }
      pose proof (idom_walk_bound _ _ _ _ Hl Hk) as Hkj.
      specialize (Hji Hb0).
      destruct (A8 k) as (x & Hx1 & Hx2); [lia|].
      assert (x = a) as -> by congruence.
      assert (ai = k) as -> by congruence.
      right. rewrite Hlb'. by right.
Qed.

(** The immediate dominator dominates: for a reachable vertex other than
    the entry, the vertex stored at its [idom] index has a smaller index
    and [dominates] it. *)
Theorem immediate_dominator_dominates succ fuel entry numVertices d v fuel' :
  numVertices ≤ size_max →
  construct succ fuel entry numVertices = Ok d →
  reachable succ entry v → v ≠ entry →
  (N.to_nat numVertices ≤ fuel')%nat →
  ∃ i j u, vertexIndices d !! v = Some i
           ∧ immediateDominators d !! N.to_nat i = Some j ∧ j < i
           ∧ vertices d !! N.to_nat j = Some u
           ∧ dominates fuel' u v d = Ok (d, true).
Proof.
  intros Hn Hd Hv Hne Hf.
  destruct (reachable_slot _ _ _ _ _ Hn Hd _ Hv) as (i & Hi & Hvi).
  destruct (construct_analysed _ _ _ _ _ Hn Hd) as [n Han].
  destruct Han as [A1 A2 A3 A4 A5 A6 A7 A8 A9 A11].
  pose proof (A7 _ _ Hi) as Hin.
  assert (i ≠ 0) as Hi0.
  { intros ->. change (N.to_nat 0) with 0%nat in Hvi. congruence. }
  destruct (proj2 A9 i) as (j & Hj & Hji); [lia|].
  destruct (A8 j) as (u & Hu1 & Hu2); [lia|].
  exists i, j, u. repeat split; try done.
  destruct (dominates_char _ _ _ _ _ Hn Hd fuel' u v j i Hu2 Hi Hf)
    as (l & Hl & E).
  rewrite E. do 2 f_equal. apply bool_decide_eq_true_2.
  inversion Hl as [|i' k l' _ Hk _ Hw]; subst; [done|].
  rewrite Hj in Hk. inv_ok Hk.
  inversion Hw; subst; [by left|right; right; by left].
Qed.

(** [dominatorsOf] of a reachable vertex lists no vertex twice. *)
Theorem dominatorsOf_NoDup succ fuel entry numVertices d v fuel' :
  numVertices ≤ size_max →
  construct succ fuel entry numVertices = Ok d →
  reachable succ entry v →
  (N.to_nat numVertices ≤ fuel')%nat →
  ∃ ds, dominatorsOf fuel' v d = Ok (d, ds) ∧ NoDup ds.
Proof.
  intros Hn Hd Hv Hf.
  destruct (reachable_slot _ _ _ _ _ Hn Hd _ Hv) as (i & Hi & Hvi).
  destruct (dominatorsOf_char _ _ _ _ _ Hn Hd fuel' v i Hi Hf)
    as (j & l & vs & Hj & Hji & Hl & Hvs & Eds).
  destruct (construct_analysed _ _ _ _ _ Hn Hd) as [n Han].
  destruct Han as [A1 A2 A3 A4 A5 A6 A7 A8 A9 A11].
  pose proof (A7 _ _ Hi) as Hin.
  assert (j < n) as Hjn.
  { destruct (decide (i = 0)) as [->|Hi0]; [|specialize (Hji Hi0); lia].
    change (N.to_nat 0) with 0%nat in Hj. rewrite (proj1 A9) in Hj.
    by inv_ok Hj. }
  assert (∀ k x, k ∈ l → vertices d !! N.to_nat k = Some x →
                 vertexIndices d !! x = Some k) as Hidx.
  { intros k x Hk Hx. pose proof (idom_walk_bound _ _ _ _ Hl Hk).
    destruct (A8 k) as (y & Hy1 & Hy2); [lia|]. congruence. }
  eexists. split; [exact Eds|]. constructor.
  - rewrite (vertices_at_elem _ _ _ _ Hvs). intros (k & Hk & Hx).
    pose proof (Hidx _ _ Hk Hx). pose proof (idom_walk_bound _ _ _ _ Hl Hk).
    assert (k = 0) by congruence. lia.
  - pose proof (idom_walk_NoDup _ _ _ Hl) as Hnd. clear Eds Hl.
    induction Hvs as [|k x l vs Hk Hvs IH]; [constructor|].
    apply NoDup_cons in Hnd as [Hnk Hnd]. constructor.
    + rewrite (vertices_at_elem _ _ _ _ Hvs). intros (k' & Hk' & Hx').
      assert (vertexIndices d !! x = Some k) by (apply Hidx; [left|done]).
      assert (vertexIndices d !! x = Some k') by (apply Hidx; [by right|done]).
      congruence.
    + apply IH; [|done]. intros k' x' Hk'. apply Hidx. by right.
Qed.

(** ** Assertions *)

Lemma bind_not_assert {A B} (r : res A) (k : A → res B) :
  r ≠ AssertFail → (∀ a, r = Ok a → k a ≠ AssertFail) →
  bind r k ≠ AssertFail.
Proof. destruct r; simpl; auto; discriminate. Qed.

Lemma vget_not_assert {A} (l : list A) i : vget l i ≠ AssertFail.
Proof.
  unfold vget. destruct (_ <? _); [|discriminate].
  destruct (_ !! _); discriminate.
Qed.

Lemma vset_not_assert {A} (l : list A) i x : vset l i x ≠ AssertFail.
Proof. unfold vset. destruct (_ <? _); discriminate. Qed.

Ltac not_assert :=
  repeat first
    [ apply vget_not_assert
    | apply vset_not_assert
    | discriminate
    | apply bind_not_assert; [|intros ? ?]
    | match goal with
      | |- (if ?b then _ else _) ≠ AssertFail => destruct b
      end ].

Lemma foreach_not_assert {A S} (body : A → S → res S) l :
  (∀ x st, x ∈ l → body x st ≠ AssertFail) →
  ∀ st, foreach body l st ≠ AssertFail.
Proof.
  induction l as [|x l IH]; intros Hb st; simpl; [discriminate|].
  apply bind_not_assert; [apply Hb; left|].
  intros st' _. apply IH. intros y s Hy. apply Hb. by right.
Qed.

(** The assertion of [compressPath] holds at every recursive call once it
    holds at the first. *)
Lemma compressPath_not_assert sem fuel :
  ∀ v anc lab,
    (∀ av, vget anc v = Ok av → av ≠ size_max) →
    compressPath fuel anc lab sem v ≠ AssertFail.
Proof.
  induction fuel as [|f IH]; intros v anc lab Hv; [discriminate|].
  simpl. apply bind_not_assert; [apply vget_not_assert|]. intros av Eav.
  destruct (N.eqb_spec av size_max) as [Hav|_]; [by destruct (Hv _ Eav)|].
  apply bind_not_assert; [apply vget_not_assert|]. intros au Eau.
  destruct (N.eqb_spec au size_max) as [|Hau]; [discriminate|].
  apply bind_not_assert.
  - apply IH. intros x Ex. congruence.
  - intros [anc1 lab1] _. not_assert.
Qed.

Lemma eval_not_assert fuel v st : eval fuel v st ≠ AssertFail.
Proof.
  unfold eval. apply bind_not_assert; [apply vget_not_assert|].
  intros av Eav. destruct (N.eqb_spec av size_max) as [|Hav]; [discriminate|].
  apply bind_not_assert.
  - apply compressPath_not_assert. intros x Ex. congruence.
  - intros [anc lab] _. not_assert.
Qed.

Lemma process_index_not_assert fuel w st :
  process_index fuel w st ≠ AssertFail.
Proof.
  unfold process_index.
  apply bind_not_assert; [apply vget_not_assert|]. intros bw _.
  apply bind_not_assert.
  { apply foreach_not_assert. intros v s _. unfold bucket_step.
    apply bind_not_assert; [apply eval_not_assert|].
    intros [s1 u] _. not_assert. }
  intros st1 _. apply bind_not_assert; [apply vget_not_assert|].
  intros pw _. apply bind_not_assert.
  { apply foreach_not_assert. intros v s _. unfold semi_step.
    apply bind_not_assert; [apply eval_not_assert|].
    intros [s1 u] _. not_assert. }
  intros st2 _. unfold link. not_assert.
Qed.

Lemma dfs_not_assert succ fuel : ∀ v st, dfs succ fuel v st ≠ AssertFail.
Proof.
  induction fuel as [|f IH]; intros v st; [discriminate|].
  simpl. destruct (decide _); [discriminate|].
  apply bind_not_assert; [apply vset_not_assert|]. intros mv _.
  apply bind_not_assert; [apply vset_not_assert|]. intros sm _.
  apply bind_not_assert; [apply vset_not_assert|]. intros lb _.
  apply foreach_not_assert. intros w s _. unfold visit_successor.
  apply bind_not_assert; [apply vget_not_assert|]. intros sx _.
  apply bind_not_assert.
  - destruct (sx =? size_max); [|discriminate].
    destruct (index_of v s) as [s0 iv].
    apply bind_not_assert; [apply vset_not_assert|]. intros par _. apply IH.
  - intros s1 _. destruct (index_of w s1) as [s2 iw].
    destruct (index_of v s2) as [s3 iv]. not_assert.
Qed.

Lemma lengauerTarjanDominator_not_assert succ fuel entry numVertices :
  numVertices ≠ 0 →
  lengauerTarjanDominator succ fuel entry numVertices ≠ AssertFail.
Proof.
  intros Hne. unfold lengauerTarjanDominator.
  destruct (N.eqb_spec numVertices 0) as [|_]; [done|].
  apply bind_not_assert; [apply dfs_not_assert|]. intros st1 _.
  apply bind_not_assert.
  - apply foreach_not_assert. intros it s _. unfold process_vertex.
    destruct (index_of it s). apply process_index_not_assert.
  - intros st2 _. unfold fixup_pass.
    apply bind_not_assert; [apply vset_not_assert|]. intros id _.
    apply foreach_not_assert. intros it s _. unfold fixup_vertex.
    destruct (index_of it s). not_assert.
Qed.

Lemma construct_not_assert succ fuel entry numVertices :
  numVertices ≤ size_max → numVertices ≠ 0 →
  construct succ fuel entry numVertices ≠ AssertFail.
Proof.
  intros Hn Hne. unfold construct. apply bind_not_assert.
  - by apply lengauerTarjanDominator_not_assert.
  - intros st Hst.
    destruct (construct_returns _ _ _ _ _ Hn Hst) as (d & Hd & _).
    unfold construct in Hd. rewrite Hst in Hd. simpl in Hd.
    intros E. destruct (buildDominatorTree _ _ _); simpl in *; discriminate.
Qed.

(** The constructor trips an assertion exactly on [numVertices = 0]: the
    assertion of [compressPath] and the two of [buildDominatorTree] never
    fail. *)
Theorem construct_assert_iff succ fuel entry numVertices :
  numVertices ≤ size_max →
  construct succ fuel entry numVertices = AssertFail ↔ numVertices = 0.
Proof.
  intros Hn. split.
  - intros H. destruct (N.eqb_spec numVertices 0) as [|Hne]; [done|].
    by destruct (construct_not_assert succ fuel entry _ Hn Hne).
  - intros ->. reflexivity.
Qed.

(** ** Constructions that use every slot *)

(** A numbered slot keeps its vertex. *)
Lemma slot_stable st st' i x :
  dfs_inv st → dfs_inv st' → dfs_ext st st' → i < dfIdx st →
  m_vertex st' !! N.to_nat i = Some x → m_vertex st !! N.to_nat i = Some x.
Proof.
  intros Hinv Hinv' Hext Hi Hx.
  pose proof (di_bound _ Hinv) as Hb. unfold vsize in Hb.
  destruct (lookup_lt_is_Some_2 (m_vertex st) (N.to_nat i)) as [y Hy]; [lia|].
  pose proof (di_table _ Hinv _ _ Hi Hy) as Hidx.
  pose proof (lookup_weaken _ _ _ _ Hidx (de_index _ _ Hext)) as Hidx'.
  destruct (di_index _ Hinv' _ _ Hidx') as [_ Hy']. congruence.
Qed.

Section LastSlot.
Variable successors : N → list N.

Lemma last_is_leaf_trans st1 st2 st3 :
  dfs_inv st2 → dfs_inv st3 → dfs_ext st1 st2 → dfs_ext st2 st3 →
  last_is_leaf successors st1 st2 → last_is_leaf successors st2 st3 →
  last_is_leaf successors st1 st3.
Proof.
  intros Hinv2 Hinv3 H12 H23 L12 L23 i x Hi Hlast Hx.
  destruct (decide (i < dfIdx st2)) as [Hlt|Hge].
  - apply (L12 i x).
    + pose proof (de_dfIdx _ _ H12). lia.
    + unfold vsize in *. by rewrite <- (de_length _ _ H23).
    + by eapply slot_stable.
  - apply (L23 i x); [lia|done|done].
Qed.

Lemma visit_successor_last (rec : N → LT → res LT) v w st st' iv :
  (∀ s s', dfs_inv s → pre_parent s →
           length (semi s) = length (m_vertex s) → rec w s = Ok s' →
           dfs_post successors w s s'
           ∧ length (semi s') = length (m_vertex s')
           ∧ last_is_leaf successors s s') →
  dfs_inv st → m_vertexIndex st !! v = Some iv →
  length (semi st) = length (m_vertex st) →
  visit_successor rec v w st = Ok st' →
  dfs_inv st' ∧ dfs_ext st st'
  ∧ length (semi st') = length (m_vertex st')
  ∧ dfIdx st < vsize (m_vertex st)
  ∧ last_is_leaf successors st st'.
Proof.
  intros Hrec Hinv Hv Hlen H.
  unfold visit_successor in H.
  inv_bind H as s Es.
  assert (dfIdx st < vsize (m_vertex st)) as Hroom.
  { unfold vget in Es. unfold vsize in *. rewrite <- Hlen.
    by destruct (N.ltb_spec (dfIdx st) (N.of_nat (length (semi st)))). }
  apply vget_Ok in Es.
  assert (s = size_max) as -> by (eapply (di_semi_hi _ Hinv); [|done]; lia).
  rewrite N.eqb_refl in H. inv_bind H as st1 E1.
  rewrite (index_of_present _ _ _ Hv) in E1. inv_bind E1 as par Epar.
  pose proof (di_index _ Hinv _ _ Hv) as [Hiv _].
  destruct (visit_parent_inv _ _ _ Hinv Hiv Epar) as (Hinvp & Hprep & Hextp).
  destruct (Hrec _ _ Hinvp Hprep Hlen E1) as (Hpost & Hlen1 & Hleaf1).
  pose proof (dp_inv _ _ _ _ Hpost) as Hinv1.
  pose proof (dp_ext _ _ _ _ Hpost) as Hext1.
  pose proof (dp_visited _ _ _ _ Hpost) as Hw1.
  apply (di_visited _ Hinv1) in Hw1 as [iw Hiw].
  assert (m_vertexIndex st1 !! v = Some iv) as Hv1.
  { eapply lookup_weaken; [exact Hv|]. etrans; [apply Hextp|apply Hext1]. }
  rewrite (index_of_present _ _ _ Hiw), (index_of_present _ _ _ Hv1) in H.
  inv_bind H as ps Eps. inv_bind H as preds Epreds. inv_ok H.
  assert (dfs_ext st1 (set_predecessors st1 preds)) as Hext'.
  { split; simpl; try done.
    intros i qs Hqs. rewrite (vset_lookup _ _ _ _ _ Epreds). case_decide.
    - subst i. apply vget_Ok in Eps. exists (set_insert iv ps).
      split; [done|]. intros q Hq. apply set_insert_elem. right. congruence.
    - by exists qs. }
  assert (dfs_inv (set_predecessors st1 preds)) as Hinv'.
  { destruct Hinv1 as [Hb Hsz Hslo Hshi Hlab Hidx Htab Hvis Hpr Hroot Hpar].
    split; simpl; try done.
    intros i qs p. rewrite (vset_lookup _ _ _ _ _ Epreds). case_decide.
    + intros [= <-] [->|Hp]%set_insert_elem.
      * pose proof (de_dfIdx _ _ Hext1). simpl in *. lia.
      * apply vget_Ok in Eps. eapply Hpr; eauto.
    + apply Hpr. }
  split; [done|]. split.
  { eapply dfs_ext_trans; [exact Hextp|]. by eapply dfs_ext_trans. }
  split; [done|]. split; [done|].
  intros i x Hi Hlast Hx. simpl in *. by apply (Hleaf1 i x).
Qed.

Lemma visit_loop_last (rec : N → LT → res LT) v iv :
  (∀ w s s', dfs_inv s → pre_parent s →
             length (semi s) = length (m_vertex s) → rec w s = Ok s' →
             dfs_post successors w s s'
             ∧ length (semi s') = length (m_vertex s')
             ∧ last_is_leaf successors s s') →
  ∀ ws st st',
    dfs_inv st → m_vertexIndex st !! v = Some iv →
    length (semi st) = length (m_vertex st) →
    foreach (visit_successor rec v) ws st = Ok st' →
    dfs_inv st' ∧ dfs_ext st st'
    ∧ length (semi st') = length (m_vertex st')
    ∧ (ws ≠ [] → dfIdx st < vsize (m_vertex st))
    ∧ last_is_leaf successors st st'.
Proof.
  intros Hrec ws. induction ws as [|w ws IH]; intros st st' Hinv Hv Hlen H.
  - simpl in H. inv_ok H. split; [done|]. split; [apply dfs_ext_refl|].
    split; [done|]. split; [done|]. intros i x Hi. lia.
  - simpl in H. inv_bind H as st1 E1.
    destruct (visit_successor_last rec v w st st1 iv (Hrec w) Hinv Hv Hlen E1)
      as (Hinv1 & Hext1 & Hlen1 & Hroom & Hleaf1).
    assert (m_vertexIndex st1 !! v = Some iv) as Hv1
      by (eapply lookup_weaken; [exact Hv|apply Hext1]).
    destruct (IH _ _ Hinv1 Hv1 Hlen1 H) as (Hinv' & Hext' & Hlen' & _ & Hleaf').
    split; [done|]. split; [by eapply dfs_ext_trans|]. split; [done|].
    split; [done|].
    eapply (last_is_leaf_trans st st1 st'); done.
Qed.

Lemma dfs_last fuel :
  ∀ v st st',
    dfs_inv st → pre_parent st →
    length (semi st) = length (m_vertex st) →
    dfs successors fuel v st = Ok st' →
    dfs_post successors v st st'
    ∧ length (semi st') = length (m_vertex st')
    ∧ last_is_leaf successors st st'.
Proof.
  induction fuel as [|f IH]; intros v st st' Hinv Hpre Hlen H; [discriminate|].
  split; [by eapply dfs_spec|].
  simpl in H. destruct (decide (v ∈ visited st)) as [Hv|Hv].
  { inv_ok H. split; [done|]. intros i x Hi. lia. }
  inv_bind H as mv Emv. inv_bind H as sm Esm. inv_bind H as lb Elb.
  simpl in *.
  match type of H with
  | foreach _ _ ?s = _ => change s with (dfs_enter v mv sm lb st) in H
  end.
  destruct (dfs_enter_spec _ _ _ _ _ Hinv Hpre Hv Emv Esm Elb)
    as (Hinvb & Hextb & Hvb & Hdfb).
  assert (length (semi (dfs_enter v mv sm lb st))
          = length (m_vertex (dfs_enter v mv sm lb st))) as Hlenb.
  { simpl. rewrite (vset_length _ _ _ _ Esm), (vset_length _ _ _ _ Emv).
    done. }
  destruct (visit_loop_last (dfs successors f) v _ IH _ _ _ Hinvb Hvb Hlenb H)
    as (Hinv' & Hext' & Hlen' & Hroom & Hleaf').
  split; [done|]. intros i x Hi Hlast Hx.
  destruct (decide (i = dfIdx st)) as [->|Hne].
  - assert (x = v) as ->.
    { pose proof (lookup_weaken _ _ _ _ Hvb (de_index _ _ Hext')) as Hv'.
      destruct (di_index _ Hinv' _ _ Hv') as [_ Hv'']. congruence. }
    destruct (successors v) as [|w ws] eqn:Esucc; [done|]. exfalso.
    assert (dfIdx (dfs_enter v mv sm lb st)
            < vsize (m_vertex (dfs_enter v mv sm lb st))) as Hlt
      by (by apply Hroom).
    unfold vsize in *. rewrite <- (de_length _ _ Hext') in Hlt. lia.
  - apply (Hleaf' i x); [lia|done|done].
Qed.

End LastSlot.

(** A construction that completes with every access in range, the only
    kind the embedded constructor returns from, and whose last slot has
    been numbered gave that slot to a vertex without successors: the
    visitor reads [semi[dfIdx]] before anything else, so visiting a
    successor once the table is full is an access out of range. *)
Theorem full_table_last_is_leaf succ fuel entry numVertices d v :
  numVertices ≤ size_max →
  construct succ fuel entry numVertices = Ok d →
  vertices d !! N.to_nat (numVertices - 1) = Some v →
  vertexIndices d !! v = Some (numVertices - 1) →
  succ v = [].
Proof.
  intros Hn Hd Hslot Hidx.
  destruct (construct_inv _ _ _ _ _ Hd)
    as (st1 & st & E1 & E & Hext & Ev & Ei & _ & _).
  specialize (Hext Hn). rewrite Ev in Hslot. rewrite Ei in Hidx.
  pose proof (lengauerTarjanDominator_spec _ _ _ _ _ Hn E) as Hp.
  pose proof (pi_index _ _ (lp_pass _ _ _ _ Hp) _ _ Hidx) as Hlt.
  pose proof (lp_bound _ _ _ _ Hp) as Hb.
  pose proof (lp_size _ _ _ _ Hp) as Hsz.
  rewrite (pe_dfIdx _ _ Hext) in Hlt, Hb.
  rewrite (pe_vertex _ _ Hext) in Hslot, Hsz.
  assert (pre_parent (init_state numVertices)) as Hpre by (by intros []).
  assert (length (semi (init_state numVertices))
          = length (m_vertex (init_state numVertices))) as Hlen
    by (simpl; by rewrite !length_replicate).
  destruct (dfs_last succ fuel entry _ _ (init_state_inv _ Hn) Hpre Hlen E1)
    as (_ & _ & Hleaf).
  apply (Hleaf (numVertices - 1) v); simpl; [lia|lia|done].
Qed.

(** ** The predecessor sets of the search *)

Lemma set_insert_sorted x s :
  ascending s → ascending (set_insert x s).
Proof.
  induction s as [|y s IH]; simpl.
  - by split.
  - intros [Hy Hs]. destruct (N.ltb_spec x y) as [Hlt|Hge].
    + split; [|done]. constructor; [done|].
      eapply Forall_impl; [exact Hy|]. intros z Hz. simpl in Hz. lia.
    + destruct (N.eqb_spec x y) as [->|Hne]; [done|].
      split; [|by apply IH]. apply Forall_forall. intros z Hz.
      apply set_insert_elem in Hz as [->|Hz]; [lia|].
      by apply (proj1 (Forall_forall _ _) Hy).
Qed.

(** A numbered slot keeps its vertex from then on. *)
Lemma slot_kept st st' i x :
  dfs_inv st → dfs_inv st' → dfs_ext st st' → i < dfIdx st →
  m_vertex st !! N.to_nat i = Some x → m_vertex st' !! N.to_nat i = Some x.
Proof.
  intros Hinv Hinv' Hext Hi Hx.
  pose proof (di_table _ Hinv _ _ Hi Hx) as Hidx.
  pose proof (lookup_weaken _ _ _ _ Hidx (de_index _ _ Hext)) as Hidx'.
  by destruct (di_index _ Hinv' _ _ Hidx').
Qed.

Lemma edge_recorded_ext st st' x y :
  dfs_ext st st' → edge_recorded st x y → edge_recorded st' x y.
Proof.
  intros Hext (ix & iy & ps & H1 & H2 & H3 & H4).
  destruct (de_preds _ _ Hext _ _ H3) as (ps' & H5 & H6).
  exists ix, iy, ps'. repeat split.
  - eapply lookup_weaken; [exact H1|apply Hext].
  - eapply lookup_weaken; [exact H2|apply Hext].
  - done.
  - by apply H6.
Qed.

Lemma preds_complete_trans succ st1 st2 st3 :
  dfs_ext st2 st3 →
  preds_complete succ st1 st2 → preds_complete succ st2 st3 →
  preds_complete succ st1 st3.
Proof.
  intros H23 C12 C23 x y Hx Hnx Hy.
  destruct (decide (x ∈ visited st2)).
  - eapply edge_recorded_ext; [exact H23|]. by apply C12.
  - by apply C23.
Qed.

(** Steps that leave the predecessor sets and the numbered slots alone. *)
Lemma preds_sound_frame succ st st' :
  preds_sound succ st →
  predecessors st' = predecessors st → dfIdx st ≤ dfIdx st' →
  (∀ i x, i < dfIdx st → m_vertex st !! N.to_nat i = Some x →
          m_vertex st' !! N.to_nat i = Some x) →
  preds_sound succ st'.
Proof.
  intros Hs Hp Hd Hm i ps Hps. rewrite Hp in Hps.
  destruct (Hs _ _ Hps) as [S1 S2]. split; [done|].
  intros p Hin. destruct (S2 _ Hin) as (P1 & P2 & x & y & X1 & X2 & X3).
  split; [lia|]. split; [lia|]. exists x, y. repeat split; auto.
Qed.

Section Predecessors.
Variable successors : N → list N.

Lemma visit_successor_preds (rec : N → LT → res LT) v w st st' iv :
  (∀ s s', dfs_inv s → pre_parent s → preds_sound successors s →
           rec w s = Ok s' →
           dfs_post successors w s s' ∧ preds_sound successors s'
           ∧ preds_complete successors s s') →
  dfs_inv st → m_vertexIndex st !! v = Some iv → w ∈ successors v →
  preds_sound successors st →
  visit_successor rec v w st = Ok st' →
  dfs_inv st' ∧ dfs_ext st st' ∧ preds_sound successors st'
  ∧ preds_complete successors st st' ∧ edge_recorded st' v w.
Proof.
  intros Hrec Hinv Hv Hw Hsound H. unfold visit_successor in H.
  inv_bind H as s Es. apply vget_Ok in Es.
  assert (s = size_max) as -> by (eapply (di_semi_hi _ Hinv); [|done]; lia).
  rewrite N.eqb_refl in H. inv_bind H as st1 E1.
  rewrite (index_of_present _ _ _ Hv) in E1. inv_bind E1 as par Epar.
  pose proof (di_index _ Hinv _ _ Hv) as [Hiv Hslotv].
  destruct (visit_parent_inv _ _ _ Hinv Hiv Epar) as (Hinvp & Hprep & Hextp).
  assert (preds_sound successors (set_parent st par)) as Hsoundp.
  { eapply preds_sound_frame; [exact Hsound|done|simpl; lia|done]. }
  destruct (Hrec _ _ Hinvp Hprep Hsoundp E1) as (Hpost & Hsound1 & Hcomp1).
  pose proof (dp_inv _ _ _ _ Hpost) as Hinv1.
  pose proof (dp_ext _ _ _ _ Hpost) as Hext1.
  pose proof (dp_visited _ _ _ _ Hpost) as Hw1.
  apply (di_visited _ Hinv1) in Hw1 as [iw Hiw].
  assert (m_vertexIndex st1 !! v = Some iv) as Hv1.
  { eapply lookup_weaken; [exact Hv|]. etrans; [apply Hextp|apply Hext1]. }
  rewrite (index_of_present _ _ _ Hiw), (index_of_present _ _ _ Hv1) in H.
  inv_bind H as ps Eps. inv_bind H as preds Epreds. inv_ok H.
  apply vget_Ok in Eps.
  set (st' := set_predecessors st1 preds).
  assert (dfs_ext st1 st') as Hext'.
  { split; simpl; try done.
    intros i qs Hqs. rewrite (vset_lookup _ _ _ _ _ Epreds). case_decide.
    - subst i. exists (set_insert iv ps).
      split; [done|]. intros q Hq. apply set_insert_elem. right. congruence.
    - by exists qs. }
  destruct (di_index _ Hinv1 _ _ Hiw) as [Hiwlt Hslotw].
  destruct (di_index _ Hinv1 _ _ Hv1) as [Hivlt Hslotv1].
  assert (dfs_inv st') as Hinv'.
  { destruct Hinv1 as [Hb Hsz Hslo Hshi Hlab Hidx Htab Hvis Hpr Hroot Hpar].
    split; simpl; try done.
    intros i qs p. rewrite (vset_lookup _ _ _ _ _ Epreds). case_decide.
    + intros [= <-] [->|Hp]%set_insert_elem; [done|]. eapply Hpr; eauto.
    + apply Hpr. }
  split; [done|]. split.
  { eapply dfs_ext_trans; [exact Hextp|]. by eapply dfs_ext_trans. }
  split; [|split].
  - intros i qs. simpl. rewrite (vset_lookup _ _ _ _ _ Epreds). case_decide.
    + subst i. intros [= <-]. destruct (Hsound1 _ _ Eps) as [S1 S2].
      split; [by apply set_insert_sorted|].
      intros p [->|Hp]%set_insert_elem; [|by apply S2].
      split; [done|]. split; [done|]. exists v, w. done.
    + apply Hsound1.
  - intros x y Hx Hnx Hy. eapply edge_recorded_ext; [exact Hext'|].
    apply Hcomp1; done.
  - exists iv, iw, (set_insert iv ps). simpl.
    rewrite (vset_lookup _ _ _ _ _ Epreds), decide_True by done.
    repeat split; try done. apply set_insert_elem. by left.
Qed.

Lemma visit_loop_preds (rec : N → LT → res LT) v iv :
  (∀ w s s', dfs_inv s → pre_parent s → preds_sound successors s →
             rec w s = Ok s' →
             dfs_post successors w s s' ∧ preds_sound successors s'
             ∧ preds_complete successors s s') →
  ∀ ws st st',
    dfs_inv st → m_vertexIndex st !! v = Some iv →
    (∀ w, w ∈ ws → w ∈ successors v) →
    preds_sound successors st →
    foreach (visit_successor rec v) ws st = Ok st' →
    dfs_inv st' ∧ dfs_ext st st' ∧ preds_sound successors st'
    ∧ preds_complete successors st st'
    ∧ ∀ w, w ∈ ws → edge_recorded st' v w.
Proof.
  intros Hrec ws. induction ws as [|w ws IH];
    intros st st' Hinv Hv Hws Hsound H.
  - simpl in H. inv_ok H. split; [done|]. split; [apply dfs_ext_refl|].
    split; [done|]. split; [by intros x y ? ?|]. intros w Hw. inversion Hw.
  - simpl in H. inv_bind H as st1 E1.
    assert (w ∈ successors v) as Hw by (apply Hws; left).
    assert (∀ w', w' ∈ ws → w' ∈ successors v) as Hws'
      by (intros w' Hw'; apply Hws; by right).
    destruct (visit_successor_preds rec v w st st1 iv (Hrec w) Hinv Hv
                Hw Hsound E1)
      as (Hinv1 & Hext1 & Hsound1 & Hcomp1 & Hrec1).
    assert (m_vertexIndex st1 !! v = Some iv) as Hv1
      by (eapply lookup_weaken; [exact Hv|apply Hext1]).
    destruct (IH _ _ Hinv1 Hv1 Hws' Hsound1 H)
      as (Hinv' & Hext' & Hsound' & Hcomp' & Hrec').
    split; [done|]. split; [by eapply dfs_ext_trans|]. split; [done|].
    split; [by eapply preds_complete_trans|].
    intros w' [->|Hw']%elem_of_cons; [|by apply Hrec'].
    by eapply edge_recorded_ext.
Qed.

Lemma dfs_preds fuel :
  ∀ v st st',
    dfs_inv st → pre_parent st → preds_sound successors st →
    dfs successors fuel v st = Ok st' →
    dfs_post successors v st st' ∧ preds_sound successors st'
    ∧ preds_complete successors st st'.
Proof.
  induction fuel as [|f IH]; intros v st st' Hinv Hpre Hsound H;
    [discriminate|].
  split; [by eapply dfs_spec|].
  simpl in H. destruct (decide (v ∈ visited st)) as [Hv|Hv].
  { inv_ok H. split; [done|]. by intros x y ? ?. }
  inv_bind H as mv Emv. inv_bind H as sm Esm. inv_bind H as lb Elb.
  simpl in *.
  match type of H with
  | foreach _ _ ?s = _ => change s with (dfs_enter v mv sm lb st) in H
  end.
  destruct (dfs_enter_spec _ _ _ _ _ Hinv Hpre Hv Emv Esm Elb)
    as (Hinvb & Hextb & Hvb & Hdfb).
  assert (preds_sound successors (dfs_enter v mv sm lb st)) as Hsoundb.
  { eapply preds_sound_frame; [exact Hsound|reflexivity|rewrite Hdfb; lia|].
    intros i x Hi Hx. exact (slot_kept _ _ _ _ Hinv Hinvb Hextb Hi Hx). }
  destruct (visit_loop_preds (dfs successors f) v _ IH _ _ _ Hinvb Hvb
              (fun w Hw => Hw) Hsoundb H)
    as (Hinv' & Hext' & Hsound' & Hcomp' & Hrec').
  split; [done|]. intros x y Hx Hnx Hy.
  destruct (decide (x = v)) as [->|Hne]; [by apply Hrec'|].
  apply Hcomp'; [done| |done]. simpl. set_solver.
Qed.

End Predecessors.

(** When the search returns, [predecessors[i]] holds, in increasing order
    and without repetition, exactly the indices [p] of the numbered vertices
    that have an edge to the vertex numbered [i]. *)
Theorem predecessors_exact succ fuel entry numVertices st i ps :
  numVertices ≤ size_max →
  dfs succ fuel entry (init_state numVertices) = Ok st →
  predecessors st !! N.to_nat i = Some ps →
  ascending ps
  ∧ ∀ p, p ∈ ps ↔
         p < dfIdx st ∧ i < dfIdx st
         ∧ ∃ x y, m_vertex st !! N.to_nat p = Some x
                  ∧ m_vertex st !! N.to_nat i = Some y ∧ y ∈ succ x.
Proof.
  intros Hn H Hps.
  assert (pre_parent (init_state numVertices)) as Hpre by (by intros []).
  assert (preds_sound succ (init_state numVertices)) as Hsound0.
  { intros j qs. simpl. intros [-> _]%lookup_replicate.
    split; [done|]. intros p Hp. inversion Hp. }
  destruct (dfs_preds succ fuel entry _ _ (init_state_inv _ Hn) Hpre Hsound0 H)
    as (Hpost & Hsound & Hcomp).
  pose proof (dp_inv _ _ _ _ Hpost) as Hinv.
  destruct (Hsound _ _ Hps) as [S1 S2]. split; [done|].
  intros p. split; [apply S2|].
  intros (Hp & Hi & x & y & Hx & Hy & Hxy).
  pose proof (di_table _ Hinv _ _ Hp Hx) as Hix.
  pose proof (di_table _ Hinv _ _ Hi Hy) as Hiy.
  destruct (Hcomp x y) as (ix & iy & ps' & E1 & E2 & E3 & E4); [| |done|].
  - apply (di_visited _ Hinv). eauto.
  - simpl. set_solver.
  - congruence.
Qed.

(** When the search returns, every numbered index but [0] has a parent:
    a smaller index, whose vertex has an edge to the vertex of the index. *)
Theorem parent_is_tree_edge succ fuel entry numVertices st i :
  numVertices ≤ size_max →
  dfs succ fuel entry (init_state numVertices) = Ok st →
  0 < i < dfIdx st →
  ∃ p x y, parent st !! N.to_nat i = Some p ∧ p < i
           ∧ m_vertex st !! N.to_nat p = Some x
           ∧ m_vertex st !! N.to_nat i = Some y ∧ y ∈ succ x.
Proof.
  intros Hn H Hi.
  assert (pre_parent (init_state numVertices)) as Hpre by (by intros []).
  assert (preds_sound succ (init_state numVertices)) as Hsound0.
  { intros j qs. simpl. intros [-> _]%lookup_replicate.
    split; [done|]. intros p Hp. inversion Hp. }
  destruct (dfs_preds succ fuel entry _ _ (init_state_inv _ Hn) Hpre Hsound0 H)
    as (Hpost & Hsound & _).
  destruct (dp_linked _ _ _ _ Hpost i) as (p & ps & P1 & P2 & P3 & P4);
    [simpl; lia|].
  destruct (Hsound _ _ P3) as [_ S2].
  destruct (S2 _ P4) as (_ & _ & x & y & X1 & X2 & X3).
  exists p, x, y. done.
Qed.

(** ** Every access of the construction is in range *)

Lemma vset_vsize {A} (l l' : list A) i x :
  vset l i x = Ok l' → vsize l' = vsize l.
Proof. intros E. unfold vsize. by rewrite (vset_length _ _ _ _ E). Qed.

Ltac sized_tac :=
  split; simpl;
  repeat match goal with
         | E : vset _ _ _ = Ok ?l |- context [vsize ?l] =>
             rewrite (vset_vsize _ _ _ _ E)
         end;
  try done.

Lemma index_of_sized n k st st' i :
  index_of k st = (st', i) → sized n st → sized n st'.
Proof.
  unfold index_of. destruct (map_index _ _) as [m j].
  intros [= <- <-] []. by split.
Qed.

Lemma compressPath_sized sem fuel :
  ∀ v anc lab anc' lab',
    compressPath fuel anc lab sem v = Ok (anc', lab') →
    vsize anc' = vsize anc ∧ vsize lab' = vsize lab.
Proof.
  induction fuel as [|f IH]; intros v anc lab anc' lab' H; [discriminate|].
  simpl in H. inv_bind H as av Eav.
  destruct (av =? size_max); [discriminate|].
  inv_bind H as au Eau.
  destruct (au =? size_max); [by inv_ok H|].
  inv_bind H as r E1. destruct r as [anc1 lab1].
  destruct (IH _ _ _ _ _ E1) as [Sa Sl].
  inv_bind H as lu Elu. inv_bind H as slu Eslu. inv_bind H as lv Elv.
  inv_bind H as slv Eslv. inv_bind H as lab2 Elab2.
  inv_bind H as au' Eau'. inv_bind H as anc2 Eanc2. inv_ok H.
  rewrite (vset_vsize _ _ _ _ Eanc2). split; [done|].
  destruct (slu <? slv); [|by inv_ok Elab2].
  by rewrite (vset_vsize _ _ _ _ Elab2).
Qed.

Lemma eval_sized n fuel v st st' u :
  eval fuel v st = Ok (st', u) → sized n st → sized n st'.
Proof.
  intros H Hs. unfold eval in H. inv_bind H as av Eav.
  destruct (av =? size_max); [by inv_ok H|].
  inv_bind H as r E1. destruct r as [anc lab].
  destruct (compressPath_sized _ _ _ _ _ _ _ E1) as [Sa Sl].
  inv_bind H as lv Elv. inv_ok H. destruct Hs. split; simpl; congruence.
Qed.

Lemma bucket_step_sized n fuel w v st st' :
  bucket_step fuel w v st = Ok st' → sized n st → sized n st'.
Proof.
  intros H Hs. unfold bucket_step in H. inv_bind H as r E1.
  destruct r as [st1 u]. pose proof (eval_sized _ _ _ _ _ _ E1 Hs) as [].
  inv_bind H as su Esu. inv_bind H as sv Esv. inv_bind H as id Eid.
  inv_ok H. sized_tac.
Qed.

Lemma semi_step_sized n fuel w v st st' :
  semi_step fuel w v st = Ok st' → sized n st → sized n st'.
Proof.
  intros H Hs. unfold semi_step in H. inv_bind H as r E1.
  destruct r as [st1 u]. pose proof (eval_sized _ _ _ _ _ _ E1 Hs) as Hs1.
  inv_bind H as su Esu. inv_bind H as sw Esw.
  destruct (su <? sw); [|by inv_ok H].
  inv_bind H as sm Esm. inv_ok H. destruct Hs1. sized_tac.
Qed.

Lemma process_index_sized n fuel w st st' :
  process_index fuel w st = Ok st' → sized n st → sized n st'.
Proof.
  intros H Hs. unfold process_index in H. inv_bind H as bw Ebw.
  inv_bind H as st1 E1. inv_bind H as pw Epw. inv_bind H as st2 E2.
  inv_bind H as sw Esw. inv_bind H as bs Ebs. inv_bind H as bk Ebk.
  inv_bind H as p Ep. unfold link in H. simpl in H.
  inv_bind H as anc Eanc. inv_ok H.
  assert (sized n st1) as Hs1.
  { eapply (foreach_inv _ (sized n)); [|exact Hs|exact E1].
    intros x s s' _ Hx E. by eapply bucket_step_sized. }
  assert (sized n st2) as Hs2.
  { eapply (foreach_inv _ (sized n)); [|exact Hs1|exact E2].
    intros x s s' _ Hx E. by eapply semi_step_sized. }
  destruct Hs2. sized_tac.
Qed.

Lemma process_vertex_sized n fuel it st st' :
  process_vertex fuel it st = Ok st' → sized n st → sized n st'.
Proof.
  intros H Hs. unfold process_vertex in H.
  destruct (index_of it st) as [st0 w] eqn:E.
  eapply process_index_sized; [exact H|]. by eapply index_of_sized.
Qed.

Lemma fixup_vertex_sized n it st st' :
  fixup_vertex it st = Ok st' → sized n st → sized n st'.
Proof.
  intros H Hs. unfold fixup_vertex in H.
  destruct (index_of it st) as [st0 w] eqn:E.
  pose proof (index_of_sized _ _ _ _ _ E Hs) as Hs0.
  inv_bind H as iw Eiw. inv_bind H as sw Esw.
  destruct (iw =? sw); [by inv_ok H|].
  inv_bind H as iiw Eiiw. inv_bind H as id Eid. inv_ok H.
  destruct Hs0. sized_tac.
Qed.

Lemma visit_successor_sized n (rec : N → LT → res LT) v w st st' :
  (∀ s s', rec w s = Ok s' → sized n s → sized n s') →
  visit_successor rec v w st = Ok st' → sized n st → sized n st'.
Proof.
  intros Hrec H Hs. unfold visit_successor in H.
  inv_bind H as s Es. inv_bind H as st1 E1.
  assert (sized n st1) as Hs1.
  { destruct (s =? size_max); [|by inv_ok E1].
    destruct (index_of v st) as [st0 iv] eqn:E0.
    pose proof (index_of_sized _ _ _ _ _ E0 Hs) as Hs0.
    inv_bind E1 as par Epar. eapply Hrec; [exact E1|].
    destruct Hs0. sized_tac. }
  destruct (index_of w st1) as [st2 iw] eqn:E2.
  destruct (index_of v st2) as [st3 iv] eqn:E3.
  pose proof (index_of_sized _ _ _ _ _ E3
                (index_of_sized _ _ _ _ _ E2 Hs1)) as Hs3.
  inv_bind H as ps Eps. inv_bind H as preds Epreds. inv_ok H.
  destruct Hs3. sized_tac.
Qed.

Lemma dfs_sized n succ fuel :
  ∀ v st st', dfs succ fuel v st = Ok st' → sized n st → sized n st'.
Proof.
  induction fuel as [|f IH]; intros v st st' H Hs; [discriminate|].
  simpl in H. destruct (decide (v ∈ visited st)); [by inv_ok H|].
  inv_bind H as mv Emv. inv_bind H as sm Esm. inv_bind H as lb Elb.
  eapply (foreach_inv _ (sized n)); [| |exact H].
  - intros w s s' _ Hx E. eapply visit_successor_sized; [|exact E|exact Hx].
    apply IH.
  - simpl in *. destruct Hs. sized_tac.
Qed.

Lemma init_state_sized numVertices :
  sized numVertices (init_state numVertices).
Proof.
  split; simpl; unfold vsize; rewrite length_replicate; lia.
Qed.

Lemma bind_not_oob {A B} (r : res A) (k : A → res B) :
  r ≠ OutOfBounds → (∀ a, r = Ok a → k a ≠ OutOfBounds) →
  bind r k ≠ OutOfBounds.
Proof. destruct r; simpl; auto; discriminate. Qed.

Lemma vget_not_oob {A} (l : list A) i :
  i < vsize l → vget l i ≠ OutOfBounds.
Proof.
  intros Hi. unfold vget. destruct (N.ltb_spec i (vsize l)); [|lia].
  unfold vsize in Hi.
  destruct (lookup_lt_is_Some_2 l (N.to_nat i)) as [x ->]; [lia|discriminate].
Qed.

Lemma vset_not_oob {A} (l : list A) i x :
  i < vsize l → vset l i x ≠ OutOfBounds.
Proof.
  intros Hi. unfold vset. destruct (N.ltb_spec i (vsize l)); [discriminate|lia].
Qed.

Lemma foreach_not_oob {A S} (body : A → S → res S) (I : S → Prop) l :
  (∀ x st, x ∈ l → I st → body x st ≠ OutOfBounds) →
  (∀ x st st', x ∈ l → I st → body x st = Ok st' → I st') →
  ∀ st, I st → foreach body l st ≠ OutOfBounds.
Proof.
  induction l as [|x l IH]; intros Hb Hk st HI; simpl; [discriminate|].
  apply bind_not_oob.
  - apply Hb; [left|done].
  - intros st' E. apply IH.
    + intros y s Hy. apply Hb. by right.
    + intros y s s' Hy. apply Hk. by right.
    + eapply Hk; [left|exact HI|exact E].
Qed.

Ltac get_ok := apply bind_not_oob; [apply vget_not_oob; lia|].
Ltac set_ok := apply bind_not_oob; [apply vset_not_oob; lia|].

Lemma compressPath_not_oob n m sem fuel :
  n ≤ m → vsize sem = m →
  ∀ v anc lab,
    forest n anc → array_le n lab → vsize anc = m → vsize lab = m → v < n →
    compressPath fuel anc lab sem v ≠ OutOfBounds.
Proof.
  intros Hnm Hsem.
  induction fuel as [|f IH]; intros v anc lab Ha Hl Sa Sl Hv; [discriminate|].
  simpl. get_ok. intros av Eav. apply vget_Ok in Eav.
  destruct (N.eqb_spec av size_max) as [|Hav]; [discriminate|].
  destruct (Ha _ _ Hv Eav) as [|Hlt]; [done|].
  assert (av < n) as Hu by lia.
  get_ok. intros au Eau.
  destruct (au =? size_max); [discriminate|].
  apply bind_not_oob; [by apply IH|].
  intros [anc1 lab1] E1.
  destruct (compressPath_spec _ _ _ _ _ _ _ _ Ha Hl Hu E1) as [Ha1 Hl1].
  destruct (compressPath_sized _ _ _ _ _ _ _ E1) as [Sa1 Sl1].
  get_ok. intros lu Elu. apply vget_Ok in Elu.
  pose proof (Hl1 _ _ Hu Elu) as Hlu.
  get_ok. intros slu _.
  get_ok. intros lv Elv. apply vget_Ok in Elv.
  pose proof (Hl1 _ _ Hv Elv) as Hlv.
  get_ok. intros slv _.
  apply bind_not_oob.
  { destruct (_ <? _); [apply vset_not_oob; lia|discriminate]. }
  intros lab2 _. get_ok. intros au' _. set_ok. intros; discriminate.
Qed.

Lemma eval_not_oob n m fuel v st :
  pass_inv n st → sized m st → n ≤ m → v < n →
  eval fuel v st ≠ OutOfBounds.
Proof.
  intros Hinv Hs Hnm Hv. unfold eval. destruct Hs.
  get_ok. intros av Eav. destruct (av =? size_max); [discriminate|].
  apply bind_not_oob.
  { eapply (compressPath_not_oob n m); try done; apply Hinv. }
  intros [anc lab] E1.
  destruct (compressPath_sized _ _ _ _ _ _ _ E1) as [Sa Sl].
  get_ok. intros; discriminate.
Qed.

Lemma bucket_step_not_oob n m fuel w v st :
  pass_inv n st → sized m st → n ≤ m → v < n →
  bucket_step fuel w v st ≠ OutOfBounds.
Proof.
  intros Hinv Hs Hnm Hv. unfold bucket_step.
  apply bind_not_oob; [by eapply eval_not_oob|].
  intros [st1 u] E1.
  pose proof (eval_sized _ _ _ _ _ _ E1 Hs) as [].
  destruct (eval_spec _ _ _ _ _ _ (pi_ancestor _ _ Hinv) (pi_label _ _ Hinv)
              Hv E1) as (anc & lab & _ & _ & _ & Hu).
  get_ok. intros su _. get_ok. intros sv _. set_ok. intros; discriminate.
Qed.

Lemma semi_step_not_oob n m fuel w v st :
  pass_inv n st → sized m st → n ≤ m → v < n → w < n →
  semi_step fuel w v st ≠ OutOfBounds.
Proof.
  intros Hinv Hs Hnm Hv Hw. unfold semi_step.
  apply bind_not_oob; [by eapply eval_not_oob|].
  intros [st1 u] E1.
  pose proof (eval_sized _ _ _ _ _ _ E1 Hs) as [].
  destruct (eval_spec _ _ _ _ _ _ (pi_ancestor _ _ Hinv) (pi_label _ _ Hinv)
              Hv E1) as (anc & lab & _ & _ & _ & Hu).
  get_ok. intros su _. get_ok. intros sw _.
  destruct (su <? sw); [|discriminate]. set_ok. intros; discriminate.
Qed.

Lemma process_index_not_oob n m fuel w st :
  pass_inv n st → sized m st → n ≤ m → w < n →
  process_index fuel w st ≠ OutOfBounds.
Proof.
  intros Hinv Hs Hnm Hw. unfold process_index.
  pose proof Hs as [].
  get_ok. intros bw Ebw. apply vget_Ok in Ebw.
  assert (∀ v, v ∈ bw → v < n ∧ w ≤ v ∧ (v ≠ 0 → w < v)) as Hbw
    by (intros v; by apply (pi_bucket _ _ Hinv w)).
  apply bind_not_oob.
  { apply (foreach_not_oob _ (fun s => pass_inv n s ∧ sized m s));
      [| |done].
    - intros x s Hx [I1 I2]. eapply bucket_step_not_oob; try done.
      by destruct (Hbw _ Hx).
    - intros x s s' Hx [I1 I2] E. destruct (Hbw _ Hx) as (B1 & B2 & B3).
      split; [|by eapply bucket_step_sized].
      by destruct (bucket_step_spec _ _ _ _ _ _ I1 B1 B2 B3 E). }
  intros st1 E1.
  destruct (bucket_loop_spec _ _ _ _ _ _ Hinv Hbw E1) as (Hinv1 & _).
  assert (sized m st1) as Hs1.
  { eapply (foreach_inv _ (sized m)); [|exact Hs|exact E1].
    intros x s s' _ Hx E. by eapply bucket_step_sized. }
  pose proof Hs1 as [].
  get_ok. intros pw Epw. apply vget_Ok in Epw.
  assert (∀ v, v ∈ pw → v < n) as Hpw
    by (intros v; by apply (pi_preds _ _ Hinv1 w)).
  apply bind_not_oob.
  { apply (foreach_not_oob _ (fun s => pass_inv n s ∧ sized m s));
      [| |done].
    - intros x s Hx [I1 I2]. eapply semi_step_not_oob; try done.
      by apply Hpw.
    - intros x s s' Hx [I1 I2] E.
      split; [|by eapply semi_step_sized].
      by destruct (semi_step_spec _ _ _ _ _ _ I1 (Hpw _ Hx) Hw E). }
  intros st2 E2.
  destruct (semi_loop_spec _ _ _ _ _ _ Hinv1 Hw Hpw E2) as (Hinv2 & _).
  assert (sized m st2) as Hs2.
  { eapply (foreach_inv _ (sized m)); [|exact Hs1|exact E2].
    intros x s s' _ Hx E. by eapply semi_step_sized. }
  pose proof Hs2 as [].
  get_ok. intros sw Esw. apply vget_Ok in Esw.
  pose proof (pi_semi _ _ Hinv2 _ _ Hw Esw) as Hsw.
  get_ok. intros bs _. set_ok. intros bk _. simpl.
  get_ok. intros p _. unfold link. simpl. set_ok. intros; discriminate.
Qed.

Lemma semi_pass_not_oob n m fuel st :
  pass_inv n st → sized m st → n ≤ m →
  semi_pass fuel st ≠ OutOfBounds.
Proof.
  intros Hinv Hs Hnm. unfold semi_pass.
  apply (foreach_not_oob _ (fun s => pass_inv n s ∧ sized m s)); [| |done].
  - intros x s _ [I1 I2]. unfold process_vertex.
    destruct (index_of x s) as [s0 w] eqn:E.
    destruct (index_of_spec _ _ _ _ _ I1 E) as (G1 & _ & G3 & _).
    eapply process_index_not_oob; try done. by eapply index_of_sized.
  - intros x s s' _ [I1 I2] E.
    split; [|by eapply process_vertex_sized].
    by destruct (process_vertex_spec _ _ _ _ _ I1 E).
Qed.

Lemma semi_pass_sized m fuel st st' :
  semi_pass fuel st = Ok st' → sized m st → sized m st'.
Proof.
  intros H Hs. eapply (foreach_inv _ (sized m)); [|exact Hs|exact H].
  intros x s s' _ Hx E. by eapply process_vertex_sized.
Qed.

Lemma fixup_vertex_not_oob n m it st :
  pass_inv n st → idom_final n (idom st) → sized m st → n ≤ m →
  fixup_vertex it st ≠ OutOfBounds.
Proof.
  intros Hinv [Hf0 Hf] Hs Hnm. unfold fixup_vertex.
  destruct (index_of it st) as [st0 w] eqn:E.
  destruct (index_of_spec _ _ _ _ _ Hinv E) as (G1 & _ & G3 & _ & G4).
  pose proof (index_of_sized _ _ _ _ _ E Hs) as [].
  get_ok. intros iw Eiw. apply vget_Ok in Eiw. rewrite G4 in Eiw.
  get_ok. intros sw _. destruct (iw =? sw); [discriminate|].
  assert (iw < n) as Hiw.
  { destruct (decide (w = 0)) as [->|Hw0].
    - change (N.to_nat 0) with 0%nat in Eiw. rewrite Hf0 in Eiw.
      inv_ok Eiw. lia.
    - destruct (Hf w) as (j & Hj & Hjw); [lia|].
      rewrite Eiw in Hj. inv_ok Hj. lia. }
  get_ok. intros iiw _. set_ok. intros; discriminate.
Qed.

Lemma fixup_pass_not_oob n m st :
  pass_inv n st → progress n 0 st → sized m st → n ≤ m →
  fixup_pass st ≠ OutOfBounds.
Proof.
  intros Hinv Hprog Hs Hnm. unfold fixup_pass.
  pose proof (pi_pos _ _ Hinv) as Hpos. pose proof Hs as [].
  set_ok. intros id Eid. simpl.
  set (st1 := set_idom st id).
  assert (pass_inv n st1) as Hinv1.
  { destruct Hinv as [P1 P2 P3 P4 P5 P6 P7 P8 P9 P10]. split; done. }
  assert (idom_final n (idom st1)) as Hfin1.
  { simpl. split.
    - rewrite <- (Nat2N.id 0), (vset_lookup _ _ _ _ _ Eid). done.
    - intros i Hi.
      destruct (Hprog i) as [(j & Hj & Hji)|(j & _ & Hj & _)];
        [lia|lia| |lia].
      exists j. by rewrite (vset_lookup _ _ _ _ _ Eid), decide_False by lia. }
  assert (sized m st1) as Hs1 by sized_tac.
  apply (foreach_not_oob _
           (fun s => pass_inv n s ∧ idom_final n (idom s) ∧ sized m s));
    [| |done].
  - intros x s _ (I1 & I2 & I3). by eapply fixup_vertex_not_oob.
  - intros x s s' _ (I1 & I2 & I3) E.
    destruct (fixup_vertex_spec _ _ _ _ I1 I2 E) as (F1 & _ & F3).
    split; [done|]. split; [done|]. by eapply fixup_vertex_sized.
Qed.

(** The numbered vertices are as many as [dfIdx] says. *)
Lemma numbered_count st (rs : list N) extra :
  dfs_inv st → NoDup (extra ++ rs) →
  (∀ x, x ∈ visited st → x ∈ rs) →
  (N.to_nat (dfIdx st) ≤ length rs)%nat.
Proof.
  intros Hinv Hnd Hvis.
  set (l := take (N.to_nat (dfIdx st)) (m_vertex st)).
  assert (length l = N.to_nat (dfIdx st)) as Hlen.
  { unfold l. rewrite length_take. pose proof (di_bound _ Hinv) as Hb.
    unfold vsize in Hb. lia. }
  rewrite <- Hlen. apply submseteq_length, NoDup_submseteq.
  - apply NoDup_alt. intros i j x Hi Hj. unfold l in Hi, Hj.
    apply lookup_take_Some in Hi as [Hi Hilt].
    apply lookup_take_Some in Hj as [Hj Hjlt].
    rewrite <- (Nat2N.id i) in Hi. rewrite <- (Nat2N.id j) in Hj.
    apply (di_table _ Hinv) in Hi; [|lia].
    apply (di_table _ Hinv) in Hj; [|lia]. rewrite Hi in Hj. inv_ok Hj. lia.
  - intros x Hx. apply list_elem_of_lookup_1 in Hx as [i Hi]. unfold l in Hi.
    apply lookup_take_Some in Hi as [Hi Hilt].
    rewrite <- (Nat2N.id i) in Hi.
    apply (di_table _ Hinv) in Hi; [|lia].
    apply Hvis, (di_visited _ Hinv). eauto.
Qed.

Lemma numbered_count_fresh st (rs : list N) v :
  dfs_inv st → NoDup rs → (∀ x, x ∈ visited st → x ∈ rs) →
  v ∈ rs → v ∉ visited st →
  (N.to_nat (dfIdx st) < length rs)%nat.
Proof.
  intros Hinv Hnd Hvis Hv Hnv.
  apply list_elem_of_split in Hv as (l1 & l2 & ->).
  assert (NoDup (v :: l1 ++ l2)) as Hnd'.
  { eapply NoDup_Permutation_proper; [|exact Hnd].
    apply Permutation_middle. }
  apply NoDup_cons in Hnd' as [Hnin Hnd'].
  assert (N.to_nat (dfIdx st) ≤ length (l1 ++ l2))%nat as Hle.
  { apply (numbered_count st (l1 ++ l2) []); [done|done|].
    intros x Hx. pose proof (Hvis _ Hx) as Hin.
    rewrite elem_of_app, elem_of_cons in Hin. rewrite elem_of_app.
    destruct Hin as [|[->|]]; auto. done. }
  rewrite length_app in *. simpl. lia.
Qed.

Section SearchInRange.
Variable successors : N → list N.
Variable rs : list N.
Variable m : N.
Hypothesis Hclosed : ∀ x y, x ∈ rs → y ∈ successors x → y ∈ rs.
Hypothesis Hnd : NoDup rs.
Hypothesis Hlen : (length rs < N.to_nat m)%nat.

Lemma dfs_not_oob fuel :
  ∀ v st,
    dfs_inv st → pre_parent st → sized m st →
    (∀ x, x ∈ visited st → x ∈ rs) → v ∈ rs →
    dfs successors fuel v st ≠ OutOfBounds.
Proof.
  induction fuel as [|f IH]; intros v st Hinv Hpre Hs Hvis Hv; [discriminate|].
  simpl. destruct (decide (v ∈ visited st)) as [Hvv|Hvv]; [discriminate|].
  pose proof (numbered_count_fresh _ _ _ Hinv Hnd Hvis Hv Hvv) as Hcount.
  pose proof Hs as [].
  set_ok. intros mv Emv. set_ok. intros sm Esm. set_ok. intros lb Elb.
  simpl in *.
  match goal with
  | |- foreach _ _ ?s ≠ _ => change s with (dfs_enter v mv sm lb st)
  end.
  destruct (dfs_enter_spec _ _ _ _ _ Hinv Hpre Hvv Emv Esm Elb)
    as (Hinvb & Hextb & Hvb & Hdfb).
  apply (foreach_not_oob _
           (fun s => dfs_inv s ∧ sized m s ∧ (∀ x, x ∈ visited s → x ∈ rs)
                     ∧ m_vertexIndex s !! v = Some (dfIdx st))).
  - intros w s Hw (I1 & I2 & I3 & I4). unfold visit_successor.
    pose proof (numbered_count s rs [] I1 Hnd I3) as Hc.
    pose proof I2 as [].
    get_ok. intros sx Esx. apply vget_Ok in Esx.
    assert (sx = size_max) as ->
      by (eapply (di_semi_hi _ I1); [|done]; lia).
    rewrite N.eqb_refl, (index_of_present _ _ _ I4).
    pose proof (di_index _ I1 _ _ I4) as [Hiv _].
    apply bind_not_oob.
    + set_ok. intros par Epar.
      destruct (visit_parent_inv _ _ _ I1 Hiv Epar) as (P1 & P2 & _).
      apply IH; try done; [sized_tac|by eapply Hclosed].
    + intros s1 E1. inv_bind E1 as par Epar.
      destruct (visit_parent_inv _ _ _ I1 Hiv Epar) as (P1 & P2 & P3).
      pose proof (dfs_spec successors _ _ _ _ P1 P2 E1) as Hp.
      pose proof (dp_inv _ _ _ _ Hp) as Hinv1.
      assert (sized m s1) as Hs1
        by (eapply dfs_sized; [exact E1|sized_tac]).
      pose proof (dp_visited _ _ _ _ Hp) as Hw1.
      apply (di_visited _ Hinv1) in Hw1 as [iw Hiw].
      assert (m_vertexIndex s1 !! v = Some (dfIdx st)) as Hv1.
      { eapply lookup_weaken; [exact I4|].
        etrans; [apply P3|apply (dp_ext _ _ _ _ Hp)]. }
      rewrite (index_of_present _ _ _ Hiw), (index_of_present _ _ _ Hv1).
      destruct (di_index _ Hinv1 _ _ Hiw) as [Hiwlt _].
      pose proof (di_bound _ Hinv1) as Hb1. destruct Hs1.
      get_ok. intros ps _. set_ok. intros; discriminate.
  - intros w s s' Hw (I1 & I2 & I3 & I4) E.
    pose proof (visit_successor_spec successors (dfs successors f)
                  (fun w' s0 s1 => dfs_spec successors f w' s0 s1)
                  _ _ _ _ _ I1 I4 E) as Hp.
    split; [apply Hp|]. split; [|split].
    + eapply visit_successor_sized; [|exact E|exact I2]. apply dfs_sized.
    + eapply (visit_successor_visited (fun x => x ∈ rs)); [|exact I3|exact E].
      intros s0 s1 Hs0.
      apply (dfs_visited_sound successors (fun x => x ∈ rs)); [|by eapply Hclosed|done].
      intros x y. apply Hclosed.
    + eapply lookup_weaken; [exact I4|apply Hp].
  - split; [done|]. split; [sized_tac|]. split; [|done].
    simpl. intros x [->%elem_of_singleton|Hx]%elem_of_union; auto.
Qed.

Lemma dfs_fuel_count fuel :
  ∀ v st,
    dfs_inv st → pre_parent st →
    (∀ x, x ∈ visited st → x ∈ rs) → v ∈ rs →
    (length rs < fuel + N.to_nat (dfIdx st))%nat →
    dfs successors fuel v st ≠ OutOfFuel.
Proof.
  clear Hlen.
  induction fuel as [|f IH]; intros v st Hinv Hpre Hvis Hv Hf.
  { pose proof (numbered_count st rs [] Hinv Hnd Hvis). simpl in Hf. lia. }
  simpl. destruct (decide (v ∈ visited st)) as [Hvv|Hvv]; [discriminate|].
  apply bind_not_fuel; [apply vset_not_fuel|]. intros mv Emv.
  apply bind_not_fuel; [apply vset_not_fuel|]. intros sm Esm.
  apply bind_not_fuel; [apply vset_not_fuel|]. intros lb Elb. simpl in *.
  match goal with
  | |- foreach _ _ ?s ≠ _ => change s with (dfs_enter v mv sm lb st)
  end.
  destruct (dfs_enter_spec _ _ _ _ _ Hinv Hpre Hvv Emv Esm Elb)
    as (Hinvb & Hextb & Hvb & Hdfb).
  apply (foreach_not_fuel _
           (fun s => dfs_inv s ∧ dfs_ext (dfs_enter v mv sm lb st) s
                     ∧ (∀ x, x ∈ visited s → x ∈ rs)
                     ∧ m_vertexIndex s !! v = Some (dfIdx st))).
  - intros w s Hw (I1 & I2 & I3 & I4). unfold visit_successor.
    apply bind_not_fuel; [apply vget_not_fuel|]. intros sx Esx.
    apply bind_not_fuel.
    + destruct (sx =? size_max); [|discriminate].
      rewrite (index_of_present _ _ _ I4).
      apply bind_not_fuel; [apply vset_not_fuel|]. intros par Epar.
      pose proof (de_dfIdx _ _ I2) as Hmono.
      pose proof (di_index _ I1 _ _ I4) as [Hiv _].
      destruct (visit_parent_inv _ _ _ I1 Hiv Epar) as (P1 & P2 & _).
      apply IH; [done|done|done|by eapply Hclosed|]. simpl. lia.
    + intros s1 E1. destruct (index_of w s1) as [s2 iw].
      destruct (index_of v s2) as [s3 iv]. not_fuel.
  - intros w s s' Hw (I1 & I2 & I3 & I4) E.
    pose proof (visit_successor_spec successors (dfs successors f)
                  (fun w' s0 s1 => dfs_spec successors f w' s0 s1)
                  _ _ _ _ _ I1 I4 E) as Hp.
    split; [apply Hp|]. split; [|split].
    + eapply dfs_ext_trans; [exact I2|apply Hp].
    + eapply (visit_successor_visited (fun x => x ∈ rs)); [|exact I3|exact E].
      intros s0 s1 Hs0.
      apply (dfs_visited_sound successors (fun x => x ∈ rs));
        [|by eapply Hclosed|done].
      intros x y. apply Hclosed.
    + eapply lookup_weaken; [exact I4|apply Hp].
  - split; [done|]. split; [apply dfs_ext_refl|]. split; [|done].
    simpl. intros x [->%elem_of_singleton|Hx]%elem_of_union; auto.
Qed.

End SearchInRange.

Lemma lengauerTarjanDominator_returns succ fuel entry numVertices rs :
  numVertices ≤ size_max →
  NoDup rs → entry ∈ rs → (∀ x y, x ∈ rs → y ∈ succ x → y ∈ rs) →
  (length rs < N.to_nat numVertices)%nat →
  (N.to_nat numVertices ≤ fuel)%nat →
  ∃ st, lengauerTarjanDominator succ fuel entry numVertices = Ok st.
Proof.
  intros Hn Hnd Hentry Hclosed Hlen Hf.
  assert (numVertices ≠ 0) as Hne by lia.
  pose proof (lengauerTarjanDominator_not_assert succ fuel entry _ Hne)
    as Hassert.
  assert (pre_parent (init_state numVertices)) as Hpre by (by intros []).
  assert (∀ x, x ∈ visited (init_state numVertices) → x ∈ rs) as Hvis0
    by (simpl; set_solver).
  assert (lengauerTarjanDominator succ fuel entry numVertices ≠ OutOfFuel)
    as Hfuel.
  { unfold lengauerTarjanDominator.
    destruct (numVertices =? 0); [discriminate|].
    apply bind_not_fuel.
    { apply (dfs_fuel_count succ rs Hclosed Hnd);
        [by apply init_state_inv|done|done|done|simpl; lia]. }
    intros st1 E1.
    destruct (dfs_pass_inv _ _ _ _ _ Hn E1)
      as (D1 & _ & _ & _ & _ & D6 & _).
    apply bind_not_fuel; [eapply semi_pass_fuel; [exact D1|lia]|].
    intros st2 _. apply fixup_pass_fuel. }
  assert (lengauerTarjanDominator succ fuel entry numVertices ≠ OutOfBounds)
    as Hoob.
  { unfold lengauerTarjanDominator.
    destruct (N.eqb_spec numVertices 0) as [|_]; [done|].
    apply bind_not_oob.
    { apply (dfs_not_oob succ rs numVertices Hclosed Hnd Hlen);
        [by apply init_state_inv|done|apply init_state_sized|done|done]. }
    intros st1 E1.
    destruct (dfs_pass_inv _ _ _ _ _ Hn E1)
      as (D1 & _ & _ & _ & _ & D6 & _).
    pose proof (dfs_sized _ _ _ _ _ _ E1 (init_state_sized _)) as Hs1.
    apply bind_not_oob; [by eapply semi_pass_not_oob|].
    intros st2 E2.
    destruct (semi_pass_spec _ _ _ _ D1 E2) as (S1 & S2 & S3).
    eapply fixup_pass_not_oob; [exact S1|exact S3| |exact D6].
    by eapply semi_pass_sized. }
  destruct (lengauerTarjanDominator succ fuel entry numVertices) as [st| | |];
    [by exists st|done|done|done].
Qed.

(** When [numVertices] exceeds the number of vertices that can be reached
    ([rs] is any duplicate-free list that holds the entry and is closed
    under successors), the construction commits no fault: no access leaves
    its vector, no assertion fails, and the recursion of [dfs] and of
    [compressPath] is at most [numVertices] deep.  Allocation is not part
    of the model: a run in which the vectors can be allocated therefore
    returns an analyzer. *)
Theorem construct_no_fault succ fuel entry numVertices rs :
  numVertices ≤ size_max →
  NoDup rs → entry ∈ rs → (∀ x y, x ∈ rs → y ∈ succ x → y ∈ rs) →
  (length rs < N.to_nat numVertices)%nat →
  (N.to_nat numVertices ≤ fuel)%nat →
  construct succ fuel entry numVertices ≠ OutOfBounds
  ∧ construct succ fuel entry numVertices ≠ AssertFail
  ∧ construct succ fuel entry numVertices ≠ OutOfFuel.
Proof.
  intros Hn Hnd Hentry Hclosed Hlen Hf.
  destruct (lengauerTarjanDominator_returns _ _ _ _ _ Hn Hnd Hentry Hclosed
              Hlen Hf) as [st Hst].
  destruct (construct_returns _ _ _ _ _ Hn Hst) as (d & Hd & _).
  rewrite Hd. repeat split; discriminate.
Qed.

(** With fewer slots than reachable vertices the construction reports
    nothing: it runs into an access past the end of a vector.  [l] lists
    reachable vertices without repetition. *)
Theorem construct_too_small succ fuel entry numVertices l :
  numVertices ≤ size_max → numVertices ≠ 0 →
  NoDup l → (∀ v, v ∈ l → reachable succ entry v) →
  (N.to_nat numVertices < length l)%nat →
  (N.to_nat numVertices < fuel)%nat →
  construct succ fuel entry numVertices = OutOfBounds.
Proof.
  intros Hn Hne Hnd Hl Hlen Hf.
  pose proof (construct_fuel succ _ entry _ Hn Hf) as Hfuel.
  pose proof (construct_not_assert succ fuel entry _ Hn Hne) as Hassert.
  destruct (construct succ fuel entry numVertices) as [d| | |] eqn:E;
    [|done|done|done].
  destruct (construct_analysed _ _ _ _ _ Hn E) as [n Ha].
  pose proof (an_size _ _ _ _ _ Ha) as Hsz. unfold vsize in Hsz.
  pose proof (submseteq_length _ _
                (reachable_listed _ _ _ _ _ _ Hn E Hnd Hl)). lia.
Qed.

(** ** Path compression *)

Lemma anc_path_fun anc v l r :
  anc_path anc v l r → ∀ l' r', anc_path anc v l' r' → l = l' ∧ r = r'.
Proof.
  induction 1 as [r Hr|v u l r Hv Hu _ IH]; intros l' r' H'.
  - inversion H' as [? Hr'|? u ? ? Hv Hu]; subst; [done|]. congruence.
  - inversion H' as [? Hr'|? u' ? ? Hv' Hu' Hp']; subst; [congruence|].
    rewrite Hv in Hv'. inv_ok Hv'. by destruct (IH _ _ Hp') as [-> ->].
Qed.

Lemma anc_path_suffix anc v l r x :
  anc_path anc v l r → x ∈ l →
  ∃ l1 l2, l = l1 ++ x :: l2 ∧ anc_path anc x (x :: l2) r.
Proof.
  induction 1 as [r Hr|v u l r Hv Hu Hp IH]; intros Hx; [inversion Hx|].
  apply elem_of_cons in Hx as [->|Hx].
  - exists [], l. split; [done|]. by eapply ap_step.
  - destruct (IH Hx) as (l1 & l2 & -> & Hp'). by exists (v :: l1), l2.
Qed.

Lemma anc_path_NoDup anc v l r : anc_path anc v l r → NoDup l.
Proof.
  induction 1 as [r Hr|v u l r Hv Hu Hp IH]; [constructor|].
  apply NoDup_cons. split; [|done]. intros Hin.
  destruct (anc_path_suffix _ _ _ _ _ Hp Hin) as (l1 & l2 & -> & Hp').
  destruct (anc_path_fun _ _ _ _ (ap_step _ _ _ _ _ Hv Hu Hp) _ _ Hp')
    as [E _].
  apply (f_equal length) in E. simpl in E. rewrite length_app in E.
  simpl in E. lia.
Qed.

Lemma compressPath_path sem fuel :
  ∀ v l r anc lab anc' lab',
    anc_path anc v (v :: l) r →
    compressPath fuel anc lab sem v = Ok (anc', lab') →
    (∀ x, x ∈ v :: l → anc' !! N.to_nat x = Some r)
    ∧ (∀ l1 x l2 b, v :: l = l1 ++ x :: l2 → lab' !! N.to_nat x = Some b →
                    min_label sem lab (x :: l2) b)
    ∧ (∀ x, x ∉ v :: l →
            anc' !! N.to_nat x = anc !! N.to_nat x
            ∧ lab' !! N.to_nat x = lab !! N.to_nat x).
Proof.
  induction fuel as [|f IH]; intros v l r anc lab anc' lab' Hp H;
    [discriminate|].
  pose proof (anc_path_NoDup _ _ _ _ Hp) as Hnd.
  inversion Hp as [|? u ? ? Hv Hu Hpu]; subst.
  simpl in H. inv_bind H as av Eav. apply vget_Ok in Eav.
  assert (av = u) as -> by congruence. clear Eav.
  destruct (N.eqb_spec u size_max) as [|_]; [done|].
  inv_bind H as au Eau. apply vget_Ok in Eau.
  inversion Hpu as [? Hr|? u' l' ? Hu1 Hu' Hpu']; subst.
  - (* [u] is the root *)
    assert (au = size_max) as -> by congruence. clear Eau.
    rewrite N.eqb_refl in H. inv_ok H.
    split; [|split].
    + intros x ->%list_elem_of_singleton. done.
    + intros l1 x l2 b E Hb.
      destruct l1 as [|y l1]; [|by destruct l1].
      injection E as <- <-. split.
      * exists v. split; [left|done].
      * intros y ly sy sb ->%list_elem_of_singleton Hly Hsy Hsb. 
        rewrite Hb in Hly. inv_ok Hly. rewrite Hsb in Hsy. inv_ok Hsy. lia.
    + done.
  - (* [u] has an ancestor of its own *)
    assert (au = u') as -> by congruence. clear Eau.
    destruct (N.eqb_spec u' size_max) as [|_]; [done|].
    inv_bind H as p E1. destruct p as [anc1 lab1].
    destruct (IH _ _ _ _ _ _ _ Hpu E1) as (I1 & I2 & I3).
    apply NoDup_cons in Hnd as [Hvl Hnd].
    destruct (I3 _ Hvl) as [Fa Fl].
    inv_bind H as lu Elu. inv_bind H as slu Eslu. inv_bind H as lv Elv.
    inv_bind H as slv Eslv. inv_bind H as lab2 Elab2.
    inv_bind H as au' Eau'. inv_bind H as anc2 Eanc2. inv_ok H.
    apply vget_Ok in Elu, Eslu, Elv, Eslv, Eau'.
    rewrite Fl in Elv.
    pose proof (I2 [] u l' lu eq_refl Elu) as [Mu1 Mu2].
    assert (au' = r) as ->.
    { rewrite (I1 u) in Eau'; [by inv_ok Eau'|left]. }
    assert (∀ x, x ≠ v → lab' !! N.to_nat x = lab1 !! N.to_nat x) as Hlab.
    { intros x Hx. destruct (slu <? slv).
      - by rewrite (vset_lookup _ _ _ _ _ Elab2), decide_False.
      - by inv_ok Elab2. }
    assert (∀ x, x ≠ v → anc' !! N.to_nat x = anc1 !! N.to_nat x) as Hanc.
    { intros x Hx. by rewrite (vset_lookup _ _ _ _ _ Eanc2), decide_False. }
    split; [|split].
    + intros x [->|Hx]%elem_of_cons.
      * by rewrite (vset_lookup _ _ _ _ _ Eanc2), decide_True.
      * rewrite Hanc; [by apply I1|]. by intros ->.
    + intros l1 x l2 b E Hb. destruct l1 as [|y l1].
      * injection E as <- <-.
        destruct (N.ltb_spec slu slv) as [Hlt|Hge].
        -- rewrite (vset_lookup _ _ _ _ _ Elab2), decide_True in Hb by done.
           inv_ok Hb. split.
           ++ destruct Mu1 as (y & Hy & Hyb). exists y. split; [by right|done].
           ++ intros y ly sy sb [->|Hy]%elem_of_cons Hly Hsy Hsb.
              ** rewrite Elv in Hly. inv_ok Hly. rewrite Eslv in Hsy.
                 inv_ok Hsy. rewrite Eslu in Hsb. inv_ok Hsb. lia.
              ** by eapply Mu2.
        -- inv_ok Elab2. rewrite Fl, Elv in Hb. inv_ok Hb. split.
           ++ exists v. split; [left|done].
           ++ intros y ly sy sb [->|Hy]%elem_of_cons Hly Hsy Hsb.
              ** rewrite Elv in Hly. inv_ok Hly. rewrite Hsb in Hsy.
                 inv_ok Hsy. lia.
              ** rewrite Eslv in Hsb. inv_ok Hsb.
                 pose proof (Mu2 _ _ _ _ Hy Hly Hsy Eslu). lia.
      * injection E as <- E.
        assert (x ∈ u :: l') as Hx by (rewrite E; set_solver).
        rewrite Hlab in Hb by (by intros ->).
        by eapply I2.
    + intros x Hx. apply not_elem_of_cons in Hx as [Hxv Hx].
      rewrite Hanc, Hlab by done. by apply I3.
Qed.

(** [compressPath(v)] compresses the chain of [v]: afterwards every vertex
    of the chain points at the root of the tree, the label of each is a
    label of least [semi] among those that were on its part of the chain,
    from itself upwards, and nothing off the chain has changed. *)
Theorem compressPath_compresses sem fuel v l r anc lab anc' lab' :
  anc_path anc v (v :: l) r →
  compressPath fuel anc lab sem v = Ok (anc', lab') →
  (∀ x, x ∈ v :: l → anc' !! N.to_nat x = Some r)
  ∧ (∀ x l2 b, (x :: l2) `suffix_of` (v :: l) →
               lab' !! N.to_nat x = Some b →
               min_label sem lab (x :: l2) b)
  ∧ (∀ x, x ∉ v :: l →
          anc' !! N.to_nat x = anc !! N.to_nat x
          ∧ lab' !! N.to_nat x = lab !! N.to_nat x).
Proof.
  intros Hp H.
  destruct (compressPath_path _ _ _ _ _ _ _ _ _ Hp H) as (I1 & I2 & I3).
  split; [done|]. split; [|done].
  intros x l2 b [l1 E] Hb. by apply (I2 l1).
Qed.

(** [eval(v)] returns [v] itself when [v] is the root of its tree in the
    virtual forest, and then changes nothing; otherwise it returns a label
    of least [semi] among the labels of the vertices on the chain from [v]
    up to, and without, the root, and [semi] is left as it was. *)
Theorem eval_minimum fuel v st st' u l r :
  anc_path (ancestor st) v l r →
  eval fuel v st = Ok (st', u) →
  semi st' = semi st
  ∧ (l = [] → u = v ∧ st' = st)
  ∧ (l ≠ [] → min_label (semi st) (label st) l u).
Proof.
  intros Hp H. unfold eval in H. inv_bind H as av Eav.
  apply vget_Ok in Eav.
  inversion Hp as [? Hr|? u0 l0 ? Hv Hu Hpu]; subst.
  - assert (av = size_max) as -> by congruence. rewrite N.eqb_refl in H.
    inv_ok H. done.
  - assert (av = u0) as -> by congruence.
    destruct (N.eqb_spec u0 size_max) as [|_]; [done|].
    inv_bind H as p E1. destruct p as [anc lab].
    inv_bind H as lv Elv. inv_ok H. apply vget_Ok in Elv.
    destruct (compressPath_path _ _ _ _ _ _ _ _ _ Hp E1) as (_ & I2 & _).
    split; [done|]. split; [done|]. intros _.
    by apply (I2 [] v l0 u).
Qed.

(** ** Spare slots *)

Section SpareSlots.
Variable successors : N → list N.

Lemma visit_successor_spare (rec : N → LT → res LT) v w st st' iv :
  (∀ s s', dfs_inv s → pre_parent s →
           tail_is default_vertex (dfIdx s) (m_vertex s) →
           rec w s = Ok s' →
           dfs_post successors w s s'
           ∧ tail_is default_vertex (dfIdx s') (m_vertex s')) →
  dfs_inv st → m_vertexIndex st !! v = Some iv →
  tail_is default_vertex (dfIdx st) (m_vertex st) →
  visit_successor rec v w st = Ok st' →
  tail_is default_vertex (dfIdx st') (m_vertex st').
Proof.
  intros Hrec Hinv Hv Htail H. unfold visit_successor in H.
  inv_bind H as s Es. apply vget_Ok in Es.
  assert (s = size_max) as -> by (eapply (di_semi_hi _ Hinv); [|done]; lia).
  rewrite N.eqb_refl in H. inv_bind H as st1 E1.
  rewrite (index_of_present _ _ _ Hv) in E1. inv_bind E1 as par Epar.
  pose proof (di_index _ Hinv _ _ Hv) as [Hiv _].
  destruct (visit_parent_inv _ _ _ Hinv Hiv Epar) as (Hinvp & Hprep & Hextp).
  destruct (Hrec _ _ Hinvp Hprep Htail E1) as (Hpost & Htail1).
  pose proof (dp_inv _ _ _ _ Hpost) as Hinv1.
  pose proof (dp_visited _ _ _ _ Hpost) as Hw1.
  apply (di_visited _ Hinv1) in Hw1 as [iw Hiw].
  assert (m_vertexIndex st1 !! v = Some iv) as Hv1.
  { eapply lookup_weaken; [exact Hv|].
    etrans; [apply Hextp|apply (dp_ext _ _ _ _ Hpost)]. }
  rewrite (index_of_present _ _ _ Hiw), (index_of_present _ _ _ Hv1) in H.
  inv_bind H as ps Eps. inv_bind H as preds Epreds. inv_ok H. done.
Qed.

Lemma dfs_spare fuel :
  ∀ v st st',
    dfs_inv st → pre_parent st →
    tail_is default_vertex (dfIdx st) (m_vertex st) →
    dfs successors fuel v st = Ok st' →
    dfs_post successors v st st'
    ∧ tail_is default_vertex (dfIdx st') (m_vertex st').
Proof.
  induction fuel as [|f IH]; intros v st st' Hinv Hpre Htail H;
    [discriminate|].
  split; [by eapply dfs_spec|].
  simpl in H. destruct (decide (v ∈ visited st)) as [Hv|Hv]; [by inv_ok H|].
  inv_bind H as mv Emv. inv_bind H as sm Esm. inv_bind H as lb Elb.
  simpl in *.
  match type of H with
  | foreach _ _ ?s = _ => change s with (dfs_enter v mv sm lb st) in H
  end.
  destruct (dfs_enter_spec _ _ _ _ _ Hinv Hpre Hv Emv Esm Elb)
    as (Hinvb & Hextb & Hvb & Hdfb).
  assert (tail_is default_vertex (dfIdx (dfs_enter v mv sm lb st))
            (m_vertex (dfs_enter v mv sm lb st))) as Htailb.
  { rewrite Hdfb. intros i y Hi. simpl.
    rewrite (vset_lookup _ _ _ _ _ Emv), decide_False by lia.
    apply Htail. lia. }
  assert (dfs_inv st' ∧ m_vertexIndex st' !! v = Some (dfIdx st)
          ∧ tail_is default_vertex (dfIdx st') (m_vertex st')) as (_ & _ & G).
  { eapply (foreach_inv _
              (fun s => dfs_inv s ∧ m_vertexIndex s !! v = Some (dfIdx st)
                        ∧ tail_is default_vertex (dfIdx s) (m_vertex s)));
      [| |exact H]; [|done].
    intros w s s' _ (I1 & I2 & I3) E.
    pose proof (visit_successor_spec successors (dfs successors f)
                  (fun w' s0 s1 => dfs_spec successors f w' s0 s1)
                  _ _ _ _ _ I1 I2 E) as Hp.
    split; [apply Hp|]. split.
    - eapply lookup_weaken; [exact I2|apply Hp].
    - eapply visit_successor_spare; [|exact I1|exact I2|exact I3|exact E].
      intros s0 s1. apply IH. }
  done.
Qed.

End SpareSlots.

Lemma idom_tail_trans n st1 st2 st3 :
  idom_tail n st1 st2 → idom_tail n st2 st3 → idom_tail n st1 st3.
Proof. intros H1 H2 i Hi. rewrite H2, H1; done. Qed.

Lemma eval_idom n fuel v st st' u :
  forest n (ancestor st) → array_le n (label st) → v < n →
  eval fuel v st = Ok (st', u) → idom st' = idom st.
Proof.
  intros Ha Hl Hv H.
  by destruct (eval_spec _ _ _ _ _ _ Ha Hl Hv H) as (anc & lab & -> & _).
Qed.

Lemma bucket_step_idom n fuel w v st st' :
  pass_inv n st → v < n →
  bucket_step fuel w v st = Ok st' → idom_tail n st st'.
Proof.
  intros Hinv Hv H. unfold bucket_step in H.
  inv_bind H as r Er. destruct r as [st1 u].
  pose proof (eval_idom _ _ _ _ _ _ (pi_ancestor _ _ Hinv)
                (pi_label _ _ Hinv) Hv Er) as Hid.
  inv_bind H as su Esu. inv_bind H as sv Esv. inv_bind H as id Eid.
  inv_ok H. intros i Hi. simpl.
  rewrite (vset_lookup _ _ _ _ _ Eid), decide_False by lia. by rewrite Hid.
Qed.

Lemma semi_step_idom n fuel w v st st' :
  pass_inv n st → v < n →
  semi_step fuel w v st = Ok st' → idom st' = idom st.
Proof.
  intros Hinv Hv H. unfold semi_step in H.
  inv_bind H as r Er. destruct r as [st1 u].
  pose proof (eval_idom _ _ _ _ _ _ (pi_ancestor _ _ Hinv)
                (pi_label _ _ Hinv) Hv Er) as Hid.
  inv_bind H as su Esu. inv_bind H as sw Esw.
  destruct (su <? sw); [|by inv_ok H].
  inv_bind H as sm Esm. by inv_ok H.
Qed.

Lemma process_index_idom n fuel w st st' :
  pass_inv n st → w < n →
  process_index fuel w st = Ok st' → idom_tail n st st'.
Proof.
  intros Hinv Hw H. unfold process_index in H.
  inv_bind H as bw Ebw. apply vget_Ok in Ebw.
  assert (∀ v, v ∈ bw → v < n ∧ w ≤ v ∧ (v ≠ 0 → w < v)) as Hbw
    by (intros v; by apply (pi_bucket _ _ Hinv w)).
  inv_bind H as st1 E1.
  assert (pass_inv n st1 ∧ idom_tail n st st1) as [Hinv1 Ht1].
  { eapply (foreach_inv _ (fun s => pass_inv n s ∧ idom_tail n st s));
      [| |exact E1]; [|by split].
    intros x s s' Hx [I1 I2] E. destruct (Hbw _ Hx) as (B1 & B2 & B3).
    split; [by destruct (bucket_step_spec _ _ _ _ _ _ I1 B1 B2 B3 E)|].
    eapply idom_tail_trans; [exact I2|by eapply bucket_step_idom]. }
  inv_bind H as pw Epw. apply vget_Ok in Epw.
  assert (∀ v, v ∈ pw → v < n) as Hpw
    by (intros v; by apply (pi_preds _ _ Hinv1 w)).
  inv_bind H as st2 E2.
  assert (pass_inv n st2 ∧ idom st2 = idom st1) as [Hinv2 Ht2].
  { eapply (foreach_inv _ (fun s => pass_inv n s ∧ idom s = idom st1));
      [| |exact E2]; [|by split].
    intros x s s' Hx [I1 I2] E.
    split; [by destruct (semi_step_spec _ _ _ _ _ _ I1 (Hpw _ Hx) Hw E)|].
    rewrite <- I2. by eapply semi_step_idom; [|apply Hpw|]. }
  inv_bind H as sw Esw. inv_bind H as bs Ebs. inv_bind H as bk Ebk.
  inv_bind H as p Ep. unfold link in H. inv_bind H as anc Eanc. inv_ok H.
  intros i Hi. simpl. rewrite Ht2. by apply Ht1.
Qed.

Lemma semi_pass_idom n fuel st st' :
  pass_inv n st → semi_pass fuel st = Ok st' → idom_tail n st st'.
Proof.
  intros Hinv H. unfold semi_pass in H.
  assert (pass_inv n st' ∧ idom_tail n st st') as [_ G]; [|done].
  eapply (foreach_inv _ (fun s => pass_inv n s ∧ idom_tail n st s));
    [| |exact H]; [|by split].
  intros x s s' _ [I1 I2] E.
  split; [by destruct (process_vertex_spec _ _ _ _ _ I1 E)|].
  eapply idom_tail_trans; [exact I2|].
  unfold process_vertex in E. destruct (index_of x s) as [s0 w] eqn:E0.
  destruct (index_of_spec _ _ _ _ _ I1 E0) as (G1 & _ & G3 & _ & G5).
  intros i Hi. rewrite (process_index_idom _ _ _ _ _ G1 G3 E i Hi).
  by rewrite G5.
Qed.

Lemma fixup_vertex_idom n it st st' :
  pass_inv n st → fixup_vertex it st = Ok st' → idom_tail n st st'.
Proof.
  intros Hinv H. unfold fixup_vertex in H.
  destruct (index_of it st) as [st0 w] eqn:E.
  destruct (index_of_spec _ _ _ _ _ Hinv E) as (_ & _ & G3 & _ & G4).
  inv_bind H as iw Eiw. inv_bind H as sw Esw.
  destruct (iw =? sw); [inv_ok H; intros i _; by rewrite G4|].
  inv_bind H as iiw Eiiw. inv_bind H as id Eid. inv_ok H.
  intros i Hi. simpl.
  rewrite (vset_lookup _ _ _ _ _ Eid), decide_False by lia. by rewrite G4.
Qed.

Lemma fixup_pass_idom n st st' :
  pass_inv n st → progress n 0 st →
  fixup_pass st = Ok st' → idom_tail n st st'.
Proof.
  intros Hinv Hprog H. pose proof H as H0. unfold fixup_pass in H.
  pose proof (pi_pos _ _ Hinv) as Hpos.
  inv_bind H as id Eid. simpl in H.
  set (st1 := set_idom st id) in *.
  assert (pass_inv n st1) as Hinv1.
  { destruct Hinv as [P1 P2 P3 P4 P5 P6 P7 P8 P9 P10]. split; done. }
  assert (idom_tail n st st1) as Ht1.
  { intros i Hi. simpl.
    by rewrite (vset_lookup _ _ _ _ _ Eid), decide_False by lia. }
  assert (idom_final n (idom st1)) as Hfin1.
  { simpl. split.
    - rewrite <- (Nat2N.id 0), (vset_lookup _ _ _ _ _ Eid). done.
    - intros i Hi.
      destruct (Hprog i) as [(j & Hj & Hji)|(j & _ & Hj & _)];
        [lia|lia| |lia].
      exists j. by rewrite (vset_lookup _ _ _ _ _ Eid), decide_False by lia. }
  assert (pass_inv n st' ∧ idom_final n (idom st') ∧ idom_tail n st st')
    as (_ & _ & G); [|done].
  eapply (foreach_inv _
            (fun s => pass_inv n s ∧ idom_final n (idom s)
                      ∧ idom_tail n st s)); [| |exact H]; [|done].
  intros x s s' _ (I1 & I2 & I3) E.
  destruct (fixup_vertex_spec _ _ _ _ I1 I2 E) as (F1 & _ & F3).
  split; [done|]. split; [done|].
  eapply idom_tail_trans; [exact I3|by eapply fixup_vertex_idom].
Qed.

Lemma construct_spare succ fuel entry numVertices d :
  numVertices ≤ size_max →
  construct succ fuel entry numVertices = Ok d →
  ∃ n, analysed succ entry numVertices n d
       ∧ tail_is default_vertex n (vertices d)
       ∧ tail_is size_max n (immediateDominators d).
Proof.
  intros Hn Hd.
  destruct (construct_inv _ _ _ _ _ Hd)
    as (st1 & st & E1 & E & Hext & Ev & Ex & Ei & Et).
  specialize (Hext Hn).
  assert (pre_parent (init_state numVertices)) as Hpre by (by intros []).
  assert (tail_is default_vertex 0 (m_vertex (init_state numVertices)))
    as Htail0.
  { intros i y _. simpl. by intros [-> _]%lookup_replicate. }
  destruct (dfs_spare succ _ _ _ _ (init_state_inv _ Hn) Hpre Htail0 E1)
    as (Hpost & Htail1).
  destruct (dfs_pass_inv _ _ _ _ _ Hn E1) as (D1 & _).
  unfold lengauerTarjanDominator in E.
  destruct (numVertices =? 0); [discriminate|].
  rewrite E1 in E. simpl in E. inv_bind E as st2 E2.
  destruct (semi_pass_spec _ _ _ _ D1 E2) as (S1 & S2 & S3).
  pose proof (semi_pass_idom _ _ _ _ D1 E2) as T2.
  pose proof (fixup_pass_idom _ _ _ S1 S3 E) as T3.
  destruct (fixup_pass_spec _ _ _ S1 S3 E) as (F1 & F2 & F3).
  pose proof (pe_dfIdx _ _ (pass_ext_trans _ _ _ S2 F2)) as Hdf.
  exists (dfIdx st1). split; [|split].
  - destruct (construct_analysed _ _ _ _ _ Hn Hd) as [n Ha].
    assert (n = dfIdx st1) as <-; [|done].
    (* both count the indexed vertices *)
    destruct (N.lt_trichotomy n (dfIdx st1)) as [Hlt|[->|Hgt]]; [|done|].
    + destruct (pi_table _ _ F1 n) as (x & _ & Hx); [lia|].
      rewrite <- Ex in Hx. pose proof (an_index _ _ _ _ _ Ha _ _ Hx). lia.
    + destruct (an_table _ _ _ _ _ Ha (dfIdx st1)) as (x & _ & Hx); [lia|].
      rewrite Ex in Hx. pose proof (pi_index _ _ F1 _ _ Hx). lia.
  - rewrite Ev, (pe_vertex _ _ Hext). done.
  - rewrite Ei. intros i y Hi Hy.
    rewrite (T3 i), (T2 i) in Hy by (rewrite ?(pe_dfIdx _ _ S2); lia).
    rewrite (de_idom _ _ (dp_ext _ _ _ _ Hpost)) in Hy. simpl in Hy.
    by apply lookup_replicate in Hy as [-> _].
Qed.

(** A slot that the search has not handed out keeps its initial contents:
    the value-initialised vertex and the "undefined" immediate dominator.
    [buildDominatorTree] files these slots as the children of the index
    [size_max]: the tree has that key exactly when [numVertices] exceeds the
    number [n] of indexed vertices, and its list holds the indices from [n]
    on. *)
Theorem spare_slots succ fuel entry numVertices d :
  numVertices ≤ size_max →
  construct succ fuel entry numVertices = Ok d →
  ∃ n, (∀ i, i < n ↔ ∃ v, vertexIndices d !! v = Some i)
       ∧ n ≤ numVertices
       ∧ (∀ i, n ≤ i < numVertices →
               vertices d !! N.to_nat i = Some default_vertex
               ∧ immediateDominators d !! N.to_nat i = Some size_max)
       ∧ (n = numVertices → dominatorTree d !! size_max = None)
       ∧ (n < numVertices →
          ∃ cs, dominatorTree d !! size_max = Some cs
                ∧ ∀ i, i ∈ cs ↔ n ≤ i < numVertices).
Proof.
  intros Hn Hd.
  destruct (construct_spare _ _ _ _ _ Hn Hd) as (n & Ha & Tv & Ti).
  destruct (construct_inv _ _ _ _ _ Hd)
    as (st1 & st & _ & _ & _ & Ev & _ & Ei & Et).
  rewrite <- Ev, <- Ei in Et.
  destruct Ha as [A1 A2 A3 A4 A5 A6 A7 A8 [A9 A10] A11].
  assert (∀ i, n ≤ i < numVertices →
               vertices d !! N.to_nat i = Some default_vertex
               ∧ immediateDominators d !! N.to_nat i = Some size_max)
    as Hspare.
  { intros i Hi. unfold vsize in A3, A4.
    destruct (lookup_lt_is_Some_2 (vertices d) (N.to_nat i)) as [x Hx];
      [lia|].
    destruct (lookup_lt_is_Some_2 (immediateDominators d) (N.to_nat i))
      as [y Hy]; [lia|].
    by rewrite Hx, Hy, (Tv _ _ (proj1 Hi) Hx), (Ti _ _ (proj1 Hi) Hy). }
  assert (∀ i, i ∈ children_of (immediateDominators d) size_max
               ↔ n ≤ i < numVertices) as Hcs.
  { intros i. rewrite children_of_elem, A4. split.
    - intros (H1 & H2 & H3). split; [|done].
      destruct (N.lt_ge_cases i n) as [Hlt|]; [|done].
      destruct (A10 i) as (j & Hj & Hji); [lia|].
      rewrite H3 in Hj. inv_ok Hj. lia.
    - intros Hi. split; [lia|]. split; [lia|]. by apply Hspare. }
  exists n. split; [|split; [done|split; [done|split]]].
  - intros i. split.
    + intros Hi. destruct (A8 _ Hi) as (v & _ & Hv). eauto.
    + intros [v Hv]. eauto.
  - intros ->. destruct (dominatorTree d !! size_max) as [cs|] eqn:E; [|done].
    apply (tree_lookup_Some _ _ _ _ _ Et) in E as [-> Hne].
    destruct (children_of _ _) as [|i cs]; [done|].
    assert (i ∈ i :: cs) as Hi by left. apply Hcs in Hi. lia.
  - intros Hlt. exists (children_of (immediateDominators d) size_max).
    split; [|done]. apply (tree_lookup_Some _ _ _ _ _ Et).
    split; [done|]. intros E.
    assert (n ∈ children_of (immediateDominators d) size_max) as Hin
      by (apply Hcs; lia).
    rewrite E in Hin. inversion Hin.
Qed.

(** ** The keys of the index map *)

Lemma eval_index n fuel v st st' u :
  forest n (ancestor st) → array_le n (label st) → v < n →
  eval fuel v st = Ok (st', u) → m_vertexIndex st' = m_vertexIndex st.
Proof.
  intros Ha Hl Hv H.
  by destruct (eval_spec _ _ _ _ _ _ Ha Hl Hv H) as (anc & lab & -> & _).
Qed.

Lemma bucket_step_index n fuel w v st st' :
  pass_inv n st → v < n →
  bucket_step fuel w v st = Ok st' → m_vertexIndex st' = m_vertexIndex st.
Proof.
  intros Hinv Hv H. unfold bucket_step in H.
  inv_bind H as r Er. destruct r as [st1 u].
  pose proof (eval_index _ _ _ _ _ _ (pi_ancestor _ _ Hinv)
                (pi_label _ _ Hinv) Hv Er) as Hid.
  inv_bind H as su Esu. inv_bind H as sv Esv. inv_bind H as id Eid.
  by inv_ok H.
Qed.

Lemma semi_step_index n fuel w v st st' :
  pass_inv n st → v < n →
  semi_step fuel w v st = Ok st' → m_vertexIndex st' = m_vertexIndex st.
Proof.
  intros Hinv Hv H. unfold semi_step in H.
  inv_bind H as r Er. destruct r as [st1 u].
  pose proof (eval_index _ _ _ _ _ _ (pi_ancestor _ _ Hinv)
                (pi_label _ _ Hinv) Hv Er) as Hid.
  inv_bind H as su Esu. inv_bind H as sw Esw.
  destruct (su <? sw); [|by inv_ok H].
  inv_bind H as sm Esm. by inv_ok H.
Qed.

Lemma process_index_index n fuel w st st' :
  pass_inv n st → w < n →
  process_index fuel w st = Ok st' → m_vertexIndex st' = m_vertexIndex st.
Proof.
  intros Hinv Hw H. unfold process_index in H.
  inv_bind H as bw Ebw. apply vget_Ok in Ebw.
  assert (∀ v, v ∈ bw → v < n ∧ w ≤ v ∧ (v ≠ 0 → w < v)) as Hbw
    by (intros v; by apply (pi_bucket _ _ Hinv w)).
  inv_bind H as st1 E1.
  assert (pass_inv n st1 ∧ m_vertexIndex st1 = m_vertexIndex st)
    as [Hinv1 Ht1].
  { eapply (foreach_inv _
              (fun s => pass_inv n s ∧ m_vertexIndex s = m_vertexIndex st));
      [| |exact E1]; [|by split].
    intros x s s' Hx [I1 I2] E. destruct (Hbw _ Hx) as (B1 & B2 & B3).
    split; [by destruct (bucket_step_spec _ _ _ _ _ _ I1 B1 B2 B3 E)|].
    rewrite <- I2. by eapply bucket_step_index. }
  inv_bind H as pw Epw. apply vget_Ok in Epw.
  assert (∀ v, v ∈ pw → v < n) as Hpw
    by (intros v; by apply (pi_preds _ _ Hinv1 w)).
  inv_bind H as st2 E2.
  assert (pass_inv n st2 ∧ m_vertexIndex st2 = m_vertexIndex st1)
    as [Hinv2 Ht2].
  { eapply (foreach_inv _
              (fun s => pass_inv n s ∧ m_vertexIndex s = m_vertexIndex st1));
      [| |exact E2]; [|by split].
    intros x s s' Hx [I1 I2] E.
    split; [by destruct (semi_step_spec _ _ _ _ _ _ I1 (Hpw _ Hx) Hw E)|].
    rewrite <- I2. by eapply semi_step_index; [|apply Hpw|]. }
  inv_bind H as sw Esw. inv_bind H as bs Ebs. inv_bind H as bk Ebk.
  inv_bind H as p Ep. unfold link in H. inv_bind H as anc Eanc. inv_ok H.
  simpl. congruence.
Qed.

Lemma index_of_keys n m K it st st0 w :
  keys_inv n m K st → it ∈ m_vertex st → index_of it st = (st0, w) →
  keys_inv n m K st0 ∧ w < n.
Proof.
  intros (Hinv & Htail & Hsz & Hk) Hit E.
  destruct (index_of_spec _ _ _ _ _ Hinv E) as (G1 & G2 & G3 & G4 & _).
  split; [|done]. split; [done|]. rewrite (pe_vertex _ _ G2).
  split; [done|]. split; [done|].
  intros v j Hv. unfold index_of, map_index in E.
  destruct (m_vertexIndex st !! it) as [i|] eqn:Ei.
  - injection E as <- <-. eapply Hk. by destruct st.
  - injection E as <- <-. simpl in Hv. rewrite lookup_insert in Hv.
    case_decide as Hc; [|by eapply Hk]. subst v. injection Hv as <-.
    apply list_elem_of_lookup_1 in Hit as [i Hi].
    pose proof (lookup_lt_Some _ _ _ Hi) as Hlt. unfold vsize in Hsz.
    destruct (N.lt_ge_cases (N.of_nat i) n) as [Hin|Hin].
    + destruct (pi_table _ _ Hinv _ Hin) as (x & Hx1 & Hx2).
      rewrite Nat2N.id, Hi in Hx1. inv_ok Hx1. congruence.
    + right. split; [|split; [done|lia]].
      apply (Htail (N.of_nat i)); [done|]. by rewrite Nat2N.id.
Qed.

Lemma process_vertex_keys n m K fuel it st st' :
  keys_inv n m K st → it ∈ m_vertex st →
  process_vertex fuel it st = Ok st' → keys_inv n m K st'.
Proof.
  intros HK Hit H. unfold process_vertex in H.
  destruct (index_of it st) as [st0 w] eqn:E.
  destruct (index_of_keys _ _ _ _ _ _ _ HK Hit E)
    as ((Hinv0 & Htail0 & Hsz0 & Hk0) & Hw).
  destruct (process_index_spec _ _ _ _ _ Hinv0 Hw H) as (G1 & G2 & _).
  split; [done|]. rewrite (pe_vertex _ _ G2). split; [done|]. split; [done|].
  by rewrite (process_index_index _ _ _ _ _ Hinv0 Hw H).
Qed.

Lemma foreach_fixed {A S} (body : A → S → res S) (I : S → Prop)
    (f : S → list A) l :
  (∀ x st st', x ∈ f st → I st → body x st = Ok st' →
               I st' ∧ f st' = f st) →
  ∀ st st', (∀ x, x ∈ l → x ∈ f st) → I st →
            foreach body l st = Ok st' → I st' ∧ f st' = f st.
Proof.
  intros Hb. induction l as [|x l IH]; intros st st' Hl HI H; simpl in H.
  - by inv_ok H.
  - inv_bind H as st1 E1.
    destruct (Hb x st st1) as [I1 F1]; [apply Hl; left|done|done|].
    destruct (IH st1 st') as [I2 F2]; [|done|done|].
    + intros y Hy. rewrite F1. apply Hl. by right.
    + split; [done|congruence].
Qed.

Lemma semi_pass_keys n m K fuel st st' :
  keys_inv n m K st → semi_pass fuel st = Ok st' → keys_inv n m K st'.
Proof.
  intros HK H. unfold semi_pass in H.
  eapply (foreach_fixed _ (keys_inv n m K) m_vertex); [| |exact HK|exact H].
  - intros x s s' Hx Hs E. split; [by eapply process_vertex_keys|].
    destruct Hs as (Hinv & _).
    by destruct (process_vertex_spec _ _ _ _ _ Hinv E) as (_ & []).
  - intros x Hx. apply list_elem_of_In. apply list_elem_of_In in Hx.
    by apply in_rev.
Qed.

Lemma fixup_vertex_keys n m K it st st' :
  keys_inv n m K st → idom_final n (idom st) → it ∈ m_vertex st →
  fixup_vertex it st = Ok st' →
  keys_inv n m K st' ∧ idom_final n (idom st').
Proof.
  intros HK Hfin Hit H.
  destruct (fixup_vertex_spec _ _ _ _ (proj1 HK) Hfin H) as (F1 & F2 & F3).
  split; [|done]. unfold fixup_vertex in H.
  destruct (index_of it st) as [st0 w] eqn:E.
  destruct (index_of_keys _ _ _ _ _ _ _ HK Hit E)
    as ((Hinv0 & Htail0 & Hsz0 & Hk0) & Hw).
  split; [done|]. rewrite (pe_vertex _ _ F2).
  destruct HK as (_ & Htail & Hsz & _). split; [done|]. split; [done|].
  inv_bind H as iw Eiw. inv_bind H as sw Esw.
  destruct (iw =? sw); [by inv_ok H|].
  inv_bind H as iiw Eiiw. inv_bind H as id Eid. by inv_ok H.
Qed.

Lemma fixup_pass_keys n m K st st' :
  keys_inv n m K st → progress n 0 st →
  fixup_pass st = Ok st' → keys_inv n m K st'.
Proof.
  intros HK Hprog H. unfold fixup_pass in H.
  destruct HK as (Hinv & Htail & Hsz & Hk).
  pose proof (pi_pos _ _ Hinv) as Hpos.
  inv_bind H as id Eid. simpl in H.
  set (st1 := set_idom st id) in *.
  assert (pass_inv n st1) as Hinv1.
  { destruct Hinv as [P1 P2 P3 P4 P5 P6 P7 P8 P9 P10]. split; done. }
  assert (idom_final n (idom st1)) as Hfin1.
  { simpl. split.
    - rewrite <- (Nat2N.id 0), (vset_lookup _ _ _ _ _ Eid). done.
    - intros i Hi.
      destruct (Hprog i) as [(j & Hj & Hji)|(j & _ & Hj & _)];
        [lia|lia| |lia].
      exists j. by rewrite (vset_lookup _ _ _ _ _ Eid), decide_False by lia. }
  assert ((keys_inv n m K st' ∧ idom_final n (idom st'))
          ∧ m_vertex st' = m_vertex st1) as [[G _] _]; [|done].
  eapply (foreach_fixed _
            (fun s => keys_inv n m K s ∧ idom_final n (idom s)) m_vertex);
    [| | |exact H].
  - intros x s s' Hx [Hs Hf] E.
    split; [by eapply fixup_vertex_keys|].
    by destruct (fixup_vertex_spec _ _ _ _ (proj1 Hs) Hf E) as (_ & [] & _).
  - intros x Hx. apply list_elem_of_lookup_1 in Hx as [i Hi].
    rewrite lookup_drop in Hi. by eapply list_elem_of_lookup_2.
  - done.
Qed.

(** The keys of [vertexIndices()] are the reachable vertices and, when the
    table has a slot to spare, the value-initialised vertex, which the two
    loops over the table enter with index [0]; [n] is the number of indices
    in use. *)
Theorem vertexIndices_keys succ fuel entry numVertices d :
  numVertices ≤ size_max →
  construct succ fuel entry numVertices = Ok d →
  ∃ n, (∀ i, i < n ↔ ∃ v, vertexIndices d !! v = Some i)
       ∧ n ≤ numVertices
       ∧ (∀ v, is_Some (vertexIndices d !! v)
               ↔ reachable succ entry v
                 ∨ v = default_vertex ∧ n < numVertices)
       ∧ (n < numVertices → ¬ reachable succ entry default_vertex →
          vertexIndices d !! default_vertex = Some 0).
Proof.
  intros Hn Hd.
  destruct (construct_inv _ _ _ _ _ Hd)
    as (st1 & st & E1 & E & Hext & Ev & Ex & Ei & Et).
  specialize (Hext Hn).
  assert (pre_parent (init_state numVertices)) as Hpre by (by intros []).
  assert (tail_is default_vertex 0 (m_vertex (init_state numVertices)))
    as Htail0.
  { intros i y _. simpl. by intros [-> _]%lookup_replicate. }
  destruct (dfs_spare succ _ _ _ _ (init_state_inv _ Hn) Hpre Htail0 E1)
    as (Hpost & Htail1).
  destruct (dfs_pass_inv _ _ _ _ _ Hn E1)
    as (D1 & _ & D3 & D4 & D5 & D6 & _).
  assert (∀ x, x ∈ visited st1 → reachable succ entry x) as Hsound.
  { eapply (dfs_visited_sound succ (reachable succ entry)); [| | |exact E1].
    - intros x y Hx Hy. by eapply reach_step.
    - constructor.
    - simpl. set_solver. }
  set (n := dfIdx st1) in *.
  assert (keys_inv n numVertices (reachable succ entry) st1) as HK1.
  { split; [done|]. split; [done|]. split; [done|].
    intros v i Hv. left. apply Hsound, D4. eauto. }
  unfold lengauerTarjanDominator in E.
  destruct (numVertices =? 0); [discriminate|].
  rewrite E1 in E. simpl in E. inv_bind E as st2 E2.
  destruct (semi_pass_spec _ _ _ _ D1 E2) as (S1 & S2 & S3).
  pose proof (semi_pass_keys _ _ _ _ _ _ HK1 E2) as HK2.
  pose proof (fixup_pass_keys _ _ _ _ _ HK2 S3 E) as (F1 & _ & _ & HK).
  destruct (fixup_pass_spec _ _ _ S1 S3 E) as (_ & F2 & _).
  assert (n < numVertices →
          is_Some (m_vertexIndex st !! default_vertex)) as Hdef.
  { intros Hlt.
    assert (default_vertex ∈ rev (m_vertex st1)) as Hin.
    { apply list_elem_of_In. apply -> in_rev. apply list_elem_of_In.
      unfold vsize in D5.
      destruct (lookup_lt_is_Some_2 (m_vertex st1) (N.to_nat n)) as [x Hx];
        [lia|].
      pose proof (Htail1 n x (N.le_refl _) Hx) as ->.
      by eapply list_elem_of_lookup_2. }
    unfold semi_pass in E2.
    destruct (foreach_each (process_vertex fuel) (pass_inv n)
                (fun x s => is_Some (m_vertexIndex s !! x))
                (rev (m_vertex st1)))
      with (st := st1) (st' := st2) as [_ G]; [| |done|done|].
    - intros x s s' _ Hs Hb.
      split; [by destruct (process_vertex_spec _ _ _ _ _ Hs Hb)|].
      unfold process_vertex in Hb.
      destruct (index_of x s) as [s0 w] eqn:E0.
      destruct (index_of_spec _ _ _ _ _ Hs E0) as (G1 & _ & G3 & G4 & _).
      destruct (process_index_spec _ _ _ _ _ G1 G3 Hb) as (_ & G5 & _).
      exists w. eapply lookup_weaken; [exact G4|apply G5].
    - intros x y s s' _ Hs [i Hi] Hb.
      destruct (process_vertex_spec _ _ _ _ _ Hs Hb) as (_ & G5).
      exists i. eapply lookup_weaken; [exact Hi|apply G5].
    - destruct (G _ Hin) as [i Hi]. exists i.
      eapply lookup_weaken; [exact Hi|apply F2]. }
  exists n. rewrite Ex. split; [|split; [done|split]].
  - intros i. split.
    + intros Hi. destruct (pi_table _ _ F1 _ Hi) as (v & _ & Hv). eauto.
    + intros [v Hv]. by eapply (pi_index _ _ F1).
  - intros v. split.
    + intros [i Hi]. destruct (HK _ _ Hi) as [|(-> & _ & Hlt)]; auto.
    + intros [Hv|[-> Hlt]]; [|by apply Hdef].
      apply D3, D4 in Hv as [i Hi]. exists i.
      eapply lookup_weaken; [exact Hi|]. etrans; [apply S2|apply F2].
  - intros Hlt Hnr. destruct (Hdef Hlt) as [i Hi].
    destruct (HK _ _ Hi) as [|(_ & -> & _)]; done.
Qed.

(** ** The reverse loop over a table with spare slots *)

Lemma table_split n st :
  pass_inv n st → tail_is default_vertex n (m_vertex st) →
  n ≤ vsize (m_vertex st) →
  m_vertex st
  = take (N.to_nat n) (m_vertex st)
    ++ replicate (N.to_nat (vsize (m_vertex st) - n)) default_vertex.
Proof.
  intros Hinv Htail Hn. unfold vsize in *.
  rewrite <- (take_drop (N.to_nat n) (m_vertex st)) at 1. f_equal.
  symmetry. apply replicate_as_Forall. split; [rewrite length_drop; lia|].
  apply Forall_lookup. intros i x Hx. rewrite lookup_drop in Hx. symmetry.
  apply (Htail (n + N.of_nat i)); [lia|].
  by replace (N.to_nat (n + N.of_nat i)) with (N.to_nat n + i)%nat by lia.
Qed.

Lemma pass_spare_indices n fuel k c :
  k < n →
  ∀ st, pass_inv n st → m_vertexIndex st !! default_vertex = Some k →
        (∀ st', foreach (process_index fuel) (replicate c k) st = Ok st' →
                pass_inv n st' ∧ m_vertex st' = m_vertex st)
        ∧ foreach (process_vertex fuel) (replicate c default_vertex) st
          = foreach (process_index fuel) (replicate c k) st.
Proof.
  intros Hk. induction c as [|c IH]; intros st Hinv Hdef.
  - split; [|done]. intros st' H. simpl in H. by inv_ok H.
  - simpl. unfold process_vertex at 1.
    rewrite (index_of_present _ _ _ Hdef).
    destruct (process_index fuel k st) as [st1| | |] eqn:E; simpl;
      try (split; [discriminate|done]).
    destruct (process_index_spec n _ _ _ _ Hinv Hk E) as (G1 & G2 & _).
    assert (m_vertexIndex st1 !! default_vertex = Some k) as Hdef1
      by (eapply lookup_weaken; [exact Hdef|apply G2]).
    destruct (IH st1 G1 Hdef1) as [I1 I2]. split; [|done].
    intros st' H. destruct (I1 _ H) as [J1 J2]. split; [done|].
    by rewrite J2, (pe_vertex _ _ G2).
Qed.

(** When slots are spare and the value-initialised vertex is a vertex of
    the graph, with index [k], the reverse loop runs its body for [k] once
    per spare slot before it runs it for the indices [n-1] down to [0]:
    [k] is processed, and linked to its parent, ahead of its turn. *)
Theorem semi_pass_spare_first succ fuel entry numVertices st fuel' k :
  numVertices ≤ size_max →
  dfs succ fuel entry (init_state numVertices) = Ok st →
  m_vertexIndex st !! default_vertex = Some k →
  semi_pass fuel' st
  = foreach (process_index fuel')
      (replicate (N.to_nat (numVertices - dfIdx st)) k
       ++ indices_down_to 0 (N.to_nat (dfIdx st))) st.
Proof.
  intros Hn Hdfs Hdef.
  destruct (dfs_pass_inv _ _ _ _ _ Hn Hdfs)
    as (D1 & _ & _ & _ & D5 & D6 & _).
  assert (pre_parent (init_state numVertices)) as Hpre by (by intros []).
  assert (tail_is default_vertex 0 (m_vertex (init_state numVertices)))
    as Htail0.
  { intros i y _. simpl. by intros [-> _]%lookup_replicate. }
  destruct (dfs_spare succ _ _ _ _ (init_state_inv _ Hn) Hpre Htail0 Hdfs)
    as (_ & Htail).
  pose proof (pi_index _ _ D1 _ _ Hdef) as Hk.
  unfold semi_pass.
  rewrite (table_split _ _ D1 Htail) at 1 by (rewrite D5; done).
  rewrite D5, rev_app_distr, !foreach_app.
  replace (rev (replicate (N.to_nat (numVertices - dfIdx st)) default_vertex))
    with (replicate (N.to_nat (numVertices - dfIdx st)) default_vertex).
  2:{ generalize (N.to_nat (numVertices - dfIdx st)). intros c.
      induction c as [|c IH]; [done|].
      simpl. rewrite <- IH. clear IH.
      induction c as [|c IH]; [done|]. simpl. by rewrite <- IH. }
  destruct (pass_spare_indices (dfIdx st) fuel' k
              (N.to_nat (numVertices - dfIdx st)) Hk st D1 Hdef) as [I1 I2].
  rewrite I2.
  destruct (foreach (process_index fuel') _ st) as [st1| | |] eqn:E;
    simpl; try done.
  destruct (I1 _ eq_refl) as [J1 J2]. rewrite <- J2.
  apply (pass_assigned_indices (dfIdx st)); [lia|done].
Qed.

Lemma path_head succ a p b : path succ a p b → ∃ p', p = a :: p'.
Proof. destruct 1; eauto. Qed.

(** The answers of the analyzer depend on [numVertices]: there is a graph,
    with the value-initialised vertex as an inner vertex, in which [a] lies
    on every path from the entry to [b], and [dominates(a, b)] is true when
    the table has as many slots as the graph has vertices but false when it
    has one slot more. *)
Theorem spare_slot_misses_dominator :
  ∃ succ entry a b d5 d6,
    construct succ 6 entry 5 = Ok d5
    ∧ construct succ 7 entry 6 = Ok d6
    ∧ graph_dominates succ entry a b
    ∧ dominates 6 a b d5 = Ok (d5, true)
    ∧ dominates 6 a b d6 = Ok (d6, false).
Proof.
  exists fork, vA, default_vertex, vB. eexists. eexists.
  split; [vm_compute; reflexivity|]. split; [vm_compute; reflexivity|].
  split; [|split; vm_compute; reflexivity].
  intros p Hp. inversion Hp as [|? y p' ? Hy Hp']; subst.
  apply list_elem_of_singleton in Hy as ->.
  destruct (path_head _ _ _ _ Hp') as [p'' ->]. right. left.
Qed.

(** ** The further statements at the linear chain *)

Lemma vertex_table_exact_witness :
  ∃ n, n ≤ 4
       ∧ (∀ i, i < n →
               ∃ v, vertices chain_dominator !! N.to_nat i = Some v
                    ∧ vertexIndices chain_dominator !! v = Some i
                    ∧ reachable chain vA v)
       ∧ (∀ v, reachable chain vA v →
               ∃ i, i < n ∧ vertexIndices chain_dominator !! v = Some i
                    ∧ vertices chain_dominator !! N.to_nat i = Some v).
Proof.
  apply (vertex_table_exact chain 4 vA 4 chain_dominator).
  - unfold size_max. lia.
  - vm_compute. reflexivity.
Defined.

Lemma reachable_within_numVertices_witness :
  (length [vA; vD] ≤ N.to_nat 4)%nat.
Proof.
  apply (reachable_within_numVertices chain 4 vA 4 chain_dominator [vA; vD]).
  - unfold size_max. lia.
  - vm_compute. reflexivity.
  - apply NoDup_cons. split; [|apply NoDup_singleton].
    intros H. apply list_elem_of_singleton in H. vm_compute in H. discriminate.
  - intros v Hv. apply elem_of_cons in Hv as [->|Hv].
    + apply reach_entry.
    + apply list_elem_of_singleton in Hv as ->.
      apply (reach_step chain vA vC vD); [|vm_compute; left].
      apply (reach_step chain vA vB vC); [|vm_compute; left].
      apply (reach_step chain vA vA vB); [|vm_compute; left].
      apply reach_entry.
Defined.

Lemma buildDominatorTree_lookup_witness :
  (list_to_map [(0, [1; 1]); (1, [2; 2]); (2, [3; 3])] : gmap N (list N)) !! 1
  = if decide (children_of [0; 0; 1; 2] 1 = [])
    then dominatorTree chain_dominator !! 1
    else Some (default [] (dominatorTree chain_dominator !! 1)
               ++ children_of [0; 0; 1; 2] 1).
Proof.
  apply (buildDominatorTree_lookup [vA; vB; vC; vD] [0; 0; 1; 2]
           (dominatorTree chain_dominator)).
  vm_compute. reflexivity.
Defined.

Lemma dominatorTree_rooted_witness :
  ∃ n, (∀ i, i < n ↔ ∃ v, vertexIndices chain_dominator !! v = Some i)
       ∧ (∀ i, 1 ≤ i < n →
               ∃ k cs, k < i ∧ dominatorTree chain_dominator !! k = Some cs
                       ∧ i ∈ cs)
       ∧ (∀ k cs i, dominatorTree chain_dominator !! k = Some cs → i ∈ cs →
                    i ≠ 0
                    ∧ immediateDominators chain_dominator !! N.to_nat i
                      = Some k)
       ∧ (∀ k cs, dominatorTree chain_dominator !! k = Some cs →
                  cs ≠ [] ∧ NoDup cs).
Proof.
  apply (dominatorTree_rooted chain 4 vA 4 chain_dominator).
  - unfold size_max. lia.
  - vm_compute. reflexivity.
Defined.

Lemma dominates_antisymmetric_witness :
  (∃ ai bi, vertexIndices chain_dominator !! vA = Some ai
            ∧ vertexIndices chain_dominator !! vD = Some bi ∧ ai ≤ bi)
  ∧ (dominates 4 vD vA chain_dominator = Ok (chain_dominator, true) →
     vA = vD).
Proof.
  apply (dominates_antisymmetric chain 4 vA 4 chain_dominator vA vD 4).
  - unfold size_max. lia.
  - vm_compute. reflexivity.
  - apply reach_entry.
  - apply (reach_step chain vA vC vD); [|vm_compute; left].
    apply (reach_step chain vA vB vC); [|vm_compute; left].
    apply (reach_step chain vA vA vB); [|vm_compute; left].
    apply reach_entry.
  - lia.
  - vm_compute. reflexivity.
Defined.

Lemma dominates_transitive_witness :
  dominates 4 vA vD chain_dominator = Ok (chain_dominator, true).
Proof.
  apply (dominates_transitive chain 4 vA 4 chain_dominator vA vB vD 4).
  - unfold size_max. lia.
  - vm_compute. reflexivity.
  - vm_compute. eauto.
  - vm_compute. eauto.
  - vm_compute. eauto.
  - lia.
  - vm_compute. reflexivity.
  - vm_compute. reflexivity.
Defined.

Lemma dominates_iff_dominatorsOf_witness :
  ∃ r ds, dominates 4 vB vD chain_dominator = Ok (chain_dominator, r)
          ∧ dominatorsOf 4 vD chain_dominator = Ok (chain_dominator, ds)
          ∧ (r = true ↔ vB = vD ∨ vB ∈ ds).
Proof.
  apply (dominates_iff_dominatorsOf chain 4 vA 4 chain_dominator vB vD 4).
  - unfold size_max. lia.
  - vm_compute. reflexivity.
  - apply (reach_step chain vA vA vB); [|vm_compute; left].
    apply reach_entry.
  - apply (reach_step chain vA vC vD); [|vm_compute; left].
    apply (reach_step chain vA vB vC); [|vm_compute; left].
    apply (reach_step chain vA vA vB); [|vm_compute; left].
    apply reach_entry.
  - lia.
Defined.

Lemma immediate_dominator_dominates_witness :
  ∃ i j u, vertexIndices chain_dominator !! vD = Some i
           ∧ immediateDominators chain_dominator !! N.to_nat i = Some j
           ∧ j < i
           ∧ vertices chain_dominator !! N.to_nat j = Some u
           ∧ dominates 4 u vD chain_dominator = Ok (chain_dominator, true).
Proof.
  apply (immediate_dominator_dominates chain 4 vA 4 chain_dominator vD 4).
  - unfold size_max. lia.
  - vm_compute. reflexivity.
  - apply (reach_step chain vA vC vD); [|vm_compute; left].
    apply (reach_step chain vA vB vC); [|vm_compute; left].
    apply (reach_step chain vA vA vB); [|vm_compute; left].
    apply reach_entry.
  - vm_compute. discriminate.
  - lia.
Defined.

Lemma dominatorsOf_NoDup_witness :
  ∃ ds, dominatorsOf 4 vD chain_dominator = Ok (chain_dominator, ds)
        ∧ NoDup ds.
Proof.
  apply (dominatorsOf_NoDup chain 4 vA 4 chain_dominator vD 4).
  - unfold size_max. lia.
  - vm_compute. reflexivity.
  - apply (reach_step chain vA vC vD); [|vm_compute; left].
    apply (reach_step chain vA vB vC); [|vm_compute; left].
    apply (reach_step chain vA vA vB); [|vm_compute; left].
    apply reach_entry.
  - lia.
Defined.

Lemma construct_assert_iff_witness :
  construct chain 4 vA 4 = AssertFail ↔ 4 = 0.
Proof.
  apply (construct_assert_iff chain 4 vA 4). unfold size_max. lia.
Defined.

Lemma full_table_last_is_leaf_witness : chain vD = [].
Proof.
  apply (full_table_last_is_leaf chain 4 vA 4 chain_dominator vD).
  - unfold size_max. lia.
  - vm_compute. reflexivity.
  - vm_compute. reflexivity.
  - vm_compute. reflexivity.
Defined.

Lemma predecessors_exact_witness :
  ascending [1]
  ∧ ∀ p, p ∈ [1] ↔
         p < dfIdx chain_searched ∧ 2 < dfIdx chain_searched
         ∧ ∃ x y, m_vertex chain_searched !! N.to_nat p = Some x
                  ∧ m_vertex chain_searched !! N.to_nat 2 = Some y
                  ∧ y ∈ chain x.
Proof.
  apply (predecessors_exact chain 4 vA 4 chain_searched 2 [1]).
  - unfold size_max. lia.
  - vm_compute. reflexivity.
  - reflexivity.
Defined.

Lemma chain_closed x y :
  x ∈ [vA; vB; vC; vD] → y ∈ chain x → y ∈ [vA; vB; vC; vD].
Proof.
  intros Hx Hy. repeat (apply elem_of_cons in Hx as [->|Hx]).
  - vm_compute in Hy. apply list_elem_of_singleton in Hy as ->. set_solver.
  - vm_compute in Hy. apply list_elem_of_singleton in Hy as ->. set_solver.
  - vm_compute in Hy. apply list_elem_of_singleton in Hy as ->. set_solver.
  - vm_compute in Hy. inversion Hy.
  - inversion Hx.
Qed.

Lemma chain_NoDup : NoDup [vA; vB; vC; vD].
Proof. apply (bool_decide_unpack _). vm_compute. exact I. Qed.

Lemma construct_no_fault_witness :
  construct chain 5 vA 5 ≠ OutOfBounds
  ∧ construct chain 5 vA 5 ≠ AssertFail
  ∧ construct chain 5 vA 5 ≠ OutOfFuel.
Proof.
  apply (construct_no_fault chain 5 vA 5 [vA; vB; vC; vD]).
  - unfold size_max. lia.
  - apply chain_NoDup.
  - left.
  - apply chain_closed.
  - simpl. lia.
  - lia.
Defined.

Lemma construct_too_small_witness : construct chain 3 vA 2 = OutOfBounds.
Proof.
  apply (construct_too_small chain 3 vA 2 [vA; vB; vC]).
  - unfold size_max. lia.
  - lia.
  - apply (bool_decide_unpack _). vm_compute. exact I.
  - intros v Hv. repeat (apply elem_of_cons in Hv as [->|Hv]).
    + apply reach_entry.
    + apply (reach_step chain vA vA vB); [|vm_compute; left].
      apply reach_entry.
    + apply (reach_step chain vA vB vC); [|vm_compute; left].
      apply (reach_step chain vA vA vB); [|vm_compute; left].
      apply reach_entry.
    + inversion Hv.
  - simpl. lia.
  - lia.
Defined.

Lemma compressPath_compresses_witness :
  (∀ x, x ∈ [3; 2; 1] → [size_max; 0; 0; 0] !! N.to_nat x = Some 0)
  ∧ (∀ x l2 b, (x :: l2) `suffix_of` [3; 2; 1] →
               [0; 1; 2; 2] !! N.to_nat x = Some b →
               min_label [0; 1; 0; 3] [0; 1; 2; 3] (x :: l2) b)
  ∧ (∀ x, x ∉ [3; 2; 1] →
          [size_max; 0; 0; 0] !! N.to_nat x
          = [size_max; 0; 1; 2] !! N.to_nat x
          ∧ [0; 1; 2; 2] !! N.to_nat x = [0; 1; 2; 3] !! N.to_nat x).
Proof.
  apply (compressPath_compresses [0; 1; 0; 3] 4 3 [2; 1] 0
           [size_max; 0; 1; 2] [0; 1; 2; 3]).
  - apply (ap_step _ 3 2); [reflexivity|vm_compute; discriminate|].
    apply (ap_step _ 2 1); [reflexivity|vm_compute; discriminate|].
    apply (ap_step _ 1 0); [reflexivity|vm_compute; discriminate|].
    apply ap_root. reflexivity.
  - vm_compute. reflexivity.
Defined.

Lemma eval_minimum_witness :
  semi (set_label (set_ancestor chain_linked [size_max; 0; 0; 0])
          [0; 1; 1; 1])
  = semi chain_linked
  ∧ ([3; 2; 1] = [] →
     1 = 3
     ∧ set_label (set_ancestor chain_linked [size_max; 0; 0; 0]) [0; 1; 1; 1]
       = chain_linked)
  ∧ ([3; 2; 1] ≠ [] →
     min_label (semi chain_linked) (label chain_linked) [3; 2; 1] 1).
Proof.
  apply (eval_minimum 4 3 chain_linked _ 1 [3; 2; 1] 0).
  - apply (ap_step _ 3 2); [reflexivity|vm_compute; discriminate|].
    apply (ap_step _ 2 1); [reflexivity|vm_compute; discriminate|].
    apply (ap_step _ 1 0); [reflexivity|vm_compute; discriminate|].
    apply ap_root. reflexivity.
  - vm_compute. reflexivity.
Defined.

Lemma spare_slots_witness :
  ∃ n, (∀ i, i < n ↔ ∃ v, vertexIndices chain_spare_dominator !! v = Some i)
       ∧ n ≤ 5
       ∧ (∀ i, n ≤ i < 5 →
               vertices chain_spare_dominator !! N.to_nat i
               = Some default_vertex
               ∧ immediateDominators chain_spare_dominator !! N.to_nat i
                 = Some size_max)
       ∧ (n = 5 → dominatorTree chain_spare_dominator !! size_max = None)
       ∧ (n < 5 →
          ∃ cs, dominatorTree chain_spare_dominator !! size_max = Some cs
                ∧ ∀ i, i ∈ cs ↔ n ≤ i < 5).
Proof.
  apply (spare_slots chain 6 vA 5 chain_spare_dominator).
  - unfold size_max. lia.
  - vm_compute. reflexivity.
Defined.

Lemma vertexIndices_keys_witness :
  ∃ n, (∀ i, i < n ↔ ∃ v, vertexIndices chain_spare_dominator !! v = Some i)
       ∧ n ≤ 5
       ∧ (∀ v, is_Some (vertexIndices chain_spare_dominator !! v)
               ↔ reachable chain vA v ∨ v = default_vertex ∧ n < 5)
       ∧ (n < 5 → ¬ reachable chain vA default_vertex →
          vertexIndices chain_spare_dominator !! default_vertex = Some 0).
Proof.
  apply (vertexIndices_keys chain 6 vA 5 chain_spare_dominator).
  - unfold size_max. lia.
  - vm_compute. reflexivity.
Defined.

Lemma semi_pass_spare_first_witness :
  semi_pass 6 fork_searched
  = foreach (process_index 6)
      (replicate (N.to_nat (6 - dfIdx fork_searched)) 1
       ++ indices_down_to 0 (N.to_nat (dfIdx fork_searched))) fork_searched.
Proof.
  apply (semi_pass_spare_first fork 6 vA 6 fork_searched 6 1).
  - unfold size_max. lia.
  - vm_compute. reflexivity.
  - reflexivity.
Defined.

Lemma parent_is_tree_edge_witness :
  ∃ p x y, parent chain_searched !! N.to_nat 2 = Some p ∧ p < 2
           ∧ m_vertex chain_searched !! N.to_nat p = Some x
           ∧ m_vertex chain_searched !! N.to_nat 2 = Some y ∧ y ∈ chain x.
Proof.
  apply (parent_is_tree_edge chain 4 vA 4 chain_searched 2).
  - unfold size_max. lia.
  - vm_compute. reflexivity.
  - simpl. lia.
Defined.
